(** * goll: a load-aware sliding-window limiter

    A shallow embedding of the window engine (window.go), the limiter core
    (probe / acceptLoad / rejectLoad), the composite coordinator and the
    serialization codec (synchronization.go), with the properties of the
    specification stated over it.

    Conventions of the embedding.
    - Go's [uint64] is a [Z] in [0, 2^64); every arithmetic operation of the
      source is written with its wrap-around ([add64], [sub64], [mul64]).
      [int64] values ([time.Duration], the [toFree] counter) are [Z] in
      [-2^63, 2^63) with [wrapS64].
    - The deque of [*windowSegment] is a [list windowSegment], front (newest)
      at the head.  Segments are stored by value; the source stores pointers.
      The two agree as long as the deque holds every segment once, which is
      the case whenever the subtractions of [ensureLatestNSegments] do not
      wrap.
    - A Go panic (Front() on an empty deque, an index out of range, a division
      by zero, the explicit panic of computeRetryIn) is [None] in the [option]
      monad; an [error] result is a value of [result].
    - The float64 computations of the source (the request-overhead penalty
      [math.Round(factor * float64(load))], the derived cap) are fields of the
      effective configuration; the factory (factory.go) computes them with
      the binary64 arithmetic of [PrimFloat]. *)

From Stdlib Require Import ZArith Lia Ascii String.
From Stdlib Require PrimFloat FloatOps SpecFloat FloatAxioms.
From stdpp Require Import base option list sorting gmap strings.

Local Open Scope Z_scope.

(** ** Machine integers *)

Definition two64 : Z := 18446744073709551616.
Definition two63 : Z := 9223372036854775808.

Definition wrap64 (x : Z) : Z := x mod two64.
Definition add64 (a b : Z) : Z := wrap64 (a + b).
Definition sub64 (a b : Z) : Z := wrap64 (a - b).
Definition mul64 (a b : Z) : Z := wrap64 (a * b).

(** Conversion of a 64-bit pattern to [int64], and [int64] arithmetic. *)
Definition wrapS64 (x : Z) : Z :=
  let y := x mod two64 in if y <? two63 then y else y - two64.
Definition addS64 (a b : Z) : Z := wrapS64 (a + b).
Definition subS64 (a b : Z) : Z := wrapS64 (a - b).
Definition mulS64 (a b : Z) : Z := wrapS64 (a * b).

Definition u64 (x : Z) : Prop := 0 <= x < two64.

(** ** Data model *)

(** [windowSegment]: a single segment the active window is divided in. *)
Record windowSegment := mkSegment {
  StartTime : Z;
  Value : Z
}.

(** [loadLimiterDefaultImplTenantData]. *)
Record tenantData := mkTenant {
  WindowQueue : list windowSegment;
  WasOver : bool;
  WindowTotal : Z;
  Version : Z
}.

(** [loadLimiterEffectiveConfig].  [RequestOverheadPenalty load] stands for
    [math.Round(RequestOverheadPenaltyFactor * float64(load))]. *)
Record config := mkConfig {
  MaxLoad : Z;
  WindowSize : Z;
  WindowSegmentSize : Z;
  NumSegments : Z;
  SkipRetryInComputing : bool;
  ApplyOverstepPenalty : bool;
  AbsoluteOverstepPenalty : Z;
  OverstepPenaltySegmentSpan : Z;
  ApplyRequestOverheadPenalty : bool;
  RequestOverheadPenalty : Z -> Z;
  RequestOverheadPenaltySegmentSpan : Z;
  ApplyPenaltyCapping : bool;
  AbsoluteMaxPenaltyCap : Z
}.

(** [submitRequest], without the pointer to the tenant data, which the
    embedding threads through the operations explicitly. *)
Record submitRequest := mkRequest {
  TenantKey : string;
  RequestedLoad : Z;
  RequestedTimestamp : Z;
  RequestSegmentStartTime : Z
}.

(** [SubmitResult]; [RetryIn] is a [time.Duration] in nanoseconds. *)
Record SubmitResult := mkResult {
  Accepted : bool;
  RetryInAvailable : bool;
  RetryIn : Z
}.

Inductive error :=
  | ErrExcessiveLoad
  | ErrInconsistentQueue
  | ErrInvalidFormat
  | ErrStaleVersion.

Inductive result (A : Type) :=
  | Ok (a : A)
  | Err (e : error).
Arguments Ok {A} a.
Arguments Err {A} e.

Definition millisecond : Z := 1000000.

Definition setQueue (td : tenantData) (q : list windowSegment) (total : Z) : tenantData :=
  {| WindowQueue := q; WasOver := WasOver td; WindowTotal := total; Version := Version td |}.

Definition setWasOver (td : tenantData) (b : bool) : tenantData :=
  {| WindowQueue := WindowQueue td; WasOver := b;
     WindowTotal := WindowTotal td; Version := Version td |}.

(** [markDirty]: [req.TenantData.Version++]. *)
Definition markDirty (td : tenantData) : tenantData :=
  {| WindowQueue := WindowQueue td; WasOver := WasOver td;
     WindowTotal := WindowTotal td; Version := add64 (Version td) 1 |}.

(** ** Window engine (window.go) *)

Definition locateSegmentStartTime (cfg : config) (t : Z) : Z :=
  mul64 (t / WindowSegmentSize cfg) (WindowSegmentSize cfg).

(** First loop of [ensureLatestNSegments]: for [i] in [0, numSegments), record
    whether the segment at index [i] is missing or misplaced, and cache the
    segments met by their start time. *)
Definition scanLatestSegments (cfg : config) (latest : Z)
    (queue : list windowSegment) (numSegments : Z) : bool * gmap Z windowSegment :=
  foldl (fun (acc : bool * gmap Z windowSegment) (i : Z) =>
           let segmentStartTime := sub64 latest (mul64 i (WindowSegmentSize cfg)) in
           match queue !! Z.to_nat i with
           | None => (true, acc.2)
           | Some segmentAtIndex =>
               (acc.1 || negb (StartTime segmentAtIndex =? segmentStartTime),
                <[StartTime segmentAtIndex := segmentAtIndex]> acc.2)
           end)
        (false, ∅) (seqZ 0 numSegments).

(** Second loop: walking from the back, keep the segments older than the
    rebuilt range, stopping at the first one that is not.  The argument and
    the result are oldest first. *)
Fixpoint keepOlderSegments (rebuildStart : Z) (oldestFirst : list windowSegment)
    : list windowSegment :=
  match oldestFirst with
  | [] => []
  | oldSegment :: rest =>
      if StartTime oldSegment <? rebuildStart
      then oldSegment :: keepOlderSegments rebuildStart rest
      else []
  end.

(** Third loop, one slot: the cached segment for that start time, or a new
    empty one. *)
Definition latestSlot (cfg : config) (latest : Z)
    (validSegments : gmap Z windowSegment) (i : Z) : windowSegment :=
  let segmentStartTime := sub64 latest (mul64 i (WindowSegmentSize cfg)) in
  match validSegments !! segmentStartTime with
  | Some inValidCache => inValidCache
  | None => {| StartTime := segmentStartTime; Value := 0 |}
  end.

Definition ensureLatestNSegments (cfg : config) (req : submitRequest)
    (numSegments : Z) (td : tenantData) : tenantData :=
  let latest := RequestSegmentStartTime req in
  let queue := WindowQueue td in
  let '(rebuildQueue, validSegments) := scanLatestSegments cfg latest queue numSegments in
  if negb rebuildQueue then td
  else
    let rebuildSegmentsStartingAt :=
      sub64 latest (mul64 (sub64 numSegments 1) (WindowSegmentSize cfg)) in
    let kept := rev (keepOlderSegments rebuildSegmentsStartingAt (rev queue)) in
    let top := wrapS64 (sub64 numSegments 1) in
    setQueue td ((latestSlot cfg latest validSegments <$> seqZ 0 (top + 1)) ++ kept)
             (WindowTotal td).

(** [segmentDistribution] of [distributePenalty]: [amountPerSegment] in every
    slot, one more in the first [rem] slots. *)
Definition segmentDistribution (amountPerSegment rem numSegmentsMax : Z) : list Z :=
  (fun i => if i <? rem then add64 amountPerSegment 1 else amountPerSegment)
    <$> seqZ 0 numSegmentsMax.

(** Last loop of [distributePenalty]: [At(i).Value += sv] for every slot. *)
Fixpoint addDistribution (dist : list Z) (queue : list windowSegment)
    : option (list windowSegment) :=
  match dist, queue with
  | [], _ => Some queue
  | sv :: dist', s :: queue' =>
      queue'' ← addDistribution dist' queue';
      Some ({| StartTime := StartTime s; Value := add64 (Value s) sv |} :: queue'')
  | _ :: _, [] => None
  end.

Definition distributePenalty (cfg : config) (req : submitRequest)
    (amount numSegmentsMax : Z) (td : tenantData) : option tenantData :=
  if amount <=? 0 then Some td
  else if numSegmentsMax =? 0 then None
  else
    let amountPerSegment := amount / numSegmentsMax in
    let '(numSegmentsMax, amountPerSegment) :=
      if amountPerSegment <? 1 then (amount, 1) else (numSegmentsMax, amountPerSegment) in
    let rem := amount mod numSegmentsMax in
    let dist := segmentDistribution amountPerSegment rem numSegmentsMax in
    let td1 := ensureLatestNSegments cfg req numSegmentsMax td in
    queue ← addDistribution dist (WindowQueue td1);
    Some (setQueue td1 queue (foldl add64 (WindowTotal td1) dist)).

(** The loop of [rotateWindow] that removes the future buckets from the
    front.  Its guard is the first test of the loop body. *)
Fixpoint popFutureSegments (expected : Z) (queue : list windowSegment)
    (restore total : Z) : list windowSegment * Z * Z :=
  match queue with
  | [] => ([], restore, total)
  | frontBucket :: rest =>
      if StartTime frontBucket <=? expected then (queue, restore, total)
      else popFutureSegments expected rest
             (add64 restore (Value frontBucket)) (sub64 total (Value frontBucket))
  end.

(** The loop of [rotateWindow] that removes the obsolete segments from the
    back; the list is oldest first. *)
Fixpoint evictOldSegments (removeBefore : Z) (oldestFirst : list windowSegment)
    (total : Z) (dirty : bool) : list windowSegment * Z * bool :=
  match oldestFirst with
  | [] => ([], total, dirty)
  | removed :: rest =>
      if StartTime removed <=? removeBefore
      then evictOldSegments removeBefore rest
             (if Value removed =? 0 then total else sub64 total (Value removed)) true
      else (oldestFirst, total, dirty)
  end.

(** The test that lets [rotateWindow] return at once. *)
Definition rotationNotNeeded (cfg : config) (req : submitRequest) (td : tenantData) : bool :=
  let expected := RequestSegmentStartTime req in
  let removeBefore := sub64 expected (WindowSize cfg) in
  match WindowQueue td, last (WindowQueue td) with
  | front :: _, Some back =>
      (StartTime front =? expected) && (removeBefore <? StartTime back)
  | _, _ => false
  end.

(** The stage of [rotateWindow] that requires the front-most segment to
    exist and to have the expected start time. *)
Definition requireFrontSegment (expected : Z) (queue : list windowSegment)
    : list windowSegment * bool :=
  match queue with
  | [] => ([ {| StartTime := expected; Value := 0 |} ], true)
  | front :: _ =>
      if negb (StartTime front =? expected)
      then ({| StartTime := expected; Value := 0 |} :: queue, true)
      else (queue, false)
  end.

(** The stage of [rotateWindow] that removes the obsolete segments. *)
Definition removeObsoleteSegments (cfg : config) (req : submitRequest)
    (queue : list windowSegment) (total : Z) (dirty : bool)
    : list windowSegment * Z * bool :=
  if 1 <? Z.of_nat (length queue)
  then
    let removeBefore := sub64 (RequestedTimestamp req) (WindowSize cfg) in
    let '(kept, total', dirty') := evictOldSegments removeBefore (rev queue) total dirty in
    (rev kept, total', dirty')
  else (queue, total, dirty).

Definition rotateWindow (cfg : config) (req : submitRequest) (td : tenantData)
    : option tenantData :=
  let expected := RequestSegmentStartTime req in
  if rotationNotNeeded cfg req td then Some td
  else
    let '(q1, removedLoadToRestore, total1) :=
      popFutureSegments expected (WindowQueue td) 0 (WindowTotal td) in
    let '(q2, dirty2) := requireFrontSegment expected q1 in
    let '(q3, total3, dirty3) := removeObsoleteSegments cfg req q2 total1 dirty2 in
    let td3 := setQueue td q3 total3 in
    td4 ← (if 0 <? removedLoadToRestore
           then distributePenalty cfg req removedLoadToRestore 1 td3
           else Some td3);
    Some (if dirty3 || (0 <? removedLoadToRestore) then markDirty td4 else td4).

(** The loop of [removeFromOldestSegments]; the list is oldest first. *)
Fixpoint shaveOldestSegments (oldestFirst : list windowSegment) (amount total : Z)
    : list windowSegment * Z * Z :=
  match oldestFirst with
  | [] => ([], amount, total)
  | oldestSegment :: rest =>
      if amount <=? 0 then (oldestFirst, amount, total)
      else if amount <=? Value oldestSegment then
        let value := sub64 (Value oldestSegment) amount in
        let total' := sub64 total amount in
        if value <=? 0 then shaveOldestSegments rest 0 total'
        else ({| StartTime := StartTime oldestSegment; Value := value |} :: rest, 0, total')
      else
        shaveOldestSegments rest (sub64 amount (Value oldestSegment))
                            (sub64 total (Value oldestSegment))
  end.

Definition removeFromOldestSegments (req : submitRequest) (amount : Z)
    (td : tenantData) : tenantData :=
  let '(kept, _, total) := shaveOldestSegments (rev (WindowQueue td)) amount (WindowTotal td) in
  match rev kept with
  | [] => setQueue td [ {| StartTime := RequestSegmentStartTime req; Value := 0 |} ] total
  | queue => setQueue td queue total
  end.

Definition applyCapping (cfg : config) (req : submitRequest) (td : tenantData) : tenantData :=
  if negb (ApplyPenaltyCapping cfg) then td
  else if AbsoluteMaxPenaltyCap cfg <? WindowTotal td then
    let overMaxCap := sub64 (WindowTotal td) (AbsoluteMaxPenaltyCap cfg) in
    removeFromOldestSegments req overMaxCap td
  else td.

(** The loop of [computeRetryIn], from the oldest segment on; [toFree] is an
    [int64]. *)
Fixpoint walkOldestSegments (oldestFirst : list windowSegment)
    (toFree mostRecentSegmentRemovalTime : Z) : Z * Z :=
  match oldestFirst with
  | [] => (toFree, mostRecentSegmentRemovalTime)
  | segment :: rest =>
      if 0 <? toFree then
        walkOldestSegments rest
          (if 0 <? Value segment then subS64 toFree (wrapS64 (Value segment)) else toFree)
          (StartTime segment)
      else (toFree, mostRecentSegmentRemovalTime)
  end.

(** [computeRetryIn]: [None] is the panic, [Some (Err _)] an error result. *)
Definition computeRetryIn (cfg : config) (req : submitRequest) (td : tenantData)
    : option (result Z) :=
  if MaxLoad cfg <? RequestedLoad req then Some (Err ErrExcessiveLoad)
  else
    let toFree :=
      subS64 (addS64 (wrapS64 (RequestedLoad req)) (wrapS64 (WindowTotal td)))
             (wrapS64 (MaxLoad cfg)) in
    if toFree <=? 0 then Some (Ok 0)
    else
      let '(toFree, mostRecentSegmentRemovalTime) :=
        walkOldestSegments (rev (WindowQueue td)) toFree 0 in
      if (mostRecentSegmentRemovalTime =? 0) || (0 <? toFree)
      then Some (Err ErrInconsistentQueue)
      else
        let minSegmentAvailTime := add64 mostRecentSegmentRemovalTime (WindowSize cfg) in
        if minSegmentAvailTime <? RequestedTimestamp req then None
        else Some (Ok (mulS64 millisecond
                         (wrapS64 (sub64 minSegmentAvailTime (RequestedTimestamp req))))).

(** ** Limiter core *)

Definition probe (cfg : config) (req : submitRequest) (td : tenantData)
    : option (bool * tenantData) :=
  td' ← rotateWindow cfg req td;
  let totalWouldBe := add64 (WindowTotal td') (RequestedLoad req) in
  Some (totalWouldBe <=? MaxLoad cfg, td').

Definition acceptLoad (cfg : config) (req : submitRequest) (td : tenantData)
    : option tenantData :=
  match WindowQueue td with
  | [] => None
  | currentSegment :: rest =>
      let td1 :=
        {| WindowQueue :=
             {| StartTime := StartTime currentSegment;
                Value := add64 (Value currentSegment) (RequestedLoad req) |} :: rest;
           WasOver := false;
           WindowTotal := add64 (WindowTotal td) (RequestedLoad req);
           Version := Version td |} in
      Some (markDirty (applyCapping cfg req td1))
  end.

(** The penalty part of [rejectLoad]: the new state with the flags
    [someAdded] and [dirty]. *)
Definition rejectPenalty (cfg : config) (req : submitRequest) (td : tenantData)
    : option (tenantData * bool * bool) :=
  if negb (WasOver td) then
    td1 ← (if ApplyOverstepPenalty cfg
           then distributePenalty cfg req (AbsoluteOverstepPenalty cfg)
                  (OverstepPenaltySegmentSpan cfg) td
           else Some td);
    Some (setWasOver td1 true, ApplyOverstepPenalty cfg, true)
  else if ApplyRequestOverheadPenalty cfg then
    let penalty := RequestOverheadPenalty cfg (RequestedLoad req) in
    if 1 <=? penalty then
      td1 ← distributePenalty cfg req (wrap64 penalty)
              (RequestOverheadPenaltySegmentSpan cfg) td;
      Some (td1, true, true)
    else Some (td, false, false)
  else Some (td, false, false).

Definition rejectLoad (cfg : config) (req : submitRequest) (td : tenantData)
    : option (tenantData * SubmitResult) :=
  '(td1, someAdded, dirty) ← rejectPenalty cfg req td;
  let td2 := if (someAdded : bool) then applyCapping cfg req td1 else td1 in
  let td3 := if (dirty : bool) then markDirty td2 else td2 in
  let rejected := {| Accepted := false; RetryInAvailable := false; RetryIn := 0 |} in
  if negb (SkipRetryInComputing cfg) then
    r ← computeRetryIn cfg req td3;
    match r with
    | Ok retryIn =>
        Some (td3, {| Accepted := false; RetryInAvailable := true; RetryIn := retryIn |})
    | Err _ => Some (td3, rejected)
    end
  else Some (td3, rejected).

(** [buildLoadRequest]; [now] is [timestamp.UnixMilli()], an [int64]. *)
Definition buildLoadRequest (cfg : config) (now : Z) (tenantKey : string) (load : Z)
    : submitRequest :=
  let t := wrap64 now in
  {| TenantKey := tenantKey; RequestedLoad := load; RequestedTimestamp := t;
     RequestSegmentStartTime := locateSegmentStartTime cfg t |}.

(** The task of [Submit]: probe, then accept or reject. *)
Definition submitTask (cfg : config) (req : submitRequest) (td : tenantData)
    : option (tenantData * SubmitResult) :=
  '(ok, td1) ← probe cfg req td;
  if (ok : bool) then
    td2 ← acceptLoad cfg req td1;
    Some (td2, {| Accepted := true; RetryInAvailable := false; RetryIn := 0 |})
  else rejectLoad cfg req td1.

(** ** The limiter and its tenants *)

Record loadLimiter := mkLimiter {
  Config : config;
  TenantData : gmap string tenantData
}.

Definition newTenantData : tenantData :=
  {| WindowQueue := []; WasOver := false; WindowTotal := 0; Version := 1 |}.

(** [getTenant] creates the tenant on first reference. *)
Definition getTenant (inst : loadLimiter) (key : string) : tenantData :=
  default newTenantData (TenantData inst !! key).

Definition setTenant (inst : loadLimiter) (key : string) (td : tenantData) : loadLimiter :=
  {| Config := Config inst; TenantData := <[key := td]> (TenantData inst) |}.

(** The public operations of a limiter without a sync adapter:
    [withSyncTransaction] then runs the task and nothing else. *)
Definition Probe (inst : loadLimiter) (now : Z) (tenantKey : string) (load : Z)
    : option (bool * loadLimiter) :=
  let req := buildLoadRequest (Config inst) now tenantKey load in
  '(r, td) ← probe (Config inst) req (getTenant inst tenantKey);
  Some (r, setTenant inst tenantKey td).

Definition Submit (inst : loadLimiter) (now : Z) (tenantKey : string) (load : Z)
    : option (SubmitResult * loadLimiter) :=
  let req := buildLoadRequest (Config inst) now tenantKey load in
  '(td, res) ← submitTask (Config inst) req (getTenant inst tenantKey);
  Some (res, setTenant inst tenantKey td).



(** * Vocabulary of the properties *)

Fixpoint sumZ (l : list Z) : Z :=
  match l with
  | [] => 0
  | x :: l' => x + sumZ l'
  end.

(** The sum of the value fields of a queue. *)
Definition sumValues (q : list windowSegment) : Z := sumZ (Value <$> q).

(** The share of slot [i] when [A] is spread over [N] slots. *)
Definition penaltyShare (A N i : Z) : Z :=
  if i <? A mod N then A / N + 1 else A / N.

(** What the last loop of [distributePenalty] does to a queue that is long
    enough. *)
Definition addShares (dist : list Z) (queue : list windowSegment) : list windowSegment :=
  zip_with (fun s sv => {| StartTime := StartTime s; Value := add64 (Value s) sv |})
           (take (length dist) queue) dist
  ++ drop (length dist) queue.

(** The map [validSegments] after the segments of [l] were stored in it. *)
Definition cacheOf (l : list windowSegment) : gmap Z windowSegment :=
  foldl (fun m s => <[StartTime s := s]> m) ∅ l.

(** The start time of slot [i], counted from the newest segment. *)
Definition slotStart (cfg : config) (latest : Z) (i : Z) : Z :=
  sub64 latest (mul64 i (WindowSegmentSize cfg)).

(** ** Invariants *)

(** The effective configuration as [validateConfiguration] derives it:
    positive sizes, a window made of whole segments whose size in
    nanoseconds fits a [time.Duration], spans between one segment and the
    whole window, capping enabled with a cap not below [MaxLoad], and loads
    that fit in 63 bits. *)
Record valid_config (cfg : config) : Prop := {
  vc_max : 0 < MaxLoad cfg;
  vc_seg : 0 < WindowSegmentSize cfg;
  vc_num : 1 <= NumSegments cfg;
  vc_window : WindowSize cfg = NumSegments cfg * WindowSegmentSize cfg;
  vc_duration : WindowSize cfg * millisecond < two63;
  vc_capping : ApplyPenaltyCapping cfg = true;
  vc_cap : MaxLoad cfg <= AbsoluteMaxPenaltyCap cfg < two63;
  vc_overstep : 0 <= AbsoluteOverstepPenalty cfg < two63;
  vc_overstep_span :
    ApplyOverstepPenalty cfg = true ->
    1 <= OverstepPenaltySegmentSpan cfg <= NumSegments cfg;
  vc_overhead : forall load, RequestOverheadPenalty cfg load < two63;
  vc_overhead_span :
    ApplyRequestOverheadPenalty cfg = true ->
    1 <= RequestOverheadPenaltySegmentSpan cfg <= NumSegments cfg
}.

(** A request built by [buildLoadRequest] from a clock that is at least one
    window past the epoch, for a load that fits in 63 bits. *)
Record valid_request (cfg : config) (req : submitRequest) : Prop := {
  vr_time : WindowSize cfg <= RequestedTimestamp req < two63;
  vr_segment :
    RequestSegmentStartTime req = locateSegmentStartTime cfg (RequestedTimestamp req);
  vr_load : 0 <= RequestedLoad req < two63
}.

(** [newer a b]: segment [a] starts after segment [b]. *)
Definition newer (a b : windowSegment) : Prop := StartTime b < StartTime a.

Record segment_ok (cfg : config) (s : windowSegment) : Prop := {
  seg_start : u64 (StartTime s);
  seg_value : 0 <= Value s;
  seg_aligned : StartTime s mod WindowSegmentSize cfg = 0
}.

(** Start times strictly decrease from the front to the back of the queue
    and are multiples of the segment size. *)
Record queue_inv (cfg : config) (q : list windowSegment) : Prop := {
  q_sorted : StronglySorted newer q;
  q_ok : Forall (segment_ok cfg) q
}.

(** The window total is the sum of the values of the queue. *)
Record window_inv (cfg : config) (td : tenantData) : Prop := {
  w_queue : queue_inv cfg (WindowQueue td);
  w_total : WindowTotal td = sumValues (WindowQueue td);
  w_range : WindowTotal td < two64
}.

(** The state of a tenant between two operations. *)
Record tenant_inv (cfg : config) (td : tenantData) : Prop := {
  inv_window : window_inv cfg td;
  inv_cap : WindowTotal td <= AbsoluteMaxPenaltyCap cfg
}.

(** The state of a tenant after [rotateWindow] for the request [req]: the
    front segment is the request's segment and every segment is inside the
    window. *)
Record rotated (cfg : config) (req : submitRequest) (td : tenantData) : Prop := {
  rot_window : window_inv cfg td;
  rot_front :
    exists front rest,
      WindowQueue td = front :: rest /\ StartTime front = RequestSegmentStartTime req;
  rot_bound :
    Forall (fun s => RequestedTimestamp req < StartTime s + WindowSize cfg) (WindowQueue td)
}.

(** The walk of the retry-in computation in the words of the specification:
    going from the oldest segment to the newest, subtract each value from
    [toFree] and stop at the segment that brings it to zero or below; that
    segment is the last one that contributes. *)
Fixpoint lastContributing (oldestFirst : list windowSegment) (toFree : Z)
    : option windowSegment :=
  match oldestFirst with
  | [] => None
  | s :: rest =>
      if toFree - Value s <=? 0 then Some s
      else lastContributing rest (toFree - Value s)
  end.

(** Every tenant of the limiter satisfies the invariant, for a valid
    configuration. *)
Definition limiter_inv (inst : loadLimiter) : Prop :=
  valid_config (Config inst) /\
  forall key td, TenantData inst !! key = Some td -> tenant_inv (Config inst) td.

(** ** Configurations of the test suite *)

(** The effective configuration of the default instance of test_helper.go:
    a maximum load of 100 over 10 s in segments of 1 s, no penalty, the
    default cap of 150. *)
Definition testConfig : config :=
  {| MaxLoad := 100; WindowSize := 10000; WindowSegmentSize := 1000; NumSegments := 10;
     SkipRetryInComputing := false;
     ApplyOverstepPenalty := false; AbsoluteOverstepPenalty := 0;
     OverstepPenaltySegmentSpan := 0;
     ApplyRequestOverheadPenalty := false; RequestOverheadPenalty := fun _ => 0;
     RequestOverheadPenaltySegmentSpan := 0;
     ApplyPenaltyCapping := true; AbsoluteMaxPenaltyCap := 150 |}.

(** The same with an overstep penalty factor of 0.22 distributed over half
    of the window (window_test.go): 22 units of load over 5 segments. *)
Definition testConfigPenalty : config :=
  {| MaxLoad := 100; WindowSize := 10000; WindowSegmentSize := 1000; NumSegments := 10;
     SkipRetryInComputing := false;
     ApplyOverstepPenalty := true; AbsoluteOverstepPenalty := 22;
     OverstepPenaltySegmentSpan := 5;
     ApplyRequestOverheadPenalty := false; RequestOverheadPenalty := fun _ => 0;
     RequestOverheadPenaltySegmentSpan := 0;
     ApplyPenaltyCapping := true; AbsoluteMaxPenaltyCap := 150 |}.

(** The second member of the default composite instance: a maximum load of
    20 over 1 s in segments of 100 ms. *)
Definition testConfigBurst : config :=
  {| MaxLoad := 20; WindowSize := 1000; WindowSegmentSize := 100; NumSegments := 10;
     SkipRetryInComputing := false;
     ApplyOverstepPenalty := false; AbsoluteOverstepPenalty := 0;
     OverstepPenaltySegmentSpan := 0;
     ApplyRequestOverheadPenalty := false; RequestOverheadPenalty := fun _ => 0;
     RequestOverheadPenaltySegmentSpan := 0;
     ApplyPenaltyCapping := true; AbsoluteMaxPenaltyCap := 30 |}.

(** ** Serialization codec (synchronization.go) *)

(** Go's formatting of a [uint64] with [%d]: the decimal digits, produced from
    the least significant one; 20 digits are enough for 64 bits. *)
Definition digitChar (d : Z) : ascii := ascii_of_nat (48 + Z.to_nat d).

Fixpoint formatBits (fuel : nat) (n : Z) (acc : string) : string :=
  match fuel with
  | O => acc
  | S fuel' =>
      let acc' := String (digitChar (n mod 10)) acc in
      if n <? 10 then acc' else formatBits fuel' (n / 10) acc'
  end.

Definition formatUint (n : Z) : string := formatBits 20 n "".

(** Go's [strconv.Atoi] on a 64-bit platform: an optional sign, then at
    least one decimal digit and nothing else; [None] is the error result
    (syntax or range). *)
Definition digitValue (c : ascii) : option Z :=
  let n := Z.of_nat (nat_of_ascii c) in
  if (48 <=? n) && (n <=? 57) then Some (n - 48) else None.

Fixpoint parseDigits (s : string) (acc : Z) : option Z :=
  match s with
  | EmptyString => Some acc
  | String c rest =>
      match digitValue c with
      | Some d => parseDigits rest (acc * 10 + d)
      | None => None
      end
  end.

Definition Atoi (s : string) : option Z :=
  match s with
  | EmptyString => None
  | String c rest =>
      let '(negative, body) :=
        if Ascii.eqb c "-" then (true, rest)
        else if Ascii.eqb c "+" then (false, rest)
        else (false, s) in
      match body with
      | EmptyString => None
      | _ =>
          match parseDigits body 0 with
          | None => None
          | Some n =>
              let v := if negative then - n else n in
              if (- two63 <=? v) && (v <? two63) then Some v else None
          end
      end
  end.

(** Go's [strings.Split] for a separator of one byte. *)
Fixpoint splitOn (sep : ascii) (s : string) : list string :=
  match s with
  | EmptyString => [EmptyString]
  | String c rest =>
      if Ascii.eqb c sep then EmptyString :: splitOn sep rest
      else
        match splitOn sep rest with
        | token :: tokens => String c token :: tokens
        | [] => [String c EmptyString]
        end
  end.

(** Go's [strings.TrimRight] for a cutset of one byte. *)
Fixpoint trimRight (cut : ascii) (s : string) : string :=
  match s with
  | EmptyString => EmptyString
  | String c rest =>
      match trimRight cut rest with
      | EmptyString => if Ascii.eqb c cut then EmptyString else String c EmptyString
      | rest' => String c rest'
      end
  end.

(** One iteration of the segment loop of [serializeStatus]. *)
Definition segmentToken (seg : windowSegment) : string :=
  formatUint (StartTime seg) +:+ ":" +:+ formatUint (Value seg) +:+ ",".

Fixpoint concatTokens (queue : list windowSegment) : string :=
  match queue with
  | [] => ""
  | seg :: rest => segmentToken seg +:+ concatTokens rest
  end.

Definition serializeStatus (td : tenantData) : string :=
  let segstr :=
    match WindowQueue td with
    | [] => ""
    | _ => trimRight "," (concatTokens (WindowQueue td))
    end in
  "v1/" +:+ formatUint (Version td) +:+ "/" +:+ formatUint (WindowTotal td) +:+ "/"
  +:+ (if WasOver td then "1" else "0") +:+ "/" +:+ segstr.

(** The segment loop of [restoreSerializedStatus]: the tokens are taken from
    the last one to the first one and each segment is pushed at the front.
    The queue built so far comes back with the error. *)
Fixpoint restoreSegments (tokensFromLast : list string) (queue : list windowSegment)
    : list windowSegment * option error :=
  match tokensFromLast with
  | [] => (queue, None)
  | token :: rest =>
      match splitOn ":" token with
      | [start; value] =>
          match Atoi start with
          | None => (queue, Some ErrInvalidFormat)
          | Some remoteStartTime =>
              match Atoi value with
              | None => (queue, Some ErrInvalidFormat)
              | Some remoteValue =>
                  restoreSegments rest
                    ({| StartTime := wrap64 remoteStartTime;
                        Value := wrap64 remoteValue |} :: queue)
              end
          end
      | _ => (queue, Some ErrInvalidFormat)
      end
  end.

(** [restoreSerializedStatus]: the tenant afterwards and the error, if any.
    The queue is cleared before the segments are read, so an error in the
    segment loop leaves the segments pushed so far with the old total. *)
Definition restoreSerializedStatus (serialized : string) (td : tenantData)
    : tenantData * option error :=
  let splitted := splitOn "/" serialized in
  match splitted with
  | [] => (td, Some ErrInvalidFormat)
  | serializationVersion :: _ =>
      if negb (String.eqb serializationVersion "v1") then (td, Some ErrInvalidFormat)
      else
        match splitted with
        | [_; version; windowTotal; wasOver; segments] =>
            match Atoi version with
            | None => (td, Some ErrInvalidFormat)
            | Some versionRaw =>
                let remoteVersion := wrap64 versionRaw in
                if Version td =? remoteVersion then (td, None)
                else if remoteVersion <? Version td then (td, Some ErrStaleVersion)
                else
                  match Atoi windowTotal with
                  | None => (td, Some ErrInvalidFormat)
                  | Some windowTotalRaw =>
                      match restoreSegments (rev (splitOn "," segments)) [] with
                      | (queue, Some e) => (setQueue td queue (WindowTotal td), Some e)
                      | (queue, None) =>
                          ({| WindowQueue := queue;
                              WasOver := String.eqb wasOver "1";
                              WindowTotal := wrap64 windowTotalRaw;
                              Version := remoteVersion |}, None)
                      end
                  end
            end
        | _ => (td, Some ErrInvalidFormat)
        end
  end.

(** Whether a byte occurs in a string, and whether a string is made of
    decimal digits only. *)
Fixpoint hasChar (c : ascii) (s : string) : bool :=
  match s with
  | EmptyString => false
  | String x rest => Ascii.eqb x c || hasChar c rest
  end.

Fixpoint allDigits (s : string) : bool :=
  match s with
  | EmptyString => true
  | String x rest =>
      match digitValue x with Some _ => allDigits rest | None => false end
  end.

(** The text of one segment, and the segments joined by commas. *)
Definition segmentText (seg : windowSegment) : string :=
  formatUint (StartTime seg) +:+ ":" +:+ formatUint (Value seg).

Fixpoint joinTokens (queue : list windowSegment) : string :=
  match queue with
  | [] => ""
  | [seg] => segmentText seg
  | seg :: rest => segmentText seg +:+ "," +:+ joinTokens rest
  end.

(** A tenant whose numbers all fit in 63 bits, as [strconv.Atoi] needs. *)
Definition fits63_segment (s : windowSegment) : Prop :=
  0 <= StartTime s < two63 /\ 0 <= Value s < two63.

Definition fits63 (td : tenantData) : Prop :=
  0 <= Version td < two63 /\
  0 <= WindowTotal td < two63 /\
  Forall fits63_segment (WindowQueue td).

(** ** The sync transaction (synchronization.go) *)

(** What the sync adapter answers to [Fetch]. *)
Inductive fetchResult :=
  | FetchError
  | Fetched (status : string).

(** The part of [withSyncTransaction] that comes before the task: without an
    adapter, after a failed fetch or for an empty status nothing is restored;
    otherwise the status is restored into the tenant and the error, if any,
    is only logged. *)
Definition syncRestore (adapter : option fetchResult) (tenantKey : string)
    (inst : loadLimiter) : loadLimiter :=
  match adapter with
  | None => inst
  | Some FetchError => inst
  | Some (Fetched status) =>
      if String.eqb status "" then inst
      else
        setTenant inst tenantKey
          (fst (restoreSerializedStatus status (getTenant inst tenantKey)))
  end.






(** * Composite limiter *)

(** [probe], [rejectLoad] and [acceptLoad] on a member limiter: the tenant
    is the one of the request. *)
Definition limiterProbe (inst : loadLimiter) (req : submitRequest)
    : option (bool * loadLimiter) :=
  '(r, td) ← probe (Config inst) req (getTenant inst (TenantKey req));
  Some (r, setTenant inst (TenantKey req) td).

Definition limiterRejectLoad (inst : loadLimiter) (req : submitRequest)
    : option (SubmitResult * loadLimiter) :=
  '(td, res) ← rejectLoad (Config inst) req (getTenant inst (TenantKey req));
  Some (res, setTenant inst (TenantKey req) td).

Definition limiterAcceptLoad (inst : loadLimiter) (req : submitRequest)
    : option loadLimiter :=
  td ← acceptLoad (Config inst) req (getTenant inst (TenantKey req));
  Some (setTenant inst (TenantKey req) td).

(** The first loop of the composite [submit]: every member is probed and
    the rejecting ones are rejected at once; [allAccepted] and
    [highestWaitTime] are the loop variables. *)
Fixpoint compositeProbeLoop (now : Z) (tenantKey : string) (load : Z)
    (limiters : list loadLimiter) (allAccepted : bool) (highestWaitTime : Z)
    : option (list loadLimiter * bool * Z) :=
  match limiters with
  | [] => Some ([], allAccepted, highestWaitTime)
  | limiter :: rest =>
      let sr := buildLoadRequest (Config limiter) now tenantKey load in
      '(probeResult, limiter1) ← limiterProbe limiter sr;
      if (probeResult : bool) then
        '(rest', allAccepted', highest') ←
          compositeProbeLoop now tenantKey load rest allAccepted highestWaitTime;
        Some (limiter1 :: rest', allAccepted', highest')
      else
        '(rejectionResult, limiter2) ← limiterRejectLoad limiter1 sr;
        let highest1 :=
          if RetryInAvailable rejectionResult
             && ((highestWaitTime =? 0) || (highestWaitTime <? RetryIn rejectionResult))
          then RetryIn rejectionResult else highestWaitTime in
        '(rest', allAccepted', highest') ←
          compositeProbeLoop now tenantKey load rest false highest1;
        Some (limiter2 :: rest', allAccepted', highest')
  end.

(** The second loop: [acceptLoad] on every member, with the request built
    for it in the first loop. *)
Fixpoint compositeAcceptLoop (now : Z) (tenantKey : string) (load : Z)
    (limiters : list loadLimiter) : option (list loadLimiter) :=
  match limiters with
  | [] => Some []
  | limiter :: rest =>
      let req := buildLoadRequest (Config limiter) now tenantKey load in
      limiter' ← limiterAcceptLoad limiter req;
      rest' ← compositeAcceptLoop now tenantKey load rest;
      Some (limiter' :: rest')
  end.

(** The composite [submit] on the members [limiters]. *)
Definition compositeSubmit (limiters : list loadLimiter) (now : Z) (tenantKey : string)
    (load : Z) : option (SubmitResult * list loadLimiter) :=
  '(limiters1, allAccepted, highestWaitTime) ←
    compositeProbeLoop now tenantKey load limiters true 0;
  limiters2 ← (if (allAccepted : bool)
               then compositeAcceptLoop now tenantKey load limiters1
               else Some limiters1);
  Some ({| Accepted := allAccepted;
           RetryInAvailable := negb allAccepted && (0 <? highestWaitTime);
           RetryIn := highestWaitTime |}, limiters2).

(** ** Vocabulary for the composite limiter *)

(** What the first loop did with one member: the probe result, the member
    after the probe and, for a rejecting member, the rejection result with
    the member after it. *)
Record memberTrace := mkTrace {
  Probed : bool;
  AfterProbe : loadLimiter;
  Rejection : option (SubmitResult * loadLimiter)
}.

Definition member_trace (now : Z) (tenantKey : string) (load : Z)
    (limiter : loadLimiter) (tr : memberTrace) : Prop :=
  let req := buildLoadRequest (Config limiter) now tenantKey load in
  limiterProbe limiter req = Some (Probed tr, AfterProbe tr) /\
  if Probed tr then Rejection tr = None
  else exists rejectionResult limiter',
         limiterRejectLoad (AfterProbe tr) req = Some (rejectionResult, limiter') /\
         Rejection tr = Some (rejectionResult, limiter').

(** The member after the first loop. *)
Definition afterFirstLoop (tr : memberTrace) : loadLimiter :=
  match Rejection tr with
  | Some (_, limiter') => limiter'
  | None => AfterProbe tr
  end.

(** The retry-in hint of a member, if it rejected and computed one. *)
Definition hint (tr : memberTrace) : option Z :=
  match Rejection tr with
  | Some (rejectionResult, _) =>
      if RetryInAvailable rejectionResult then Some (RetryIn rejectionResult) else None
  | None => None
  end.

Definition maximum (l : list Z) : Z := foldr Z.max 0 l.

(** A member limiter in the regime of the invariants, for a request at time
    [now]. *)
Definition member_ok (now : Z) (limiter : loadLimiter) : Prop :=
  limiter_inv limiter /\ WindowSize (Config limiter) <= now < two63.


(** The default composite instance of test_helper.go, new and after a load
    of 15 was accepted at 1000000 ms. *)
Definition testComposite : list loadLimiter :=
  [mkLimiter testConfig ∅; mkLimiter testConfigBurst ∅].

Definition testLoadedTenant : tenantData :=
  {| WindowQueue := [ {| StartTime := 1000000; Value := 15 |} ];
     WasOver := false; WindowTotal := 15; Version := 3 |}.

Definition testCompositeLoaded : list loadLimiter :=
  [setTenant (mkLimiter testConfig ∅) "test" testLoadedTenant;
   setTenant (mkLimiter testConfigBurst ∅) "test" testLoadedTenant].

(** ** Vocabulary for the rotation *)

(** The load of the segments of a queue that are still inside the window at
    time [t]. *)
Definition liveLoad (cfg : config) (t : Z) (queue : list windowSegment) : Z :=
  sumValues (filter (fun s => t < StartTime s + WindowSize cfg) queue).

(** The queue after rotation, in one expression: the request's segment in
    front, with the load of the segments that start at or after it, then the
    older segments that are still inside the window. *)
Definition rotatedQueue (cfg : config) (req : submitRequest) (queue : list windowSegment)
    : list windowSegment :=
  {| StartTime := RequestSegmentStartTime req;
     Value := sumValues (filter (fun s => RequestSegmentStartTime req <= StartTime s) queue) |}
  :: filter (fun s => StartTime s < RequestSegmentStartTime req /\
                      RequestedTimestamp req < StartTime s + WindowSize cfg) queue.

(** ** Vocabulary for the reject path *)

(** The penalty load that a rejection charges: the overstep penalty on the
    first rejection of an overload episode, the request-overhead penalty on
    the following ones. *)
Definition rejectionPenalty (cfg : config) (req : submitRequest) (wasOver : bool) : Z :=
  if wasOver then
    if ApplyRequestOverheadPenalty cfg
       && (1 <=? RequestOverheadPenalty cfg (RequestedLoad req))
    then RequestOverheadPenalty cfg (RequestedLoad req) else 0
  else
    if ApplyOverstepPenalty cfg then AbsoluteOverstepPenalty cfg else 0.

(** A tenant of the default test limiter close to its limit: a load of 95
    in the segment that starts at 1000000 ms. *)
Definition testBusyTenant : tenantData :=
  {| WindowQueue := [ {| StartTime := 1000000; Value := 95 |} ];
     WasOver := false; WindowTotal := 95; Version := 3 |}.

Definition testBusyLimiter : loadLimiter :=
  setTenant (mkLimiter testConfig ∅) "test" testBusyTenant.

(** The same tenant in the limiter with the overstep penalty. *)
Definition testBusyPenaltyLimiter : loadLimiter :=
  setTenant (mkLimiter testConfigPenalty ∅) "test" testBusyTenant.

(** The composite [Probe]: the members are probed in order until one of
    them answers false; the members after it are not probed. *)
Fixpoint compositeProbe (limiters : list loadLimiter) (now : Z) (tenantKey : string)
    (load : Z) : option (bool * list loadLimiter) :=
  match limiters with
  | [] => Some (true, [])
  | limiter :: rest =>
      let req := buildLoadRequest (Config limiter) now tenantKey load in
      '(r, limiter1) ← limiterProbe limiter req;
      if (r : bool) then
        '(outResult, rest') ← compositeProbe rest now tenantKey load;
        Some (outResult, limiter1 :: rest')
      else Some (false, limiter1 :: rest)
  end.

(** The members after a composite probe, in terms of their traces: probed
    up to the first one that answers false, untouched after it. *)
Fixpoint afterCompositeProbe (limiters : list loadLimiter) (traces : list memberTrace)
    : list loadLimiter :=
  match limiters, traces with
  | _ :: rest, tr :: traces' =>
      AfterProbe tr :: (if Probed tr then afterCompositeProbe rest traces' else rest)
  | _, _ => []
  end.

(** ** The sync transaction of the composite limiter *)

(** The status that the composite writes: every member's status followed by
    a semicolon, the trailing semicolons trimmed when there is a member. *)
Fixpoint concatStatuses (limiters : list loadLimiter) (tenantKey : string) : string :=
  match limiters with
  | [] => ""
  | limiter :: rest =>
      (serializeStatus (getTenant limiter tenantKey) +:+ ";") +:+ concatStatuses rest tenantKey
  end.

Definition compositeSerializeStatus (limiters : list loadLimiter) (tenantKey : string)
    : string :=
  match limiters with
  | [] => concatStatuses limiters tenantKey
  | _ => trimRight ";" (concatStatuses limiters tenantKey)
  end.

(** The loop that restores the status of every member from its token. *)
Fixpoint restoreMembers (limiters : list loadLimiter) (statusSplit : list string)
    (tenantKey : string) : list loadLimiter :=
  match limiters, statusSplit with
  | limiter :: rest, status :: statuses =>
      setTenant limiter tenantKey
        (restoreSerializedStatus status (getTenant limiter tenantKey)).1
      :: restoreMembers rest statuses tenantKey
  | _, _ => limiters
  end.

(** The part of the composite [withSyncTransaction] that comes before the
    task: the fetched status is split on semicolons and restored member by
    member when the number of tokens is the number of members; errors are
    only logged. *)
Definition compositeSyncRestore (adapter : option fetchResult) (tenantKey : string)
    (limiters : list loadLimiter) : list loadLimiter :=
  match adapter with
  | None => limiters
  | Some FetchError => limiters
  | Some (Fetched status) =>
      if String.eqb status "" then limiters
      else
        let statusSplit := splitOn ";" status in
        if negb (length statusSplit =? length limiters)%nat then limiters
        else restoreMembers limiters statusSplit tenantKey
  end.

(** A list of texts joined by a separator. *)
Fixpoint joinWith (sep : ascii) (texts : list string) : string :=
  match texts with
  | [] => ""
  | [text] => text
  | text :: rest => text +:+ String sep (joinWith sep rest)
  end.

(** * [SubmitUntil] *)

(** The errors of [submitUntil]: a failed [Submit], wrapped; a rejection
    that cannot be retried; a timeout. *)
Inductive submitUntilError :=
  | ErrSubmitting
  | LoadRequestRejected (reason : string)
  | LoadRequestTimeout (attemptsNumber waitedFor : Z).

Record SubmitUntilResult := mkUntilResult {
  AttemptsNumber : Z;
  WaitedFor : Z;
  Error : option submitUntilError
}.

(** [TimeFunc] and [SleepFunc] of an instance act on a clock outside of it:
    [E] is the state of that clock.  A [time.Time] is its Unix time in
    nanoseconds, a [time.Duration] a number of nanoseconds. *)
Record clock (E : Type) := mkClock {
  TimeFunc : E -> Z * E;
  SleepFunc : Z -> E -> E
}.
Arguments TimeFunc {E} c e.
Arguments SleepFunc {E} c d e.

(** [t.UnixMilli()]. *)
Definition UnixMilli (t : Z) : Z := t / millisecond.

(** [Submit] with the instance's clock: the time is read first. *)
Definition SubmitNow {E : Type} (clk : clock E) (inst : loadLimiter) (env : E)
    (tenantKey : string) (load : Z) : option (SubmitResult * loadLimiter * E) :=
  let '(t, env1) := TimeFunc clk env in
  '(res, inst1) ← Submit inst (UnixMilli t) tenantKey load;
  Some (res, inst1, env1).

(** The loop of [submitUntil]; [fuel] bounds the number of attempts and
    [None] is a loop that has not ended within it (or a panic of
    [Submit]). *)
Fixpoint submitUntilLoop {E : Type} (clk : clock E) (fuel : nat) (inst : loadLimiter)
    (env : E) (tenantKey : string) (load timeoutAt : Z) (out : SubmitUntilResult)
    : option (SubmitUntilResult * loadLimiter * E) :=
  match fuel with
  | O => None
  | S fuel' =>
      let out1 :=
        {| AttemptsNumber := add64 (AttemptsNumber out) 1;
           WaitedFor := WaitedFor out; Error := Error out |} in
      '(submitResult, inst1, env1) ← SubmitNow clk inst env tenantKey load;
      if Accepted submitResult then Some (out1, inst1, env1)
      else if SkipRetryInComputing (Config inst1) then
        Some ({| AttemptsNumber := AttemptsNumber out1; WaitedFor := WaitedFor out1;
                 Error := Some (LoadRequestRejected "retry not supported") |}, inst1, env1)
      else if negb (RetryInAvailable submitResult) || (RetryIn submitResult <=? 0) then
        Some ({| AttemptsNumber := AttemptsNumber out1; WaitedFor := WaitedFor out1;
                 Error := Some (LoadRequestRejected "excessive requested load") |},
              inst1, env1)
      else
        let '(t, env2) := TimeFunc clk env1 in
        if timeoutAt <? t + RetryIn submitResult then
          Some ({| AttemptsNumber := AttemptsNumber out1; WaitedFor := WaitedFor out1;
                   Error := Some (LoadRequestTimeout (AttemptsNumber out1) (WaitedFor out1)) |},
                inst1, env2)
        else
          let waitFor := RetryIn submitResult in
          let env3 := SleepFunc clk waitFor env2 in
          submitUntilLoop clk fuel' inst1 env3 tenantKey load timeoutAt
            {| AttemptsNumber := AttemptsNumber out1;
               WaitedFor := addS64 (WaitedFor out1) waitFor; Error := Error out1 |}
  end.

Definition submitUntil {E : Type} (clk : clock E) (fuel : nat) (inst : loadLimiter)
    (env : E) (tenantKey : string) (load timeout : Z)
    : option (SubmitUntilResult * loadLimiter * E) :=
  let '(t, env1) := TimeFunc clk env in
  let out := {| AttemptsNumber := 0; WaitedFor := 0; Error := None |} in
  if timeout <? 0 then
    Some ({| AttemptsNumber := 0; WaitedFor := 0;
             Error := Some (LoadRequestRejected "invalid timeout") |}, inst, env1)
  else
    let timeoutAt := t + timeout in
    submitUntilLoop clk fuel inst env1 tenantKey load timeoutAt out.

(** The clock of the test instances (test_helper.go): [CurrentTime] is a
    [uint64] of milliseconds that only [sleepFunc] (and the tests) move. *)
Definition testClock : clock Z :=
  {| TimeFunc := fun CurrentTime =>
       (let c := wrapS64 CurrentTime in
        Z.quot c 1000 * 1000000000 + Z.rem c 1000 * 1000000, CurrentTime);
     SleepFunc := fun d CurrentTime =>
       add64 CurrentTime (wrap64 (Z.quot d 1000000)) |}.

(** ** The factory (factory.go) *)

(** [float64]: the binary64 numbers with the arithmetic of the hardware,
    rounding to the nearest value, ties to even. *)
Definition float64 : Set := PrimFloat.float.

(** [float64(n)] for an unsigned integer: the nearest [float64]. *)
Definition float64_of_uint64 (n : Z) : float64 :=
  FloatOps.SF2Prim (SpecFloat.binary_normalize FloatOps.prec FloatOps.emax n 0 false).

(** The integer left of a finite float once its fraction is discarded;
    none for an infinity or a NaN. *)
Definition truncate (x : float64) : option Z :=
  match FloatOps.Prim2SF x with
  | SpecFloat.S754_zero _ => Some 0
  | SpecFloat.S754_finite s m e =>
      let v := if 0 <=? e then Z.shiftl (Z.pos m) e else Z.shiftr (Z.pos m) (- e) in
      Some (if s then - v else v)
  | _ => None
  end.

(** [uint64(x)]: the fraction is discarded.  Go leaves the result to the
    implementation when the value is not in the range of [uint64]; the
    embedding gives no result there. *)
Definition uint64_of_float64 (x : float64) : option Z :=
  v ← truncate x;
  if (0 <=? v) && (v <? two64) then Some v else None.

(** [math.Round]: the nearest integer, halves away from zero; zeros,
    infinities and NaN are returned as they are. *)
Definition Round (x : float64) : float64 :=
  match FloatOps.Prim2SF x with
  | SpecFloat.S754_finite s m e =>
      if 0 <=? e then x
      else
        let q := Z.shiftr (Z.pos m) (- e) in
        let half := Z.land (Z.shiftr (Z.pos m) (- e - 1)) 1 in
        let r := q + half in
        FloatOps.SF2Prim
          (SpecFloat.binary_normalize FloatOps.prec FloatOps.emax
             (if s then - r else r) 0 s)
  | _ => x
  end.

(** [math.Round(factor * float64(load))] as an integer, the penalty of
    [rejectLoad] for a request over the limit.  A NaN, which is not above
    [1.0], counts as no penalty; an infinite penalty is kept beyond the
    range of [uint64], where the conversion is left to the implementation. *)
Definition requestOverheadPenalty (factor : float64) (load : Z) : Z :=
  let penalty := Round (PrimFloat.mul factor (float64_of_uint64 load)) in
  match truncate penalty with
  | Some v => v
  | None => if PrimFloat.leb PrimFloat.one penalty then 2 ^ 1024 else 0
  end.

(** [Config], the configuration the user provides; the durations are in
    nanoseconds.  The clock, the logger and the synchronization adapter play
    no part in the validation. *)
Module UserConfig.
Record t := mk {
  MaxLoad : Z;
  WindowSize : Z;
  WindowSegmentSize : Z;
  OverstepPenaltyFactor : float64;
  OverstepPenaltyDistributionFactor : float64;
  RequestOverheadPenaltyFactor : float64;
  RequestOverheadPenaltyDistributionFactor : float64;
  MaxPenaltyCapFactor : float64;
  SkipRetryInComputing : bool
}.
End UserConfig.

Definition defaultMaxPenaltyCapFactor : float64 :=
  PrimFloat.div PrimFloat.one PrimFloat.two.

(** The errors of [validateConfiguration] and [pickSegmentSize], named after
    the field or the condition their message reports. *)
Inductive configError :=
  | ErrMaxLoad
  | ErrWindowSize
  | ErrMaxPenaltyCapFactor
  | ErrNegativeDuration
  | ErrWindowNotDivisible
  | ErrWindowTooSmall
  | ErrWindowSegmentSizeTooSmall
  | ErrWindowSegmentSizeTooLarge
  | ErrWindowNotMultiple
  | ErrOverstepPenaltyFactor
  | ErrOverstepPenaltyDistributionFactor
  | ErrRequestOverheadPenaltyFactor
  | ErrRequestOverheadPenaltyDistributionFactor.

(** [time.Duration.Milliseconds]: the integer division of [int64] truncates. *)
Definition Milliseconds (d : Z) : Z := Z.quot d millisecond.

Definition pickSegmentSize (windowSizeMillis : Z) : configError + Z :=
  if windowSizeMillis <=? 0 then inl ErrNegativeDuration
  else if negb (Z.rem windowSizeMillis 20 =? 0) then inl ErrWindowNotDivisible
  else
    let res := Z.quot windowSizeMillis 20 in
    if res <? 1 then inl ErrWindowTooSmall
    else inr (mulS64 res millisecond).

(** The outcome of the factory: the value built, an error, a conversion of
    a float outside the range of [uint64] (the configuration would hold a
    value the language does not define), or the panic of an integer division
    by zero. *)
Inductive built (A : Type) :=
  | Built (a : A)
  | Rejected (e : configError)
  | Unspecified
  | DivisionByZero.
Arguments Built {A} a.
Arguments Rejected {A} e.
Arguments Unspecified {A}.
Arguments DivisionByZero {A}.

(** The number of segments a penalty spans: one unless a distribution factor
    is given, then that share of the segments, rounded, and at least one. *)
Definition penaltySegmentSpan (distributionFactor : float64) (numSegments : Z)
    : option Z :=
  if PrimFloat.ltb PrimFloat.zero distributionFactor then
    span ← uint64_of_float64
              (Round (PrimFloat.mul distributionFactor (float64_of_uint64 numSegments)));
    Some (if span <=? 0 then 1 else span)
  else Some 1.

(** The segment size of [validateConfiguration] in milliseconds: picked
    automatically when the configuration gives none. *)
Definition windowSegmentSizeMillis (c : UserConfig.t) (windowSizeMillis : Z)
    : configError + Z :=
  if UserConfig.WindowSegmentSize c =? 0 then
    match pickSegmentSize windowSizeMillis with
    | inl err => inl err
    | inr autoSegmentSize => inr (Milliseconds autoSegmentSize)
    end
  else
    let segmentSizeMillis := Milliseconds (UserConfig.WindowSegmentSize c) in
    if segmentSizeMillis <=? 0 then inl ErrWindowSegmentSizeTooSmall
    else inr segmentSizeMillis.

(** An error found by a later check is returned whatever an earlier
    conversion gave, so the conversions are collected and looked at once
    every check has passed. *)
Definition validateConfiguration (c : UserConfig.t) : built config :=
  if UserConfig.MaxLoad c <=? 0 then Rejected ErrMaxLoad else
  let windowSizeMillis := Milliseconds (UserConfig.WindowSize c) in
  if windowSizeMillis <=? 0 then Rejected ErrWindowSize else
  if PrimFloat.ltb (UserConfig.MaxPenaltyCapFactor c) PrimFloat.zero
  then Rejected ErrMaxPenaltyCapFactor else
  let absoluteMaxPenaltyCap :=
    uint64_of_float64
      (PrimFloat.mul (float64_of_uint64 (UserConfig.MaxLoad c))
         (PrimFloat.add PrimFloat.one
            (if PrimFloat.ltb PrimFloat.zero (UserConfig.MaxPenaltyCapFactor c)
             then UserConfig.MaxPenaltyCapFactor c
             else defaultMaxPenaltyCapFactor))) in
  match windowSegmentSizeMillis c windowSizeMillis with
  | inl err => Rejected err
  | inr segmentSizeMillis =>
    if windowSizeMillis <? segmentSizeMillis
    then Rejected ErrWindowSegmentSizeTooLarge else
    if segmentSizeMillis =? 0 then DivisionByZero else
    if 0 <? Z.rem windowSizeMillis segmentSizeMillis
    then Rejected ErrWindowNotMultiple else
    let numSegments := wrap64 (Z.quot windowSizeMillis segmentSizeMillis) in
    if PrimFloat.ltb (UserConfig.OverstepPenaltyFactor c) PrimFloat.zero
    then Rejected ErrOverstepPenaltyFactor else
    if PrimFloat.ltb (UserConfig.OverstepPenaltyDistributionFactor c) PrimFloat.zero
       || PrimFloat.ltb PrimFloat.one (UserConfig.OverstepPenaltyDistributionFactor c)
    then Rejected ErrOverstepPenaltyDistributionFactor else
    let applyOverstepPenalty :=
      PrimFloat.ltb PrimFloat.zero (UserConfig.OverstepPenaltyFactor c) in
    let absoluteOverstepPenalty :=
      if applyOverstepPenalty
      then uint64_of_float64
             (PrimFloat.mul (float64_of_uint64 (UserConfig.MaxLoad c))
                (UserConfig.OverstepPenaltyFactor c))
      else Some 0 in
    let overstepPenaltySegmentSpan :=
      if applyOverstepPenalty
      then penaltySegmentSpan (UserConfig.OverstepPenaltyDistributionFactor c) numSegments
      else Some 0 in
    if PrimFloat.ltb (UserConfig.RequestOverheadPenaltyFactor c) PrimFloat.zero
    then Rejected ErrRequestOverheadPenaltyFactor else
    if PrimFloat.ltb (UserConfig.RequestOverheadPenaltyDistributionFactor c) PrimFloat.zero
       || PrimFloat.ltb PrimFloat.one
            (UserConfig.RequestOverheadPenaltyDistributionFactor c)
    then Rejected ErrRequestOverheadPenaltyDistributionFactor else
    let applyRequestOverheadPenalty :=
      PrimFloat.ltb PrimFloat.zero (UserConfig.RequestOverheadPenaltyFactor c) in
    let requestOverheadPenaltySegmentSpan :=
      if applyRequestOverheadPenalty
      then penaltySegmentSpan
             (UserConfig.RequestOverheadPenaltyDistributionFactor c) numSegments
      else Some 0 in
    match absoluteMaxPenaltyCap, absoluteOverstepPenalty,
          overstepPenaltySegmentSpan, requestOverheadPenaltySegmentSpan with
    | Some cap, Some penalty, Some span, Some overheadSpan =>
        Built
          {| MaxLoad := UserConfig.MaxLoad c;
             WindowSize := wrap64 windowSizeMillis;
             WindowSegmentSize := wrap64 segmentSizeMillis;
             NumSegments := numSegments;
             SkipRetryInComputing := UserConfig.SkipRetryInComputing c;
             ApplyOverstepPenalty := applyOverstepPenalty;
             AbsoluteOverstepPenalty := penalty;
             OverstepPenaltySegmentSpan := span;
             ApplyRequestOverheadPenalty := applyRequestOverheadPenalty;
             RequestOverheadPenalty :=
               requestOverheadPenalty
                 (if applyRequestOverheadPenalty
                  then UserConfig.RequestOverheadPenaltyFactor c
                  else PrimFloat.zero);
             RequestOverheadPenaltySegmentSpan := overheadSpan;
             ApplyPenaltyCapping := true;
             AbsoluteMaxPenaltyCap := cap |}
    | _, _, _, _ => Unspecified
    end
  end.


(** A decimal literal with two digits, [n / 100] rounded once as the
    compiler rounds the literal. *)
Definition hundredths (n : Z) : float64 :=
  PrimFloat.div (float64_of_uint64 n) (float64_of_uint64 100).

(** The configuration of the default instance of test_helper.go with the
    overstep penalty of window_test.go: a factor of 0.22 distributed over
    0.5 of the window. *)
Definition testUserConfig : UserConfig.t :=
  {| UserConfig.MaxLoad := 100;
     UserConfig.WindowSize := 10 * 1000000000;
     UserConfig.WindowSegmentSize := 1000000000;
     UserConfig.OverstepPenaltyFactor := hundredths 22;
     UserConfig.OverstepPenaltyDistributionFactor := hundredths 50;
     UserConfig.RequestOverheadPenaltyFactor := PrimFloat.zero;
     UserConfig.RequestOverheadPenaltyDistributionFactor := PrimFloat.zero;
     UserConfig.MaxPenaltyCapFactor := PrimFloat.zero;
     UserConfig.SkipRetryInComputing := false |}.

(** The effective configuration [validateConfiguration] derives from it:
    [testConfigPenalty] with the request-overhead penalty of a zero factor. *)
Definition testValidatedConfig : config :=
  {| MaxLoad := 100; WindowSize := 10000; WindowSegmentSize := 1000; NumSegments := 10;
     SkipRetryInComputing := false;
     ApplyOverstepPenalty := true; AbsoluteOverstepPenalty := 22;
     OverstepPenaltySegmentSpan := 5;
     ApplyRequestOverheadPenalty := false;
     RequestOverheadPenalty := requestOverheadPenalty PrimFloat.zero;
     RequestOverheadPenaltySegmentSpan := 0;
     ApplyPenaltyCapping := true; AbsoluteMaxPenaltyCap := 150 |}.

(** The same configuration with a window of 60 ms and no segment size, for
    [pickSegmentSize] to choose one. *)
Definition testUserConfigAuto : UserConfig.t :=
  {| UserConfig.MaxLoad := 100;
     UserConfig.WindowSize := 60 * 1000000;
     UserConfig.WindowSegmentSize := 0;
     UserConfig.OverstepPenaltyFactor := PrimFloat.zero;
     UserConfig.OverstepPenaltyDistributionFactor := PrimFloat.zero;
     UserConfig.RequestOverheadPenaltyFactor := PrimFloat.zero;
     UserConfig.RequestOverheadPenaltyDistributionFactor := PrimFloat.zero;
     UserConfig.MaxPenaltyCapFactor := PrimFloat.zero;
     UserConfig.SkipRetryInComputing := false |}.

(** [time.Now] and [time.Sleep], the clock [New] installs when the
    configuration gives none, idealised: the state is the time in
    nanoseconds, reading it takes no time and a sleep lasts its duration. *)
Definition systemClock : clock Z :=
  {| TimeFunc := fun t => (t, t); SleepFunc := fun d t => t + d |}.

(** ** Limiters that share a remote store *)

(** The store behind the sync adapter of the tests (synchronization_test.go)
    is a map from tenant keys to statuses.  [Lock] and [Unlock] succeed,
    [Write] stores the status, and [Fetch] answers the status of the key, the
    empty string when there is none. *)
Definition storeFetch (store : gmap string string) (tenantKey : string) : string :=
  default "" (store !! tenantKey).

(** [withSyncTransaction] over that adapter.  An empty tenant key is an
    error, and the task does not run; otherwise the status fetched is
    restored, the task runs, and the status of the tenant is written back
    when the transaction is not read-only and the version has grown. *)
Definition withStoreTransaction {A : Type} (readOnly : bool) (tenantKey : string)
    (task : loadLimiter -> option (A * loadLimiter)) (inst : loadLimiter)
    (store : gmap string string) : option (option A * loadLimiter * gmap string string) :=
  if String.eqb tenantKey "" then Some (None, inst, store)
  else
    let inst1 := syncRestore (Some (Fetched (storeFetch store tenantKey))) tenantKey inst in
    let versionBefore := Version (getTenant inst1 tenantKey) in
    '(a, inst2) ← task inst1;
    let tenant := getTenant inst2 tenantKey in
    let changed := versionBefore <? Version tenant in
    Some (Some a, inst2,
          if negb readOnly && changed
          then <[tenantKey := serializeStatus tenant]> store
          else store).

(** [Probe] and [Submit] of a limiter with that adapter. *)
Definition SyncProbe (inst : loadLimiter) (store : gmap string string) (now : Z)
    (tenantKey : string) (load : Z) : option (option bool * loadLimiter * gmap string string) :=
  withStoreTransaction true tenantKey (fun inst1 => Probe inst1 now tenantKey load) inst store.

Definition SyncSubmit (inst : loadLimiter) (store : gmap string string) (now : Z)
    (tenantKey : string) (load : Z)
    : option (option SubmitResult * loadLimiter * gmap string string) :=
  withStoreTransaction false tenantKey (fun inst1 => Submit inst1 now tenantKey load) inst store.

(** * Properties *)

(** ** Machine arithmetic *)

Ltac word :=
  unfold add64, sub64, mul64, wrap64, addS64, subS64, mulS64, wrapS64, u64,
    two64, two63, millisecond in *;
  repeat match goal with
         | |- context [if ?b <? ?c then _ else _] => destruct (Z.ltb_spec b c)
         | H : context [if ?b <? ?c then _ else _] |- _ => destruct (Z.ltb_spec b c)
         end;
  Z.div_mod_to_equations; lia.

Lemma wrap64_u64 (x : Z) : u64 (wrap64 x).
Proof. word. Qed.

Lemma wrap64_id (x : Z) : u64 x -> wrap64 x = x.
Proof. intros; word. Qed.

Lemma add64_u64 (a b : Z) : u64 (add64 a b).
Proof. apply wrap64_u64. Qed.

Lemma sub64_u64 (a b : Z) : u64 (sub64 a b).
Proof. apply wrap64_u64. Qed.

Lemma add64_exact (a b : Z) : 0 <= a + b < two64 -> add64 a b = a + b.
Proof. intros; word. Qed.

Lemma sub64_exact (a b : Z) : 0 <= a - b < two64 -> sub64 a b = a - b.
Proof. intros; word. Qed.

Lemma mul64_exact (a b : Z) : 0 <= a * b < two64 -> mul64 a b = a * b.
Proof. intros H. unfold mul64, wrap64. apply Z.mod_small. exact H. Qed.

Lemma wrap64_add_l (a b : Z) : wrap64 (wrap64 a + b) = wrap64 (a + b).
Proof. unfold wrap64. apply Zplus_mod_idemp_l. Qed.

Lemma wrap64_add_r (a b : Z) : wrap64 (a + wrap64 b) = wrap64 (a + b).
Proof. unfold wrap64. apply Zplus_mod_idemp_r. Qed.


Lemma wrap64_sub_r (a b : Z) : wrap64 (a - wrap64 b) = wrap64 (a - b).
Proof. unfold wrap64. apply Zminus_mod_idemp_r. Qed.

Lemma wrap64_wrap64 (a : Z) : wrap64 (wrap64 a) = wrap64 a.
Proof. unfold wrap64. apply Z.mod_mod. discriminate. Qed.


Lemma wrapS64_small (x : Z) : 0 <= x < two63 -> wrapS64 x = x.
Proof. intros; word. Qed.

Lemma wrapS64_range (x : Z) : - two63 <= x < two63 -> wrapS64 x = x.
Proof. intros; word. Qed.

(** ** Sums *)



Lemma sumZ_app (l k : list Z) : sumZ (l ++ k) = sumZ l + sumZ k.
Proof. induction l as [|x l IH]; simpl; lia. Qed.

Lemma sumValues_app (l k : list windowSegment) :
  sumValues (l ++ k) = sumValues l + sumValues k.
Proof. unfold sumValues. rewrite fmap_app. apply sumZ_app. Qed.

Lemma sumValues_cons (s : windowSegment) (l : list windowSegment) :
  sumValues (s :: l) = Value s + sumValues l.
Proof. reflexivity. Qed.

Lemma sumValues_rev (l : list windowSegment) : sumValues (rev l) = sumValues l.
Proof.
  induction l as [|s l IH]; [reflexivity|].
  simpl. rewrite sumValues_app, IH, !sumValues_cons. unfold sumValues. simpl. lia.
Qed.

Lemma foldl_add64 (t : Z) (l : list Z) :
  foldl add64 (wrap64 t) l = wrap64 (t + sumZ l).
Proof.
  revert t. induction l as [|x l IH]; intros t; simpl.
  - f_equal. lia.
  - unfold add64 at 2. rewrite wrap64_add_l, IH. f_equal. lia.
Qed.

(** ** Penalty distribution *)


Lemma sum_shares (b r : Z) (n : nat) :
  0 <= r ->
  sumZ ((fun i => if i <? r then b + 1 else b) <$> seqZ 0 (Z.of_nat n))
  = b * Z.of_nat n + Z.min r (Z.of_nat n).
Proof.
  intros Hr. induction n as [|n IH].
  - simpl. lia.
  - rewrite seqZ_S, fmap_app, sumZ_app, IH. cbn [fmap list_fmap sumZ].
    rewrite Nat2Z.inj_succ. destruct (Z.ltb_spec (0 + Z.of_nat n) r); lia.
Qed.

Lemma sum_penaltyShare (A N : Z) :
  0 <= A -> 1 <= N -> sumZ (penaltyShare A N <$> seqZ 0 N) = A.
Proof.
  intros HA HN.
  change (penaltyShare A N) with (fun i => if i <? A mod N then A / N + 1 else A / N).
  replace (seqZ 0 N) with (seqZ 0 (Z.of_nat (Z.to_nat N))) by (f_equal; lia).
  rewrite sum_shares by (apply Z.mod_pos_bound; lia).
  rewrite Z2Nat.id by lia.
  pose proof (Z.mod_pos_bound A N ltac:(lia)).
  pose proof (Z.div_mod A N ltac:(lia)). nia.
Qed.

Lemma segmentDistribution_shares (A N : Z) :
  1 <= A < two64 -> 1 <= N -> A / N >= 1 ->
  segmentDistribution (A / N) (A mod N) N = penaltyShare A N <$> seqZ 0 N.
Proof.
  intros HA HN Hdiv. unfold segmentDistribution, penaltyShare.
  apply list_fmap_ext. intros i x Hx.
  destruct (Z.ltb_spec x (A mod N)) as [Hlt|]; [|reflexivity].
  apply add64_exact.
  apply lookup_seqZ in Hx as [-> _].
  pose proof (Z.mod_pos_bound A N ltac:(lia)).
  pose proof (Z.div_mod A N ltac:(lia)).
  assert (A / N + 1 <= A) by nia.
  unfold two64 in *. lia.
Qed.


Lemma addDistribution_addShares (dist : list Z) (queue : list windowSegment) :
  (length dist <= length queue)%nat ->
  addDistribution dist queue = Some (addShares dist queue).
Proof.
  revert queue. induction dist as [|sv dist IH]; intros queue Hlen.
  - unfold addShares. simpl. now rewrite drop_0.
  - destruct queue as [|s queue]; simpl in Hlen; [lia|].
    simpl. rewrite IH by lia. reflexivity.
Qed.

Lemma addDistribution_short (dist : list Z) (queue : list windowSegment) :
  (length queue < length dist)%nat -> addDistribution dist queue = None.
Proof.
  revert queue. induction dist as [|sv dist IH]; intros queue Hlen; simpl in *; [lia|].
  destruct queue as [|s queue]; [reflexivity|].
  simpl in Hlen. rewrite IH by lia. reflexivity.
Qed.

Lemma length_addShares (dist : list Z) (queue : list windowSegment) :
  (length dist <= length queue)%nat -> length (addShares dist queue) = length queue.
Proof.
  intros Hlen. unfold addShares.
  rewrite length_app, length_zip_with, length_take, length_drop. lia.
Qed.

Lemma lookup_addShares (dist : list Z) (queue : list windowSegment) (i : nat) (s : windowSegment) :
  (length dist <= length queue)%nat ->
  queue !! i = Some s ->
  addShares dist queue !! i =
    Some {| StartTime := StartTime s;
            Value := match dist !! i with
                     | Some sv => add64 (Value s) sv
                     | None => Value s
                     end |}.
Proof.
  intros Hlen Hs. unfold addShares.
  destruct (dist !! i) as [sv|] eqn:Hd.
  - pose proof (lookup_lt_Some _ _ _ Hd) as Hi.
    rewrite lookup_app_l by (rewrite length_zip_with, length_take; lia).
    rewrite lookup_zip_with, lookup_take_lt, Hs by lia. simpl. now rewrite Hd.
  - apply lookup_ge_None_1 in Hd.
    rewrite lookup_app_r by (rewrite length_zip_with, length_take; lia).
    rewrite length_zip_with, length_take, lookup_drop.
    match goal with |- queue !! ?k = _ => replace k with i by lia end.
    rewrite Hs. now destruct s.
Qed.

Lemma sumValues_addShares (dist : list Z) (queue : list windowSegment) :
  (length dist <= length queue)%nat ->
  wrap64 (sumValues (addShares dist queue)) = wrap64 (sumValues queue + sumZ dist).
Proof.
  revert queue. induction dist as [|sv dist IH]; intros queue Hlen.
  - unfold addShares. simpl. rewrite drop_0. f_equal. lia.
  - destruct queue as [|s queue]; simpl in Hlen; [lia|].
    change (addShares (sv :: dist) (s :: queue))
      with ({| StartTime := StartTime s; Value := add64 (Value s) sv |} :: addShares dist queue).
    rewrite !sumValues_cons. simpl.
    unfold add64. rewrite wrap64_add_l, <- wrap64_add_r, IH by lia.
    rewrite wrap64_add_r. f_equal. lia.
Qed.

(** ** The cache and the flag of [ensureLatestNSegments] *)


Lemma cacheOf_snoc (l : list windowSegment) (s : windowSegment) :
  cacheOf (l ++ [s]) = <[StartTime s := s]> (cacheOf l).
Proof. unfold cacheOf. now rewrite foldl_app. Qed.

Lemma cacheOf_lookup_Some (l : list windowSegment) (k : Z) (s : windowSegment) :
  cacheOf l !! k = Some s -> s ∈ l /\ StartTime s = k.
Proof.
  induction l as [|x l IH] using rev_ind; intros H.
  - unfold cacheOf in H. simpl in H. now rewrite lookup_empty in H.
  - rewrite cacheOf_snoc in H.
    destruct (decide (StartTime x = k)) as [<-|Hne].
    + rewrite lookup_insert_eq in H. inversion H; subst.
      split; [|reflexivity]. apply elem_of_app. right. now apply list_elem_of_singleton.
    + rewrite lookup_insert_ne in H by exact Hne.
      destruct (IH H) as [Hin Hk]. split; [|exact Hk].
      apply elem_of_app. now left.
Qed.

Lemma cacheOf_lookup_None (l : list windowSegment) (k : Z) :
  (forall s, s ∈ l -> StartTime s <> k) -> cacheOf l !! k = None.
Proof.
  intros H. destruct (cacheOf l !! k) as [s|] eqn:E; [|reflexivity].
  apply cacheOf_lookup_Some in E as [Hin Hk]. now apply H in Hin.
Qed.

Lemma cacheOf_lookup_NoDup (l : list windowSegment) (s : windowSegment) :
  NoDup (StartTime <$> l) -> s ∈ l -> cacheOf l !! StartTime s = Some s.
Proof.
  induction l as [|x l IH] using rev_ind; intros Hnd Hin.
  - now apply elem_of_nil in Hin.
  - rewrite cacheOf_snoc. rewrite fmap_app in Hnd.
    apply NoDup_app in Hnd as (Hnd & Hdisj & _).
    apply elem_of_app in Hin as [Hin|Hin].
    + rewrite lookup_insert_ne; [now apply IH|].
      intros Heq. apply (Hdisj (StartTime s)).
      * apply list_elem_of_fmap. now exists s.
      * rewrite <- Heq. simpl. now apply list_elem_of_singleton.
    + apply list_elem_of_singleton in Hin as ->. apply lookup_insert_eq.
Qed.

Section Scan.
Context (cfg : config) (latest : Z) (queue : list windowSegment).

Lemma scan_succ (n : nat) :
  scanLatestSegments cfg latest queue (Z.of_nat (S n)) =
  let acc := scanLatestSegments cfg latest queue (Z.of_nat n) in
  match queue !! n with
  | None => (true, acc.2)
  | Some s => (acc.1 || negb (StartTime s =? slotStart cfg latest (Z.of_nat n)),
               <[StartTime s := s]> acc.2)
  end.
Proof.
  unfold scanLatestSegments. rewrite seqZ_S, foldl_app. cbn [foldl].
  rewrite Z.add_0_l, Nat2Z.id. reflexivity.
Qed.

Lemma scan_cache (n : nat) :
  (scanLatestSegments cfg latest queue (Z.of_nat n)).2 = cacheOf (take n queue).
Proof.
  induction n as [|n IH].
  - now rewrite take_0.
  - rewrite scan_succ. cbn zeta.
    destruct (queue !! n) as [s|] eqn:E.
    + rewrite (take_S_r _ _ _ E), cacheOf_snoc. cbn [snd]. now rewrite IH.
    + cbn [snd]. rewrite IH. apply lookup_ge_None_1 in E.
      now rewrite !take_ge by lia.
Qed.

Lemma scan_flag (n : nat) :
  (scanLatestSegments cfg latest queue (Z.of_nat n)).1 = false <->
  forall i, (i < n)%nat ->
    exists s, queue !! i = Some s /\ StartTime s = slotStart cfg latest (Z.of_nat i).
Proof.
  induction n as [|n IH].
  - split; [intros _ i Hi; lia | reflexivity].
  - rewrite scan_succ. cbn zeta. destruct (queue !! n) as [s|] eqn:E; cbn [fst].
    + rewrite orb_false_iff, negb_false_iff, Z.eqb_eq, IH. split.
      * intros [Hall Hs] i Hi. destruct (decide (i = n)) as [->|Hne].
        -- now exists s.
        -- apply Hall. lia.
      * intros Hall. split.
        -- intros i Hi. apply Hall. lia.
        -- destruct (Hall n ltac:(lia)) as (s' & Hs' & Hst). congruence.
    + split; [discriminate|]. intros Hall.
      destruct (Hall n ltac:(lia)) as (s' & Hs' & _). congruence.
Qed.
End Scan.

Lemma ensureLatestNSegments_fields (cfg : config) (req : submitRequest) (N : Z) (td : tenantData) :
  WindowTotal (ensureLatestNSegments cfg req N td) = WindowTotal td /\
  WasOver (ensureLatestNSegments cfg req N td) = WasOver td /\
  Version (ensureLatestNSegments cfg req N td) = Version td.
Proof.
  unfold ensureLatestNSegments.
  destruct (scanLatestSegments _ _ _ _) as [rebuild cache].
  destruct rebuild; cbn; auto.
Qed.

(** After [ensureLatestNSegments], slot [i] of the queue holds a segment
    whose start time is [latest - i * segmentSize], for every [i < N]. *)
Lemma ensureLatestNSegments_slots (cfg : config) (req : submitRequest) (N : Z)
    (td : tenantData) (i : nat) :
  1 <= N < two63 -> Z.of_nat i < N ->
  exists s, WindowQueue (ensureLatestNSegments cfg req N td) !! i = Some s /\
            StartTime s = slotStart cfg (RequestSegmentStartTime req) (Z.of_nat i).
Proof.
  intros HN Hi. unfold ensureLatestNSegments.
  destruct (scanLatestSegments _ _ _ _) as [rebuild cache] eqn:Hscan.
  replace N with (Z.of_nat (Z.to_nat N)) in Hscan by lia.
  destruct rebuild; cbn [negb].
  - cbn [setQueue WindowQueue].
    assert (Htop : wrapS64 (sub64 N 1) + 1 = N) by word.
    rewrite Htop, lookup_app_l by (rewrite length_fmap, length_seqZ; lia).
    rewrite list_lookup_fmap, lookup_seqZ_lt by lia. cbn [fmap option_fmap option_map].
    rewrite Z.add_0_l. unfold latestSlot.
    destruct (cache !! _) as [s|] eqn:E; eexists; split; try reflexivity.
    pose proof (scan_cache cfg (RequestSegmentStartTime req) (WindowQueue td) (Z.to_nat N)) as Hc.
    rewrite Hscan in Hc. cbn [snd] in Hc. rewrite Hc in E.
    now apply cacheOf_lookup_Some in E as [_ ->].
  - pose proof (scan_flag cfg (RequestSegmentStartTime req) (WindowQueue td) (Z.to_nat N)) as Hf.
    rewrite Hscan in Hf. cbn [fst] in Hf.
    destruct Hf as [Hf _]. apply (Hf eq_refl i). lia.
Qed.

Lemma ensureLatestNSegments_length (cfg : config) (req : submitRequest) (N : Z) (td : tenantData) :
  1 <= N < two63 ->
  (Z.to_nat N <= length (WindowQueue (ensureLatestNSegments cfg req N td)))%nat.
Proof.
  intros HN.
  destruct (ensureLatestNSegments_slots cfg req N td (Z.to_nat N - 1) HN ltac:(lia))
    as (s & Hs & _).
  apply lookup_lt_Some in Hs. lia.
Qed.

Lemma foldl_add64_ne (t : Z) (l : list Z) :
  l <> [] -> foldl add64 t l = add64 t (sumZ l).
Proof.
  destruct l as [|x l]; [congruence|]. intros _. cbn [foldl sumZ].
  unfold add64 at 2. rewrite foldl_add64. unfold add64. f_equal. lia.
Qed.

(** The distribution computed by [distributePenalty], with the span reduced
    to the amount when the amount is smaller. *)
Lemma distribution_shares (A N : Z) :
  1 <= A < two64 -> 1 <= N ->
  let '(numSegmentsMax, amountPerSegment) :=
    if A / N <? 1 then (A, 1) else (N, A / N) in
  let span := if A <? N then A else N in
  numSegmentsMax = span /\
  segmentDistribution amountPerSegment (A mod numSegmentsMax) numSegmentsMax
  = penaltyShare A span <$> seqZ 0 span.
Proof.
  intros HA HN.
  destruct (Z.ltb_spec (A / N) 1) as [Hdiv|Hdiv].
  - assert (A < N).
    { destruct (Z.lt_ge_cases A N) as [?|Hge]; [assumption|].
      pose proof (Z.div_le_lower_bound A N 1 ltac:(lia) ltac:(lia)). lia. }
    destruct (Z.ltb_spec A N); [|lia]. split; [reflexivity|].
    unfold segmentDistribution, penaltyShare. apply list_fmap_ext. intros i x Hx.
    apply lookup_seqZ in Hx as [-> _].
    rewrite Z.mod_same, Z.div_same by lia.
    destruct (Z.ltb_spec (0 + Z.of_nat i) 0); [lia|reflexivity].
  - assert (N <= A).
    { destruct (Z.lt_ge_cases A N) as [Hlt|?]; [|assumption].
      rewrite Z.div_small in Hdiv by lia. lia. }
    destruct (Z.ltb_spec A N); [lia|]. split; [reflexivity|].
    apply segmentDistribution_shares; lia.
Qed.

Lemma penaltyShare_pos (A N i : Z) :
  1 <= N <= A -> 1 <= penaltyShare A N i.
Proof.
  intros H. unfold penaltyShare.
  pose proof (Z.div_le_lower_bound A N 1 ltac:(lia) ltac:(lia)).
  destruct (i <? A mod N); lia.
Qed.

(** The effect of [distributePenalty] on a tenant. *)
Lemma distributePenalty_spec (cfg : config) (req : submitRequest)
    (A N : Z) (td : tenantData) :
  1 <= A < two64 -> 1 <= N < two63 ->
  let span := if A <? N then A else N in
  let td1 := ensureLatestNSegments cfg req span td in
  exists td',
    distributePenalty cfg req A N td = Some td' /\
    WindowTotal td' = add64 (WindowTotal td) A /\
    wrap64 (sumValues (WindowQueue td')) = wrap64 (sumValues (WindowQueue td1) + A) /\
    sumZ (penaltyShare A span <$> seqZ 0 span) = A /\
    (forall i, 1 <= penaltyShare A span i) /\
    (forall i, i < A mod span -> penaltyShare A span i = A / span + 1) /\
    (forall i, A mod span <= i -> penaltyShare A span i = A / span) /\
    length (WindowQueue td') = length (WindowQueue td1) /\
    (forall (i : nat) (s : windowSegment),
        WindowQueue td1 !! i = Some s ->
        WindowQueue td' !! i =
          Some {| StartTime := StartTime s;
                  Value := if Z.of_nat i <? span
                           then add64 (Value s) (penaltyShare A span (Z.of_nat i))
                           else Value s |}) /\
    (forall i : nat, Z.of_nat i < span ->
        exists s, WindowQueue td1 !! i = Some s /\
                  StartTime s = slotStart cfg (RequestSegmentStartTime req) (Z.of_nat i)) /\
    WasOver td' = WasOver td /\ Version td' = Version td.
Proof.
  intros HA HN span td1.
  assert (Hspan : 1 <= span < two63 /\ span <= A).
  { subst span. destruct (Z.ltb_spec A N); lia. }
  destruct Hspan as [Hspan HspanA].
  pose proof (distribution_shares A N HA ltac:(lia)) as Hdist.
  unfold distributePenalty.
  destruct (Z.leb_spec A 0); [lia|].
  destruct (Z.eqb_spec N 0); [lia|].
  destruct (if A / N <? 1 then (A, 1) else (N, A / N)) as [numSegmentsMax amountPerSegment].
  cbn zeta in Hdist. destruct Hdist as [-> Hdist]. fold span in Hdist. fold span.
  rewrite Hdist. fold td1.
  pose proof (ensureLatestNSegments_length cfg req span td Hspan) as Hlen. fold td1 in Hlen.
  destruct (ensureLatestNSegments_fields cfg req span td) as (Htot & Hover & Hver).
  fold td1 in Htot, Hover, Hver.
  set (dist := penaltyShare A span <$> seqZ 0 span) in *.
  assert (Hdlen : length dist = Z.to_nat span).
  { subst dist. now rewrite length_fmap, length_seqZ. }
  rewrite addDistribution_addShares by lia. cbn [mbind option_bind].
  eexists. split; [reflexivity|]. cbn [setQueue WindowTotal WindowQueue WasOver Version].
  assert (Hsum : sumZ dist = A) by (apply sum_penaltyShare; lia).
  repeat split.
  - rewrite foldl_add64_ne, Hsum, Htot; [reflexivity|].
    intros E. rewrite E in Hdlen. simpl in Hdlen. lia.
  - rewrite sumValues_addShares, Hsum by lia. reflexivity.
  - exact Hsum.
  - intros i. apply penaltyShare_pos. lia.
  - intros i Hi. unfold penaltyShare. destruct (Z.ltb_spec i (A mod span)); [reflexivity|lia].
  - intros i Hi. unfold penaltyShare. destruct (Z.ltb_spec i (A mod span)); [lia|reflexivity].
  - apply length_addShares. lia.
  - intros i s Hs. rewrite (lookup_addShares dist _ i s) by (lia || exact Hs).
    subst dist. rewrite list_lookup_fmap.
    destruct (Z.ltb_spec (Z.of_nat i) span).
    + rewrite lookup_seqZ_lt by lia. cbn. rewrite Z.add_0_l. reflexivity.
    + rewrite lookup_seqZ_ge by lia. reflexivity.
  - intros i Hi. apply ensureLatestNSegments_slots; assumption.
  - exact Hover.
  - exact Hver.
Qed.



(** ** Rotation: results and version *)

Lemma popFutureSegments_restore_u64 (expected : Z) (queue : list windowSegment)
    (restore total : Z) :
  u64 restore -> u64 (popFutureSegments expected queue restore total).1.2.
Proof.
  revert restore total. induction queue as [|f rest IH]; intros restore total Hr.
  - exact Hr.
  - cbn [popFutureSegments]. destruct (StartTime f <=? expected); [exact Hr|].
    apply IH, add64_u64.
Qed.

Lemma rotateWindow_empty (cfg : config) (req : submitRequest) (td : tenantData) :
  WindowQueue td = [] ->
  rotateWindow cfg req td =
    Some (markDirty (setQueue td [ {| StartTime := RequestSegmentStartTime req; Value := 0 |} ]
                              (WindowTotal td))).
Proof.
  intros Hq. unfold rotateWindow, rotationNotNeeded. rewrite Hq. reflexivity.
Qed.

(** [rotateWindow] never panics; it leaves [WasOver] alone and bumps the
    version at most once. *)
Lemma rotateWindow_version (cfg : config) (req : submitRequest) (td : tenantData) :
  exists td',
    rotateWindow cfg req td = Some td' /\
    WasOver td' = WasOver td /\
    (Version td' = Version td \/ Version td' = add64 (Version td) 1) /\
    (rotationNotNeeded cfg req td = true -> td' = td).
Proof.
  unfold rotateWindow.
  destruct (rotationNotNeeded cfg req td).
  { exists td. auto. }
  pose proof (popFutureSegments_restore_u64 (RequestSegmentStartTime req)
                (WindowQueue td) 0 (WindowTotal td) ltac:(word)) as Hr.
  destruct (popFutureSegments _ _ _ _) as [[q1 restore] total1]. cbn [fst snd] in Hr.
  destruct (requireFrontSegment _ q1) as [q2 dirty2].
  destruct (removeObsoleteSegments cfg req q2 total1 dirty2) as [[q3 total3] dirty3].
  destruct (Z.ltb_spec 0 restore) as [Hpos|Hzero].
  - destruct (distributePenalty_spec cfg req restore 1 (setQueue td q3 total3))
      as (td4 & -> & _ & _ & _ & _ & _ & _ & _ & _ & _ & Hover & Hver).
    { unfold u64 in Hr. lia. }
    { unfold two63. lia. }
    cbn [mbind option_bind]. rewrite orb_true_r.
    eexists. split; [reflexivity|]. cbn. rewrite Hover, Hver. cbn.
    split; [reflexivity|]. split; [now right | discriminate].
  - cbn [mbind option_bind]. rewrite orb_false_r.
    eexists. split; [reflexivity|].
    destruct dirty3; cbn; (split; [reflexivity|]); (split; [auto | discriminate]).
Qed.

Lemma getTenant_setTenant (inst : loadLimiter) (key : string) (td : tenantData) :
  getTenant (setTenant inst key td) key = td.
Proof. unfold getTenant, setTenant. cbn. now rewrite lookup_insert_eq. Qed.

Lemma getTenant_setTenant_ne (inst : loadLimiter) (key key' : string) (td : tenantData) :
  key <> key' -> getTenant (setTenant inst key td) key' = getTenant inst key'.
Proof. intros H. unfold getTenant, setTenant. cbn. now rewrite lookup_insert_ne. Qed.

(** ** Probe and the version counter *)



(** ** The accept path *)

Lemma applyCapping_below (cfg : config) (req : submitRequest) (td : tenantData) :
  WindowTotal td <= AbsoluteMaxPenaltyCap cfg -> applyCapping cfg req td = td.
Proof.
  intros H. unfold applyCapping. destruct (ApplyPenaltyCapping cfg); [|reflexivity].
  cbn [negb]. destruct (Z.ltb_spec (AbsoluteMaxPenaltyCap cfg) (WindowTotal td)); [lia|reflexivity].
Qed.




(** ** Requests *)

Lemma request_facts (cfg : config) (req : submitRequest) :
  valid_config cfg -> valid_request cfg req ->
  0 <= RequestSegmentStartTime req /\
  RequestSegmentStartTime req <= RequestedTimestamp req /\
  RequestedTimestamp req < RequestSegmentStartTime req + WindowSegmentSize cfg /\
  RequestSegmentStartTime req mod WindowSegmentSize cfg = 0 /\
  WindowSize cfg <= RequestSegmentStartTime req /\
  WindowSegmentSize cfg <= WindowSize cfg.
Proof.
  intros Hc Hr. destruct Hc, Hr. rewrite vr_segment0. unfold locateSegmentStartTime.
  set (seg := WindowSegmentSize cfg) in *. set (t := RequestedTimestamp req) in *.
  pose proof (Z.mul_div_le t seg vc_seg0) as Hle.
  pose proof (Z.div_mod t seg ltac:(lia)) as Hdm.
  pose proof (Z.mod_pos_bound t seg vc_seg0) as Hmod.
  assert (Hq : 0 <= t / seg) by (apply Z.div_pos; lia).
  assert (Hnum : NumSegments cfg <= t / seg) by (apply Z.div_le_lower_bound; lia).
  rewrite mul64_exact by (unfold two64, two63 in *; nia).
  repeat split; try nia.
  apply Z.mod_mul. lia.
Qed.

(** ** Queues *)

Lemma queue_inv_nil (cfg : config) : queue_inv cfg [].
Proof. split; constructor. Qed.

Lemma queue_inv_app (cfg : config) (a b : list windowSegment) :
  queue_inv cfg (a ++ b) <->
  queue_inv cfg a /\ queue_inv cfg b /\
  (forall x y, x ∈ a -> y ∈ b -> StartTime y < StartTime x).
Proof.
  split.
  - intros [Hs Hok]. apply StronglySorted_app in Hs as (Hab & Ha & Hb).
    apply Forall_app in Hok as [Hoa Hob]. repeat split; assumption.
  - intros ([Ha Hoa] & [Hb Hob] & Hab). split.
    + apply StronglySorted_app; auto.
    + apply Forall_app; auto.
Qed.

Lemma queue_inv_cons (cfg : config) (s : windowSegment) (q : list windowSegment) :
  queue_inv cfg (s :: q) <->
  segment_ok cfg s /\ queue_inv cfg q /\ Forall (fun y => StartTime y < StartTime s) q.
Proof.
  split.
  - intros [Hs Hok]. apply StronglySorted_cons in Hs as [Hf Hs].
    apply Forall_cons in Hok as [Hos Hok].
    split; [exact Hos|]. split; [split; assumption | exact Hf].
  - intros (Hos & [Hs Hok] & Hf). split.
    + apply StronglySorted_cons; auto.
    + constructor; auto.
Qed.

Lemma queue_inv_values (cfg : config) (q : list windowSegment) :
  queue_inv cfg q -> Forall (fun s => 0 <= Value s) q.
Proof. intros [_ H]. eapply Forall_impl; [exact H|]. now intros s []. Qed.

Lemma sumValues_nonneg (q : list windowSegment) :
  Forall (fun s => 0 <= Value s) q -> 0 <= sumValues q.
Proof.
  induction 1 as [|s q Hs _ IH]; [reflexivity|]. rewrite sumValues_cons. lia.
Qed.

Lemma sumValues_elem (q : list windowSegment) (s : windowSegment) :
  Forall (fun s => 0 <= Value s) q -> s ∈ q -> Value s <= sumValues q.
Proof.
  induction 1 as [|x q Hx Hq IH]; intros Hin.
  - now apply elem_of_nil in Hin.
  - rewrite sumValues_cons. pose proof (sumValues_nonneg q Hq).
    apply elem_of_cons in Hin as [->|Hin]; [lia|]. specialize (IH Hin). lia.
Qed.

(** ** The loops of rotation *)

Lemma popFutureSegments_spec (expected : Z) (q : list windowSegment) (r t : Z) :
  Forall (fun s => 0 <= Value s) q ->
  0 <= r -> sumValues q <= t < two64 -> r + sumValues q < two64 ->
  exists popped q1,
    q = popped ++ q1 /\
    popFutureSegments expected q r t = (q1, r + sumValues popped, t - sumValues popped) /\
    Forall (fun s => expected < StartTime s) popped /\
    match q1 with [] => True | f :: _ => StartTime f <= expected end.
Proof.
  revert r t. induction q as [|f rest IH]; intros r t Hv Hr Ht Hrs.
  - exists [], []. cbn. repeat split; try constructor. repeat (f_equal; try lia).
  - apply Forall_cons in Hv as [Hf Hv]. rewrite sumValues_cons in *.
    pose proof (sumValues_nonneg rest Hv) as Hnn.
    cbn [popFutureSegments]. destruct (Z.leb_spec (StartTime f) expected) as [Hle|Hgt].
    + exists [], (f :: rest). cbn. repeat split; try constructor; try assumption.
      repeat (f_equal; try lia).
    + destruct (IH (add64 r (Value f)) (sub64 t (Value f)) Hv) as (popped & q1 & -> & Hpop & Hall & Hhd).
      * unfold add64, wrap64. apply Z.mod_pos_bound. reflexivity.
      * rewrite sub64_exact by lia. lia.
      * rewrite add64_exact by lia. lia.
      * exists (f :: popped), q1. rewrite Hpop, sumValues_cons.
        rewrite add64_exact, sub64_exact by lia.
        repeat split; try assumption.
        -- repeat (f_equal; try lia).
        -- constructor; assumption.
Qed.

Lemma evictOldSegments_spec (removeBefore : Z) (l : list windowSegment) (t : Z) (d : bool) :
  Forall (fun s => 0 <= Value s) l ->
  sumValues l <= t < two64 ->
  exists ev l' d',
    l = ev ++ l' /\
    evictOldSegments removeBefore l t d = (l', t - sumValues ev, d') /\
    Forall (fun s => StartTime s <= removeBefore) ev /\
    match l' with [] => True | f :: _ => removeBefore < StartTime f end.
Proof.
  revert t d. induction l as [|b rest IH]; intros t d Hv Ht.
  - exists [], [], d. cbn. repeat split; try constructor. repeat (f_equal; try lia).
  - apply Forall_cons in Hv as [Hb Hv]. rewrite sumValues_cons in *.
    pose proof (sumValues_nonneg rest Hv) as Hnn.
    cbn [evictOldSegments]. destruct (Z.leb_spec (StartTime b) removeBefore) as [Hle|Hgt].
    + destruct (IH (if Value b =? 0 then t else sub64 t (Value b)) true Hv)
        as (ev & l' & d' & -> & Hev & Hall & Hhd).
      * destruct (Z.eqb_spec (Value b) 0); [lia|]. rewrite sub64_exact by lia. lia.
      * exists (b :: ev), l', d'. rewrite Hev, sumValues_cons.
        repeat split; try assumption.
        -- destruct (Z.eqb_spec (Value b) 0); [|rewrite sub64_exact by lia];
             repeat (f_equal; try lia).
        -- constructor; assumption.
    + exists [], (b :: rest), d. cbn. repeat split; try constructor; try assumption.
      repeat (f_equal; try lia).
Qed.

Lemma aligned_gap (seg a b : Z) :
  0 < seg -> a mod seg = 0 -> b mod seg = 0 -> b < a -> b + seg <= a.
Proof.
  intros Hseg Ha Hb Hlt.
  apply Z.mod_divide in Ha; [|lia]. apply Z.mod_divide in Hb; [|lia].
  destruct Ha as [ka ->], Hb as [kb ->].
  assert (kb < ka) by nia. assert (kb + 1 <= ka) by lia. nia.
Qed.

Lemma queue_inv_ge_last (cfg : config) (l : list windowSegment) (h : windowSegment) :
  queue_inv cfg (l ++ [h]) -> Forall (fun s => StartTime h <= StartTime s) (l ++ [h]).
Proof.
  intros H. apply queue_inv_app in H as (_ & _ & Hlt).
  apply Forall_app. split.
  - apply Forall_forall. intros x Hx.
    specialize (Hlt x h Hx ltac:(apply list_elem_of_singleton; reflexivity)). lia.
  - constructor; [lia|constructor].
Qed.

Lemma queue_inv_le_front (cfg : config) (f : windowSegment) (l : list windowSegment) :
  queue_inv cfg (f :: l) -> Forall (fun s => StartTime s <= StartTime f) (f :: l).
Proof.
  intros H. apply queue_inv_cons in H as (_ & _ & Hlt).
  constructor; [lia|]. eapply Forall_impl; [exact Hlt|]. cbn. intros; lia.
Qed.

Lemma window_inv_ext (cfg : config) (td td' : tenantData) :
  WindowQueue td' = WindowQueue td -> WindowTotal td' = WindowTotal td ->
  window_inv cfg td -> window_inv cfg td'.
Proof. intros Hq Ht [H1 H2 H3]. split; rewrite ?Hq, ?Ht; assumption. Qed.

Lemma rotated_ext (cfg : config) (req : submitRequest) (td td' : tenantData) :
  WindowQueue td' = WindowQueue td -> WindowTotal td' = WindowTotal td ->
  rotated cfg req td -> rotated cfg req td'.
Proof.
  intros Hq Ht [H1 H2 H3]. split; rewrite ?Hq; try assumption.
  now apply (window_inv_ext cfg td).
Qed.

Lemma requireFrontSegment_spec (cfg : config) (expected : Z) (q1 : list windowSegment) :
  queue_inv cfg q1 ->
  u64 expected -> expected mod WindowSegmentSize cfg = 0 ->
  match q1 with [] => True | f :: _ => StartTime f <= expected end ->
  exists front rest d,
    requireFrontSegment expected q1 = (front :: rest, d) /\
    StartTime front = expected /\
    queue_inv cfg (front :: rest) /\
    sumValues (front :: rest) = sumValues q1.
Proof.
  intros Hq Hu Ha Hhd. destruct q1 as [|f rest]; cbn [requireFrontSegment].
  - eexists _, _, _. split; [reflexivity|]. split; [reflexivity|]. split; [|reflexivity].
    apply queue_inv_cons. split; [split; cbn; (assumption || lia)|].
    split; [apply queue_inv_nil | constructor].
  - destruct (Z.eqb_spec (StartTime f) expected) as [Heq|Hne]; cbn [negb].
    + eexists _, _, _. split; [reflexivity|]. auto.
    + eexists _, _, _. split; [reflexivity|]. split; [reflexivity|]. split; [|reflexivity].
      apply queue_inv_cons. split; [split; cbn; (assumption || lia)|].
      split; [assumption|]. cbn [StartTime].
      pose proof (queue_inv_le_front cfg f rest Hq) as Hle.
      eapply Forall_impl; [exact Hle|]. cbn. intros; lia.
Qed.

Lemma app_snoc_split {A} (a ev l' : list A) (x : A) :
  a ++ [x] = ev ++ l' -> x ∉ ev -> exists l'', l' = l'' ++ [x] /\ a = ev ++ l''.
Proof.
  intros Heq Hnin. destruct l' as [|y l'] using rev_ind.
  - rewrite app_nil_r in Heq. subst ev. exfalso. apply Hnin.
    apply elem_of_app. right. now apply list_elem_of_singleton.
  - rewrite app_assoc in Heq. apply app_inj_tail in Heq as [-> ->]. now exists l'.
Qed.

Lemma removeObsoleteSegments_spec (cfg : config) (req : submitRequest)
    (front : windowSegment) (rest : list windowSegment) (total : Z) (dirty : bool) :
  valid_config cfg -> valid_request cfg req ->
  queue_inv cfg (front :: rest) ->
  StartTime front = RequestSegmentStartTime req ->
  sumValues (front :: rest) <= total < two64 ->
  exists rest3 evicted d3,
    removeObsoleteSegments cfg req (front :: rest) total dirty
      = (front :: rest3, total - evicted, d3) /\
    queue_inv cfg (front :: rest3) /\
    sumValues (front :: rest3) = sumValues (front :: rest) - evicted /\
    0 <= evicted /\
    Forall (fun s => RequestedTimestamp req < StartTime s + WindowSize cfg) (front :: rest3).
Proof.
  intros Hc Hr Hq Hfront Htot.
  destruct (request_facts cfg req Hc Hr) as (HS0 & HSt & HtS & HSa & HWS & HsegW).
  assert (Hrb : sub64 (RequestedTimestamp req) (WindowSize cfg)
                = RequestedTimestamp req - WindowSize cfg).
  { apply sub64_exact. destruct Hr. unfold two64, two63 in *. lia. }
  unfold removeObsoleteSegments.
  destruct (Z.ltb_spec 1 (Z.of_nat (length (front :: rest)))) as [Hlen|Hlen].
  - rewrite Hrb.
    destruct (evictOldSegments_spec (RequestedTimestamp req - WindowSize cfg)
                (rev (front :: rest)) total dirty) as (ev & l' & d' & Hsplit & -> & Hev & Hhd).
    { apply Forall_rev. now apply queue_inv_values in Hq. }
    { now rewrite sumValues_rev. }
    cbn [rev] in Hsplit.
    apply app_snoc_split in Hsplit as (l'' & -> & Hrest).
    2:{ intros Hin. rewrite Forall_forall in Hev. specialize (Hev front Hin). lia. }
    rewrite rev_app_distr. cbn [rev app].
    assert (Hq2 : front :: rest = (front :: rev l'') ++ rev ev).
    { cbn [app]. f_equal. rewrite <- rev_app_distr, <- Hrest. now rewrite rev_involutive. }
    exists (rev l''), (sumValues ev), d'. split; [reflexivity|].
    pose proof (queue_inv_values cfg _ Hq) as Hvals.
    rewrite Hq2 in Hq, Hvals. apply queue_inv_app in Hq as (Hq3 & _ & _).
    apply Forall_app in Hvals as [_ Hvals]. apply Forall_rev in Hvals.
    rewrite rev_involutive in Hvals.
    split; [exact Hq3|]. split.
    { rewrite Hq2, sumValues_app, sumValues_rev. lia. }
    split; [now apply sumValues_nonneg|].
    destruct l'' as [|h l3].
    + cbn [rev]. constructor; [|constructor]. rewrite Hfront. lia.
    + cbn [app] in Hhd. cbn [rev] in *.
      change (front :: rev l3 ++ [h]) with ((front :: rev l3) ++ [h]) in *.
      pose proof (queue_inv_ge_last cfg _ _ Hq3) as Hge.
      eapply Forall_impl; [exact Hge|]. cbn. intros; lia.
  - destruct rest as [|x rest]; [|cbn [length] in Hlen; lia].
    exists [], 0, dirty. split; [f_equal; f_equal; lia|].
    split; [exact Hq|]. split; [lia|]. split; [lia|].
    constructor; [|constructor]. rewrite Hfront. lia.
Qed.

(** [ensureLatestNSegments] for one segment leaves a queue alone whose front
    is the request's segment. *)
Lemma ensureLatestNSegments_front (cfg : config) (req : submitRequest) (td : tenantData)
    (front : windowSegment) (rest : list windowSegment) :
  WindowQueue td = front :: rest ->
  StartTime front = RequestSegmentStartTime req ->
  u64 (RequestSegmentStartTime req) ->
  ensureLatestNSegments cfg req 1 td = td.
Proof.
  intros Hq Hfront Hu. unfold ensureLatestNSegments, scanLatestSegments.
  rewrite Hq. change (seqZ 0 1) with [0]. cbn [foldl fst snd].
  change ((front :: rest) !! Z.to_nat 0) with (Some front). cbn iota.
  rewrite Hfront. unfold mul64. rewrite Z.mul_0_l. change (wrap64 0) with 0.
  unfold sub64. rewrite Z.sub_0_r, wrap64_id by exact Hu.
  rewrite Z.eqb_refl. reflexivity.
Qed.

(** Restoring load into the front segment, as rotation does. *)
Lemma distributePenalty_front (cfg : config) (req : submitRequest) (r : Z) (td : tenantData)
    (front : windowSegment) (rest : list windowSegment) :
  1 <= r ->
  WindowQueue td = front :: rest ->
  StartTime front = RequestSegmentStartTime req ->
  u64 (RequestSegmentStartTime req) ->
  distributePenalty cfg req r 1 td =
    Some (setQueue td ({| StartTime := StartTime front; Value := add64 (Value front) r |} :: rest)
                   (add64 (WindowTotal td) r)).
Proof.
  intros Hr Hq Hfront Hu. unfold distributePenalty.
  destruct (Z.leb_spec r 0); [lia|]. change (1 =? 0) with false. cbn iota.
  rewrite Z.div_1_r. destruct (Z.ltb_spec r 1); [lia|].
  rewrite Z.mod_1_r, (ensureLatestNSegments_front cfg req td front rest) by assumption.
  unfold segmentDistribution. change (seqZ 0 1) with [0]. cbn [fmap list_fmap].
  change (0 <? 0) with false. cbn iota. rewrite Hq. reflexivity.
Qed.

(** Rotation establishes the rotated state and never raises the total. *)
Lemma rotateWindow_inv (cfg : config) (req : submitRequest) (td : tenantData) :
  valid_config cfg -> valid_request cfg req -> window_inv cfg td ->
  exists td',
    rotateWindow cfg req td = Some td' /\
    rotated cfg req td' /\
    WindowTotal td' <= WindowTotal td /\
    WasOver td' = WasOver td.
Proof.
  intros Hc Hr Hw.
  destruct (request_facts cfg req Hc Hr) as (HS0 & HSt & HtS & HSa & HWS & HsegW).
  assert (HuS : u64 (RequestSegmentStartTime req)).
  { destruct Hr. unfold u64, two64, two63 in *. lia. }
  destruct Hw as [Hq Htot Hrange].
  pose proof (queue_inv_values cfg _ Hq) as Hvals.
  pose proof (sumValues_nonneg _ Hvals) as Hnn.
  unfold rotateWindow. destruct (rotationNotNeeded cfg req td) eqn:Hfast.
  - exists td. split; [reflexivity|]. split; [|split; [lia|reflexivity]].
    unfold rotationNotNeeded in Hfast.
    destruct (WindowQueue td) as [|front rest] eqn:Hqueue; [discriminate|].
    destruct (last (front :: rest)) as [back|] eqn:Hlast; [|discriminate].
    apply andb_true_iff in Hfast as [Hf Hb].
    apply Z.eqb_eq in Hf. apply Z.ltb_lt in Hb.
    rewrite sub64_exact in Hb by (unfold u64, two64 in *; lia).
    split.
    + split; rewrite ?Hqueue; assumption.
    + exists front, rest. rewrite Hqueue. auto.
    + rewrite Hqueue. apply last_Some in Hlast as [l' Hl']. rewrite Hl' in *.
      pose proof (queue_inv_ge_last cfg _ _ Hq) as Hge.
      assert (Hback : segment_ok cfg back).
      { destruct Hq as [_ Hok]. apply Forall_app in Hok as [_ Hok]. now inversion Hok. }
      destruct Hback as [_ _ Hba]. destruct Hc.
      assert (HWa : (RequestSegmentStartTime req - WindowSize cfg) mod WindowSegmentSize cfg = 0).
      { rewrite vc_window0. rewrite Zminus_mod, HSa, Z.mod_mul by lia. reflexivity. }
      pose proof (aligned_gap _ _ _ vc_seg0 Hba HWa Hb).
      eapply Forall_impl; [exact Hge|]. cbn. intros; lia.
  - destruct (popFutureSegments_spec (RequestSegmentStartTime req) (WindowQueue td) 0
                (WindowTotal td) Hvals ltac:(lia) ltac:(lia) ltac:(lia))
      as (popped & q1 & Hsplit & -> & Hpop & Hhd).
    rewrite Hsplit in Hq, Hvals, Htot. rewrite sumValues_app in Htot.
    apply queue_inv_app in Hq as (Hqp & Hq1 & _).
    apply Forall_app in Hvals as [Hvp Hv1].
    pose proof (sumValues_nonneg _ Hvp) as Hnp. pose proof (sumValues_nonneg _ Hv1) as Hn1.
    destruct (requireFrontSegment_spec cfg _ q1 Hq1 HuS HSa Hhd)
      as (front & rest & d2 & -> & Hfront & Hq2 & Hsum2).
    destruct (removeObsoleteSegments_spec cfg req front rest
                (WindowTotal td - sumValues popped) d2 Hc Hr Hq2 Hfront ltac:(lia))
      as (rest3 & evicted & d3 & -> & Hq3 & Hsum3 & Hev & Hbound).
    rewrite Z.add_0_l.
    destruct (Z.ltb_spec 0 (sumValues popped)) as [Hpos|Hzero].
    + rewrite (distributePenalty_front cfg req _ _ front rest3) by (assumption || reflexivity || lia).
      cbn [mbind option_bind setQueue WindowQueue WindowTotal]. rewrite orb_true_r.
      eexists. split; [reflexivity|].
      pose proof (queue_inv_cons cfg front rest3) as [Hcons _].
      destruct (Hcons Hq3) as ([Hfs Hfv Hfa] & Hqr & Hlt).
      rewrite !sumValues_cons in *.
      pose proof (sumValues_nonneg _ (queue_inv_values cfg _ Hqr)) as Hnr.
      rewrite !add64_exact by lia.
      split; [|split; [cbn; lia|reflexivity]].
      split.
      * split; cbn [markDirty setQueue WindowQueue WindowTotal].
        -- apply queue_inv_cons. split; [split; cbn; (assumption || lia)|]. split; assumption.
        -- rewrite sumValues_cons. cbn [Value]. lia.
        -- lia.
      * eexists _, _. cbn. split; [reflexivity|exact Hfront].
      * cbn [markDirty setQueue WindowQueue]. inversion Hbound; subst. constructor; assumption.
    + cbn [mbind option_bind]. rewrite orb_false_r.
      assert (Hp0 : sumValues popped = 0) by lia.
      eexists. split; [reflexivity|].
      assert (Hrot : rotated cfg req (setQueue td (front :: rest3)
                                         (WindowTotal td - sumValues popped - evicted))).
      { split; cbn [setQueue WindowQueue WindowTotal].
        - split; cbn [setQueue WindowQueue WindowTotal]; [assumption|lia|lia].
        - eexists _, _. split; [reflexivity|exact Hfront].
        - exact Hbound. }
      destruct d3.
      * split; [eapply rotated_ext; [| |exact Hrot]; reflexivity|]. cbn. split; [lia|reflexivity].
      * split; [exact Hrot|]. cbn. split; [lia|reflexivity].
Qed.

(** ** Rebuilding the newest segments *)

Lemma queue_split (cfg : config) (R : Z) (q : list windowSegment) :
  queue_inv cfg q ->
  exists hi lo,
    q = hi ++ lo /\
    Forall (fun s => R <= StartTime s) hi /\
    Forall (fun s => StartTime s < R) lo.
Proof.
  induction q as [|f rest IH]; intros Hq.
  - exists [], []. repeat split; constructor.
  - apply queue_inv_cons in Hq as (Hf & Hrest & Hlt).
    destruct (Z.lt_ge_cases (StartTime f) R) as [Hlow|Hhigh].
    + exists [], (f :: rest). split; [reflexivity|]. split; [constructor|].
      constructor; [exact Hlow|]. eapply Forall_impl; [exact Hlt|]. cbn. intros; lia.
    + destruct (IH Hrest) as (hi & lo & -> & Hhi & Hlo).
      exists (f :: hi), lo. split; [reflexivity|]. split; [|exact Hlo].
      constructor; assumption.
Qed.

Lemma keepOlderSegments_app (R : Z) (a b : list windowSegment) :
  Forall (fun s => StartTime s < R) a ->
  Forall (fun s => R <= StartTime s) b ->
  keepOlderSegments R (a ++ b) = a.
Proof.
  intros Ha Hb. induction Ha as [|x a Hx Ha IH]; cbn [app keepOlderSegments].
  - destruct Hb as [|y b Hy Hb]; [reflexivity|]. cbn [keepOlderSegments].
    destruct (Z.ltb_spec (StartTime y) R); [lia|reflexivity].
  - destruct (Z.ltb_spec (StartTime x) R); [|lia]. now rewrite IH.
Qed.

Lemma sum_over_keys (look : Z -> option windowSegment) (keys : list Z)
    (hi : list windowSegment) :
  NoDup keys -> NoDup (StartTime <$> hi) ->
  (forall s, s ∈ hi -> StartTime s ∈ keys) ->
  (forall k s, k ∈ keys -> look k = Some s <-> s ∈ hi /\ StartTime s = k) ->
  sumZ ((fun k => match look k with Some s => Value s | None => 0 end) <$> keys)
  = sumValues hi.
Proof.
  revert hi. induction keys as [|k ks IH]; intros hi Hnd Hndh Hin Hlook.
  - destruct hi as [|s hi]; [reflexivity|].
    exfalso. eapply elem_of_nil, (Hin s). left.
  - apply NoDup_cons in Hnd as [Hk Hnd]. cbn [fmap list_fmap sumZ].
    destruct (look k) as [s|] eqn:E.
    + apply Hlook in E as [Hs Hsk]; [|left].
      apply list_elem_of_split in Hs as (h1 & h2 & ->).
      rewrite fmap_app, fmap_cons in Hndh.
      apply NoDup_app in Hndh as (Hnd1 & Hdisj & Hnd2).
      apply NoDup_cons in Hnd2 as [Hs2 Hnd2].
      assert (Hother : forall s', s' ∈ h1 ++ h2 -> StartTime s' <> k).
      { intros s' Hs' Heq. apply elem_of_app in Hs' as [Hs'|Hs'].
        - apply (Hdisj (StartTime s')); [now apply list_elem_of_fmap_2|].
          rewrite Heq, <- Hsk. left.
        - apply Hs2. rewrite Hsk, <- Heq. now apply list_elem_of_fmap_2. }
      rewrite (IH (h1 ++ h2)).
      * rewrite !sumValues_app, sumValues_cons. lia.
      * exact Hnd.
      * rewrite fmap_app. apply NoDup_app. split; [exact Hnd1|]. split; [|exact Hnd2].
        intros x Hx1 Hx2. apply (Hdisj x Hx1). now right.
      * intros s' Hs'. pose proof (Hother s' Hs') as Hne.
        assert (Hs'' : s' ∈ h1 ++ s :: h2).
        { apply elem_of_app in Hs' as [?|?]; apply elem_of_app; [left|right; right]; assumption. }
        apply Hin in Hs''. apply elem_of_cons in Hs'' as [?|?]; [congruence|assumption].
      * intros k' s' Hk'. rewrite Hlook by now right.
        assert (k' <> k) by (intros ->; contradiction).
        split; intros [Hs' Hsk']; (split; [|exact Hsk']).
        -- apply elem_of_app in Hs' as [?|Hs']; [apply elem_of_app; now left|].
           apply elem_of_cons in Hs' as [->|?]; [congruence|apply elem_of_app; now right].
        -- apply elem_of_app in Hs' as [?|?]; apply elem_of_app; [left|right; right]; assumption.
    + assert (Hother : forall s', s' ∈ hi -> StartTime s' <> k).
      { intros s' Hs' Heq. assert (Hsome : look k = Some s') by (apply Hlook; [left|auto]).
        congruence. }
      rewrite (IH hi); [lia|assumption|assumption| |].
      * intros s' Hs'. pose proof (Hother s' Hs'). apply Hin in Hs'.
        apply elem_of_cons in Hs' as [?|?]; [congruence|assumption].
      * intros k' s' Hk'. apply Hlook. now right.
Qed.

Lemma queue_inv_NoDup (cfg : config) (q : list windowSegment) :
  queue_inv cfg q -> NoDup (StartTime <$> q).
Proof.
  induction q as [|f rest IH]; intros Hq; [constructor|].
  apply queue_inv_cons in Hq as (_ & Hrest & Hlt). rewrite fmap_cons.
  apply NoDup_cons. split; [|now apply IH].
  intros Hin. apply list_elem_of_fmap in Hin as (s & Hs & Hin).
  rewrite Forall_forall in Hlt. specialize (Hlt s Hin). lia.
Qed.

Lemma queue_inv_length (cfg : config) (lo B : Z) (hi : list windowSegment) :
  0 < WindowSegmentSize cfg ->
  queue_inv cfg hi ->
  Forall (fun s => lo <= StartTime s <= B) hi ->
  B mod WindowSegmentSize cfg = 0 ->
  Z.of_nat (length hi) * WindowSegmentSize cfg <= Z.max 0 (B - lo + WindowSegmentSize cfg).
Proof.
  intros Hseg. revert B. induction hi as [|f rest IH]; intros B Hq Hb HB.
  - cbn. lia.
  - apply queue_inv_cons in Hq as ([_ _ Hfa] & Hrest & Hlt).
    apply Forall_cons in Hb as [Hf Hb].
    specialize (IH (StartTime f - WindowSegmentSize cfg) Hrest).
    rewrite length_cons, Nat2Z.inj_succ.
    assert (Hb' : Forall (fun s => lo <= StartTime s <= StartTime f - WindowSegmentSize cfg) rest).
    { rewrite Forall_forall in *. intros s Hs. specialize (Hb s Hs). specialize (Hlt s Hs).
      destruct Hrest as [_ Hok]. rewrite Forall_forall in Hok. destruct (Hok s Hs) as [_ _ Hsa].
      pose proof (aligned_gap _ _ _ Hseg Hfa Hsa Hlt). lia. }
    specialize (IH Hb').
    assert (Hfa' : (StartTime f - WindowSegmentSize cfg) mod WindowSegmentSize cfg = 0).
    { rewrite Zminus_mod, Hfa, Z.mod_same by lia. reflexivity. }
    specialize (IH Hfa'). lia.
Qed.

Lemma sorted_fmap_seqZ (f : Z -> windowSegment) (n : nat) :
  (forall i j, 0 <= i < j -> j < Z.of_nat n -> newer (f i) (f j)) ->
  StronglySorted newer (f <$> seqZ 0 (Z.of_nat n)).
Proof.
  induction n as [|n IH]; intros Hf; [constructor|].
  rewrite seqZ_S, fmap_app. apply StronglySorted_app_2.
  - intros x y Hx Hy. apply list_elem_of_fmap in Hx as (i & -> & Hi).
    apply list_elem_of_fmap in Hy as (j & -> & Hj).
    apply elem_of_seqZ in Hi. apply list_elem_of_singleton in Hj as ->.
    apply Hf; lia.
  - apply IH. intros i j Hij Hj. apply Hf; lia.
  - repeat constructor.
Qed.

Lemma slotStart_exact (cfg : config) (req : submitRequest) (N i : Z) :
  valid_config cfg -> valid_request cfg req ->
  1 <= N <= NumSegments cfg -> 0 <= i < N ->
  slotStart cfg (RequestSegmentStartTime req) i
  = RequestSegmentStartTime req - i * WindowSegmentSize cfg.
Proof.
  intros Hc Hr HN Hi.
  destruct (request_facts cfg req Hc Hr) as (HS0 & HSt & HtS & HSa & HWS & HsegW).
  destruct Hc, Hr. unfold slotStart.
  assert (0 <= i * WindowSegmentSize cfg <= WindowSize cfg) by nia.
  unfold millisecond, two63, two64 in *.
  rewrite mul64_exact by (unfold two64; lia).
  apply sub64_exact. unfold two64. lia.
Qed.

(** [ensureLatestNSegments] keeps the rotated state: it replaces the segments
    of the newest [N] slots by the full run of slots, with the same values. *)
Lemma ensureLatestNSegments_inv (cfg : config) (req : submitRequest) (N : Z) (td : tenantData) :
  valid_config cfg -> valid_request cfg req -> rotated cfg req td ->
  1 <= N <= NumSegments cfg ->
  rotated cfg req (ensureLatestNSegments cfg req N td).
Proof.
  intros Hc Hr Hrot HN.
  destruct (request_facts cfg req Hc Hr) as (HS0 & HSt & HtS & HSa & HWS & HsegW).
  pose proof (fun i => slotStart_exact cfg req N i Hc Hr HN) as Hslot.
  pose proof (vc_seg cfg Hc) as Hseg. pose proof (vc_window cfg Hc) as HW.
  pose proof (vc_duration cfg Hc) as Hdur. pose proof (vr_time cfg req Hr) as Htime.
  assert (HN63 : N < two63) by (unfold millisecond, two63 in *; nia).
  unfold ensureLatestNSegments.
  destruct (scanLatestSegments cfg (RequestSegmentStartTime req) (WindowQueue td) N)
    as [rebuild cache] eqn:Hscan.
  destruct rebuild; cbn [negb]; [|exact Hrot].
  assert (Hcache : cache = cacheOf (take (Z.to_nat N) (WindowQueue td))).
  { pose proof (scan_cache cfg (RequestSegmentStartTime req) (WindowQueue td) (Z.to_nat N)) as H.
    rewrite Z2Nat.id, Hscan in H by lia. exact H. }
  clear Hscan.
  destruct Hrot as [[Hq Htot Hrange] (front & rest & Hqueue & Hfront) Hbound].
  set (R := RequestSegmentStartTime req - (N - 1) * WindowSegmentSize cfg).
  assert (HR : sub64 (RequestSegmentStartTime req) (mul64 (sub64 N 1) (WindowSegmentSize cfg)) = R).
  { rewrite (sub64_exact N 1) by (unfold two64, two63 in *; lia).
    apply (Hslot (N - 1)). lia. }
  assert (Htop : wrapS64 (sub64 N 1) + 1 = N) by word.
  rewrite HR, Htop.
  destruct (queue_split cfg R (WindowQueue td) Hq) as (hi & lo & Hsplit & Hhi & Hlo).
  rewrite Hsplit, rev_app_distr, keepOlderSegments_app, rev_involutive
    by (apply Forall_rev; assumption).
  rewrite Hsplit in Hq, Htot, Hbound, Hcache.
  apply queue_inv_app in Hq as (Hqhi & Hqlo & Hcross).
  rewrite sumValues_app in Htot. apply Forall_app in Hbound as [Hbhi Hblo].
  (* every segment of the queue starts at or before the request's segment *)
  assert (Hle : forall s, s ∈ hi -> StartTime s <= RequestSegmentStartTime req).
  { intros s Hs. rewrite Hsplit in Hqueue.
    assert (Hall : queue_inv cfg (front :: rest)).
    { rewrite <- Hqueue. apply queue_inv_app. auto. }
    apply queue_inv_le_front in Hall. rewrite Forall_forall in Hall.
    rewrite <- Hfront. apply Hall. rewrite <- Hqueue. apply elem_of_app. now left. }
  (* the slots *)
  set (slots := latestSlot cfg (RequestSegmentStartTime req) cache <$> seqZ 0 N).
  assert (Hstart : forall i, 0 <= i < N ->
            StartTime (latestSlot cfg (RequestSegmentStartTime req) cache i)
            = RequestSegmentStartTime req - i * WindowSegmentSize cfg).
  { intros i Hi. rewrite <- Hslot by exact Hi. unfold latestSlot, slotStart.
    destruct (cache !! _) as [s|] eqn:E; [|reflexivity].
    rewrite Hcache in E. now apply cacheOf_lookup_Some in E as [_ ->]. }
  assert (Hin_take : forall s, s ∈ take (Z.to_nat N) (hi ++ lo) -> s ∈ hi ++ lo).
  { intros s Hs. rewrite <- (take_drop (Z.to_nat N) (hi ++ lo)). apply elem_of_app. now left. }
  assert (Hslot_ok : forall i, 0 <= i < N ->
            segment_ok cfg (latestSlot cfg (RequestSegmentStartTime req) cache i)).
  { intros i Hi. pose proof (Hstart i Hi) as Hst. unfold latestSlot in *.
    destruct (cache !! _) as [s|] eqn:E.
    - rewrite Hcache in E. apply cacheOf_lookup_Some in E as [Hs _].
      apply Hin_take in Hs.
      assert (Hok : Forall (segment_ok cfg) (hi ++ lo)).
      { apply Forall_app. split; [apply Hqhi | apply Hqlo]. }
      rewrite Forall_forall in Hok. now apply Hok.
    - cbn [StartTime] in Hst. split; cbn [StartTime Value]; rewrite ?Hst.
      + unfold u64, two64, two63 in *. nia.
      + lia.
      + rewrite Zminus_mod, HSa, Z.mod_mul by lia. reflexivity. }
  assert (Hqslots : queue_inv cfg slots).
  { split.
    - subst slots. replace N with (Z.of_nat (Z.to_nat N)) by lia.
      apply sorted_fmap_seqZ. intros i j Hij Hj. unfold newer.
      rewrite !Hstart by lia. nia.
    - subst slots. apply Forall_fmap, Forall_seqZ. intros i Hi. apply Hslot_ok. lia. }
  assert (Hlen : (length hi <= Z.to_nat N)%nat).
  { pose proof (queue_inv_length cfg R (RequestSegmentStartTime req) hi Hseg Hqhi) as Hl.
    assert (Hb : Forall (fun s => R <= StartTime s <= RequestSegmentStartTime req) hi).
    { rewrite Forall_forall in *. intros s Hs. split; [now apply Hhi | now apply Hle]. }
    specialize (Hl Hb HSa). subst R.
    assert (Z.of_nat (length hi) <= N) by nia. lia. }
  assert (Hsum : sumValues slots = sumValues hi).
  { unfold sumValues at 1. subst slots. rewrite <- list_fmap_compose.
    rewrite <- (sum_over_keys (fun k => cache !! k)
                  (slotStart cfg (RequestSegmentStartTime req) <$> seqZ 0 N) hi).
    - rewrite <- list_fmap_compose. f_equal. apply list_fmap_ext. intros _ i _. cbn.
      unfold latestSlot, slotStart. now destruct (cache !! _).
    - apply NoDup_fmap_2_strong; [|apply NoDup_seqZ].
      intros i j Hi Hj Heq. apply elem_of_seqZ in Hi, Hj.
      rewrite !Hslot in Heq by lia. nia.
    - now apply (queue_inv_NoDup cfg).
    - intros s Hs. rewrite Forall_forall in Hhi. pose proof (Hhi s Hs) as Hs1.
      pose proof (Hle s Hs) as Hs2.
      destruct Hqhi as [_ Hok]. rewrite Forall_forall in Hok. destruct (Hok s Hs) as [_ _ Hsa].
      assert (Hdiv : (RequestSegmentStartTime req - StartTime s) mod WindowSegmentSize cfg = 0).
      { rewrite Zminus_mod, HSa, Hsa. apply Z.mod_0_l. lia. }
      apply Z.mod_divide in Hdiv; [|lia]. destruct Hdiv as [m Hm].
      apply list_elem_of_fmap. exists m. subst R.
      assert (0 <= m < N) by nia.
      split; [rewrite Hslot by lia; lia | apply elem_of_seqZ; lia].
    - intros k s Hk. apply list_elem_of_fmap in Hk as (i & -> & Hi).
      apply elem_of_seqZ in Hi. rewrite Hslot by lia. rewrite Hcache. split.
      + intros E. apply cacheOf_lookup_Some in E as [Hs Hk]. split; [|exact Hk].
        apply Hin_take in Hs. apply elem_of_app in Hs as [Hs|Hs]; [exact Hs|].
        rewrite Forall_forall in Hlo. specialize (Hlo s Hs). subst R. nia.
      + intros [Hs Hk]. rewrite <- Hk. apply cacheOf_lookup_NoDup.
        * apply (queue_inv_NoDup cfg).
          assert (Hall : queue_inv cfg (take (Z.to_nat N) (hi ++ lo) ++ drop (Z.to_nat N) (hi ++ lo))).
          { rewrite take_drop. apply queue_inv_app. auto. }
          now apply queue_inv_app in Hall as (Ht & _ & _).
        * rewrite take_app. apply elem_of_app. left. now rewrite take_ge by lia. }
  split; cbn [setQueue WindowQueue WindowTotal].
  - split; cbn [setQueue WindowQueue WindowTotal].
    + apply queue_inv_app. split; [exact Hqslots|]. split; [exact Hqlo|].
      intros x y Hx Hy. subst slots. apply list_elem_of_fmap in Hx as (i & -> & Hi).
      apply elem_of_seqZ in Hi. rewrite Hstart by lia.
      rewrite Forall_forall in Hlo. specialize (Hlo y Hy). subst R. nia.
    + rewrite sumValues_app, Hsum. exact Htot.
    + exact Hrange.
  - subst slots. rewrite (seqZ_cons 0 N) by lia. rewrite fmap_cons. cbn [app].
    eexists _, _. split; [reflexivity|]. rewrite Hstart by lia. lia.
  - apply Forall_app. split; [|exact Hblo].
    subst slots. apply Forall_fmap, Forall_seqZ. intros i Hi. cbn.
    rewrite Hstart by lia. nia.
Qed.

(** ** Queues with the same start times *)

Lemma queue_inv_same_starts (cfg : config) (q q' : list windowSegment) :
  StartTime <$> q' = StartTime <$> q ->
  Forall (fun s => 0 <= Value s) q' ->
  queue_inv cfg q -> queue_inv cfg q'.
Proof.
  revert q'. induction q as [|s q IH]; intros q' Hst Hv Hq.
  - destruct q'; [apply queue_inv_nil|discriminate].
  - destruct q' as [|s' q']; [discriminate|].
    rewrite !fmap_cons in Hst. injection Hst as Hs Hst.
    apply Forall_cons in Hv as [Hv' Hv].
    apply queue_inv_cons in Hq as ([Hs1 Hs2 Hs3] & Hq & Hlt).
    apply queue_inv_cons. split; [split; rewrite ?Hs; assumption|].
    split; [now apply IH|].
    rewrite Hs. apply (Forall_fmap StartTime (fun x => x < StartTime s)).
    rewrite Hst. now apply Forall_fmap.
Qed.

Lemma rotated_same_starts (cfg : config) (req : submitRequest) (td td' : tenantData) :
  rotated cfg req td ->
  StartTime <$> WindowQueue td' = StartTime <$> WindowQueue td ->
  Forall (fun s => 0 <= Value s) (WindowQueue td') ->
  WindowTotal td' = sumValues (WindowQueue td') ->
  WindowTotal td' < two64 ->
  rotated cfg req td'.
Proof.
  intros [[Hq Htot Hrange] (front & rest & Hqueue & Hfront) Hbound] Hst Hv Htot' Hrange'.
  split.
  - split; [|assumption|assumption]. now apply (queue_inv_same_starts cfg (WindowQueue td)).
  - rewrite Hqueue in Hst. destruct (WindowQueue td') as [|front' rest']; [discriminate|].
    rewrite !fmap_cons in Hst. injection Hst as Hs _.
    exists front', rest'. split; [reflexivity|congruence].
  - apply (Forall_fmap StartTime (fun x => RequestedTimestamp req < x + WindowSize cfg)).
    rewrite Hst. now apply Forall_fmap.
Qed.

Lemma addShares_cons (sv : Z) (dist : list Z) (s : windowSegment) (q : list windowSegment) :
  addShares (sv :: dist) (s :: q)
  = {| StartTime := StartTime s; Value := add64 (Value s) sv |} :: addShares dist q.
Proof. reflexivity. Qed.

Lemma addShares_nil (q : list windowSegment) : addShares [] q = q.
Proof. unfold addShares. cbn. now rewrite drop_0. Qed.

Lemma addShares_starts (dist : list Z) (q : list windowSegment) :
  (length dist <= length q)%nat ->
  StartTime <$> addShares dist q = StartTime <$> q.
Proof.
  revert q. induction dist as [|sv dist IH]; intros q Hlen.
  - now rewrite addShares_nil.
  - destruct q as [|s q]; cbn [length] in Hlen; [lia|].
    rewrite addShares_cons, !fmap_cons, IH by lia. reflexivity.
Qed.

Lemma addShares_values (dist : list Z) (q : list windowSegment) :
  (length dist <= length q)%nat ->
  Forall (fun s => 0 <= Value s) q ->
  Forall (fun s => 0 <= Value s) (addShares dist q).
Proof.
  revert q. induction dist as [|sv dist IH]; intros q Hlen Hv.
  - now rewrite addShares_nil.
  - destruct q as [|s q]; cbn [length] in Hlen; [lia|].
    apply Forall_cons in Hv as [_ Hv]. rewrite addShares_cons.
    constructor; [|apply IH; [lia|exact Hv]].
    cbn [Value]. pose proof (add64_u64 (Value s) sv) as Hu. unfold u64 in Hu. lia.
Qed.

Lemma addShares_sum (dist : list Z) (q : list windowSegment) :
  (length dist <= length q)%nat ->
  Forall (fun s => 0 <= Value s) q -> Forall (fun sv => 0 <= sv) dist ->
  sumValues q + sumZ dist < two64 ->
  sumValues (addShares dist q) = sumValues q + sumZ dist.
Proof.
  revert q. induction dist as [|sv dist IH]; intros q Hlen Hv Hd Hsum.
  - rewrite addShares_nil. cbn. lia.
  - destruct q as [|s q]; cbn [length] in Hlen; [lia|].
    apply Forall_cons in Hv as [Hs Hv]. apply Forall_cons in Hd as [Hsv Hd].
    rewrite addShares_cons, !sumValues_cons in *. cbn [Value sumZ] in *.
    pose proof (sumValues_nonneg q Hv).
    assert (0 <= sumZ dist).
    { clear -Hd. induction Hd; cbn; lia. }
    rewrite IH by (assumption || lia). rewrite add64_exact by lia. lia.
Qed.

(** The result of [distributePenalty] as an equation. *)
Lemma distributePenalty_eq (cfg : config) (req : submitRequest) (A N : Z) (td : tenantData) :
  1 <= A < two64 -> 1 <= N < two63 ->
  let span := if A <? N then A else N in
  let td1 := ensureLatestNSegments cfg req span td in
  let dist := penaltyShare A span <$> seqZ 0 span in
  distributePenalty cfg req A N td
  = Some (setQueue td1 (addShares dist (WindowQueue td1)) (add64 (WindowTotal td) A)).
Proof.
  intros HA HN span td1 dist.
  assert (Hspan : 1 <= span < two63 /\ span <= A).
  { subst span. destruct (Z.ltb_spec A N); lia. }
  destruct Hspan as [Hspan HspanA].
  pose proof (distribution_shares A N HA ltac:(lia)) as Hdist.
  unfold distributePenalty.
  destruct (Z.leb_spec A 0); [lia|].
  destruct (Z.eqb_spec N 0); [lia|].
  destruct (if A / N <? 1 then (A, 1) else (N, A / N)) as [numSegmentsMax amountPerSegment].
  cbn zeta in Hdist. destruct Hdist as [-> Hdist]. fold span in Hdist. fold span.
  rewrite Hdist. fold td1. fold dist.
  pose proof (ensureLatestNSegments_length cfg req span td Hspan) as Hlen. fold td1 in Hlen.
  destruct (ensureLatestNSegments_fields cfg req span td) as (Htot & _). fold td1 in Htot.
  assert (Hdlen : length dist = Z.to_nat span).
  { subst dist. now rewrite length_fmap, length_seqZ. }
  rewrite addDistribution_addShares by lia. cbn [mbind option_bind].
  rewrite foldl_add64_ne.
  - subst dist. rewrite sum_penaltyShare, Htot by lia. reflexivity.
  - intros E. rewrite E in Hdlen. cbn in Hdlen. lia.
Qed.

(** [distributePenalty] keeps the rotated state and adds the amount to the
    total. *)
Lemma distributePenalty_inv (cfg : config) (req : submitRequest) (A N : Z) (td : tenantData) :
  valid_config cfg -> valid_request cfg req -> rotated cfg req td ->
  0 <= A -> WindowTotal td + A < two64 ->
  1 <= N <= NumSegments cfg ->
  exists td',
    distributePenalty cfg req A N td = Some td' /\
    rotated cfg req td' /\
    WindowTotal td' = WindowTotal td + A /\
    WasOver td' = WasOver td /\ Version td' = Version td.
Proof.
  intros Hc Hr Hrot HA Hsum HN.
  destruct (Z.eq_dec A 0) as [->|HA0].
  { exists td. unfold distributePenalty. cbn. repeat split; try assumption; try lia.
    all: apply Hrot. }
  assert (Htot0 : 0 <= WindowTotal td).
  { destruct Hrot as [[Hq Htot _] _ _]. rewrite Htot.
    apply sumValues_nonneg. now apply (queue_inv_values cfg). }
  assert (HN63 : N < two63).
  { destruct Hc. unfold millisecond, two63 in *. nia. }
  rewrite distributePenalty_eq by (unfold two64 in *; lia).
  set (span := if A <? N then A else N).
  assert (Hspan : 1 <= span <= NumSegments cfg /\ span <= A /\ span <= N).
  { subst span. destruct (Z.ltb_spec A N); lia. }
  destruct Hspan as (Hspan & HspanA & HspanN).
  pose proof (ensureLatestNSegments_inv cfg req span td Hc Hr Hrot Hspan) as Hrot1.
  pose proof (ensureLatestNSegments_length cfg req span td ltac:(lia)) as Hlen.
  destruct (ensureLatestNSegments_fields cfg req span td) as (Htot & Hover & Hver).
  set (td1 := ensureLatestNSegments cfg req span td) in *.
  set (dist := penaltyShare A span <$> seqZ 0 span).
  assert (Hdlen : length dist = Z.to_nat span).
  { subst dist. now rewrite length_fmap, length_seqZ. }
  assert (Hdsum : sumZ dist = A) by (apply sum_penaltyShare; lia).
  assert (Hdpos : Forall (fun sv => 0 <= sv) dist).
  { subst dist. apply Forall_fmap, Forall_forall. intros i _. cbn.
    pose proof (penaltyShare_pos A span i ltac:(lia)). lia. }
  destruct Hrot1 as [[Hq1 Htot1 Hrange1] Hfront1 Hbound1].
  pose proof (queue_inv_values cfg _ Hq1) as Hv1.
  eexists. split; [reflexivity|].
  rewrite add64_exact by lia.
  split; [|cbn [setQueue WindowTotal WasOver Version]; auto].
  apply (rotated_same_starts cfg req td1); cbn [setQueue WindowQueue WindowTotal].
  - split; [split; assumption|assumption|assumption].
  - apply addShares_starts. lia.
  - apply addShares_values; [lia|exact Hv1].
  - rewrite addShares_sum by (assumption || lia). lia.
  - exact Hsum.
Qed.

(** ** Capping *)

Lemma fmap_rev {A B} (f : A -> B) (l : list A) : f <$> rev l = rev (f <$> l).
Proof.
  induction l as [|x l IH]; [reflexivity|].
  cbn [rev]. rewrite fmap_app, IH. reflexivity.
Qed.

Lemma shaveOldestSegments_spec (l : list windowSegment) (amount total : Z) :
  Forall (fun s => 0 <= Value s) l ->
  0 <= amount <= sumValues l ->
  sumValues l <= total < two64 ->
  exists l' pre,
    shaveOldestSegments l amount total = (l', 0, total - amount) /\
    sumValues l' = sumValues l - amount /\
    Forall (fun s => 0 <= Value s) l' /\
    StartTime <$> l = pre ++ (StartTime <$> l').
Proof.
  revert amount total. induction l as [|o rest IH]; intros amount total Hv Ha Ht.
  - cbn in Ha. assert (amount = 0) by lia. subst.
    exists [], []. cbn. repeat split; try constructor. repeat (f_equal; try lia).
  - apply Forall_cons in Hv as [Ho Hv]. rewrite sumValues_cons in *.
    pose proof (sumValues_nonneg rest Hv) as Hnn.
    cbn [shaveOldestSegments].
    destruct (Z.leb_spec amount 0) as [Hz|Hpos].
    { assert (amount = 0) by lia. subst.
      exists (o :: rest), []. rewrite sumValues_cons.
      split; [repeat (f_equal; try lia)|]. split; [lia|]. split; [now constructor|reflexivity]. }
    destruct (Z.leb_spec amount (Value o)) as [Hle|Hgt].
    + rewrite !sub64_exact by lia.
      destruct (Z.leb_spec (Value o - amount) 0) as [Hv0|Hvpos].
      * destruct (IH 0 (total - amount) Hv ltac:(lia) ltac:(lia)) as (l' & pre & -> & Hsum & Hv' & Hst).
        exists l', (StartTime o :: pre).
        split; [repeat (f_equal; try lia)|]. split; [lia|]. split; [exact Hv'|].
        rewrite fmap_cons, Hst. reflexivity.
      * eexists _, []. split; [reflexivity|]. rewrite sumValues_cons. cbn [Value StartTime].
        split; [lia|]. split; [constructor; [cbn; lia|exact Hv]|reflexivity].
    + rewrite !sub64_exact by lia.
      destruct (IH (amount - Value o) (total - Value o) Hv ltac:(lia) ltac:(lia))
        as (l' & pre & -> & Hsum & Hv' & Hst).
      exists l', (StartTime o :: pre).
      split; [repeat (f_equal; try lia)|]. split; [lia|]. split; [exact Hv'|].
      rewrite fmap_cons, Hst. reflexivity.
Qed.

Lemma rotated_prefix_starts (cfg : config) (req : submitRequest) (td td' : tenantData)
    (more : list Z) :
  rotated cfg req td ->
  StartTime <$> WindowQueue td = (StartTime <$> WindowQueue td') ++ more ->
  WindowQueue td' <> [] ->
  Forall (fun s => 0 <= Value s) (WindowQueue td') ->
  WindowTotal td' = sumValues (WindowQueue td') ->
  WindowTotal td' < two64 ->
  rotated cfg req td'.
Proof.
  intros Hrot Hst Hne Hv Htot Hrange.
  apply fmap_app_inv in Hst as (l1 & l2 & Hst1 & _ & Hsplit).
  destruct Hrot as [[Hq Htot0 Hrange0] (front & rest & Hqueue & Hfront) Hbound].
  rewrite Hsplit in Hq, Hbound, Htot0, Hqueue.
  apply queue_inv_app in Hq as (Hq1 & Hq2 & _). apply Forall_app in Hbound as [Hb1 _].
  pose proof (sumValues_nonneg _ (queue_inv_values cfg _ Hq2)) as Hn2.
  rewrite sumValues_app in Htot0.
  apply (rotated_same_starts cfg req (setQueue td l1 (sumValues l1)));
    cbn [setQueue WindowQueue WindowTotal]; try assumption.
  split; cbn [setQueue WindowQueue WindowTotal].
  - split; cbn [setQueue WindowQueue WindowTotal]; [assumption|reflexivity|lia].
  - destruct l1 as [|f1 r1].
    + destruct (WindowQueue td'); [contradiction|discriminate].
    + cbn [app] in Hqueue. injection Hqueue as -> _. eexists _, _. split; [reflexivity|exact Hfront].
  - exact Hb1.
Qed.

Lemma removeFromOldestSegments_inv (cfg : config) (req : submitRequest) (amount : Z)
    (td : tenantData) :
  valid_config cfg -> valid_request cfg req -> rotated cfg req td ->
  0 <= amount <= WindowTotal td ->
  rotated cfg req (removeFromOldestSegments req amount td) /\
  WindowTotal (removeFromOldestSegments req amount td) = WindowTotal td - amount /\
  WasOver (removeFromOldestSegments req amount td) = WasOver td /\
  Version (removeFromOldestSegments req amount td) = Version td /\
  ((exists more,
       StartTime <$> WindowQueue td
       = (StartTime <$> WindowQueue (removeFromOldestSegments req amount td)) ++ more) \/
   WindowQueue (removeFromOldestSegments req amount td)
   = [ {| StartTime := RequestSegmentStartTime req; Value := 0 |} ]).
Proof.
  intros Hc Hr Hrot Ha.
  destruct (request_facts cfg req Hc Hr) as (HS0 & HSt & HtS & HSa & HWS & HsegW).
  pose proof Hrot as [[Hq Htot Hrange] _ _].
  pose proof (queue_inv_values cfg _ Hq) as Hv.
  unfold removeFromOldestSegments.
  destruct (shaveOldestSegments_spec (rev (WindowQueue td)) amount (WindowTotal td))
    as (l' & pre & -> & Hsum & Hv' & Hst).
  { now apply Forall_rev. }
  { rewrite sumValues_rev. lia. }
  { rewrite sumValues_rev. lia. }
  rewrite sumValues_rev in Hsum.
  destruct (rev l') as [|f q'] eqn:Hrev.
  - cbn [setQueue WindowTotal WasOver Version WindowQueue].
    split; [|split; [auto|split; [auto|split; [auto|now right]]]].
    assert (l' = []) by (apply (f_equal (@rev _)) in Hrev; now rewrite rev_involutive in Hrev).
    subst l'. cbn in Hsum.
    split; cbn [setQueue WindowQueue WindowTotal].
    + split; cbn [setQueue WindowQueue WindowTotal]; [|cbn; lia|lia].
      apply queue_inv_cons. split; [|split; [apply queue_inv_nil|constructor]].
      split; cbn; [|lia|assumption].
      destruct Hr. unfold u64, two64, two63 in *. lia.
    + eexists _, _. split; reflexivity.
    + constructor; [cbn; lia|constructor].
  - assert (Hstarts : StartTime <$> WindowQueue td = (StartTime <$> f :: q') ++ rev pre).
    { rewrite <- Hrev, !fmap_rev, <- rev_app_distr, <- Hst, fmap_rev.
      now rewrite rev_involutive. }
    cbn [setQueue WindowTotal WasOver Version WindowQueue].
    split; [|split; [auto|split; [auto|split; [auto|left; now exists (rev pre)]]]].
    apply (rotated_prefix_starts cfg req td _ (rev pre)); cbn [setQueue WindowQueue WindowTotal].
    + exact Hrot.
    + exact Hstarts.
    + discriminate.
    + rewrite <- Hrev. now apply Forall_rev.
    + rewrite <- Hrev, sumValues_rev. lia.
    + lia.
Qed.

Lemma applyCapping_inv (cfg : config) (req : submitRequest) (td : tenantData) :
  valid_config cfg -> valid_request cfg req -> rotated cfg req td ->
  rotated cfg req (applyCapping cfg req td) /\
  WindowTotal (applyCapping cfg req td) = Z.min (WindowTotal td) (AbsoluteMaxPenaltyCap cfg) /\
  WasOver (applyCapping cfg req td) = WasOver td /\
  Version (applyCapping cfg req td) = Version td /\
  ((exists more,
       StartTime <$> WindowQueue td
       = (StartTime <$> WindowQueue (applyCapping cfg req td)) ++ more) \/
   WindowQueue (applyCapping cfg req td)
   = [ {| StartTime := RequestSegmentStartTime req; Value := 0 |} ]).
Proof.
  intros Hc Hr Hrot. unfold applyCapping. rewrite (vc_capping cfg Hc). cbn [negb].
  pose proof (vc_cap cfg Hc) as Hcap. pose proof (vc_max cfg Hc) as Hmax.
  pose proof Hrot as [[_ _ Hrange] _ _].
  destruct (Z.ltb_spec (AbsoluteMaxPenaltyCap cfg) (WindowTotal td)) as [Hover|Hle].
  - rewrite sub64_exact by lia.
    destruct (removeFromOldestSegments_inv cfg req
                (WindowTotal td - AbsoluteMaxPenaltyCap cfg) td Hc Hr Hrot ltac:(lia))
      as (H1 & H2 & H3 & H4 & H5).
    split; [exact H1|]. split; [rewrite H2; lia|]. split; [assumption|]. split; assumption.
  - split; [exact Hrot|]. split; [lia|]. split; [reflexivity|]. split; [reflexivity|].
    left. exists []. now rewrite app_nil_r.
Qed.

(** ** The accept path keeps the invariants *)

Lemma acceptLoad_inv (cfg : config) (req : submitRequest) (td : tenantData) :
  valid_config cfg -> valid_request cfg req -> rotated cfg req td ->
  WindowTotal td < two63 ->
  exists td',
    acceptLoad cfg req td = Some td' /\
    rotated cfg req td' /\
    WindowTotal td' = Z.min (WindowTotal td + RequestedLoad req) (AbsoluteMaxPenaltyCap cfg) /\
    WasOver td' = false.
Proof.
  intros Hc Hr Hrot Hlt.
  pose proof (vr_load cfg req Hr) as Hload.
  pose proof Hrot as [[Hq Htot Hrange] (front & rest & Hqueue & Hfront) Hbound].
  pose proof (queue_inv_values cfg _ Hq) as Hv.
  unfold acceptLoad. rewrite Hqueue.
  rewrite Hqueue in Hv, Htot. apply Forall_cons in Hv as [Hfv Hv].
  pose proof (sumValues_nonneg _ Hv) as Hnn. rewrite sumValues_cons in Htot.
  set (td1 := {| WindowQueue := _; WasOver := false; WindowTotal := _; Version := _ |}).
  assert (Hrot1 : rotated cfg req td1).
  { apply (rotated_same_starts cfg req td _ Hrot); subst td1; cbn [WindowQueue WindowTotal].
    - rewrite Hqueue. reflexivity.
    - constructor; [|exact Hv]. cbn [Value].
      pose proof (add64_u64 (Value front) (RequestedLoad req)) as Hu. unfold u64 in Hu. lia.
    - rewrite sumValues_cons. cbn [Value].
      rewrite !add64_exact by (unfold two64, two63 in *; lia). lia.
    - apply add64_u64. }
  destruct (applyCapping_inv cfg req td1 Hc Hr Hrot1) as (Hrot2 & Htot2 & Hover2 & _ & _).
  eexists. split; [reflexivity|].
  split; [eapply rotated_ext; [| |exact Hrot2]; reflexivity|].
  cbn [markDirty WindowTotal WasOver]. rewrite Htot2, Hover2. subst td1. cbn [WindowTotal WasOver].
  rewrite add64_exact by (unfold two64, two63 in *; lia). auto.
Qed.

(** ** Retry-in *)

Lemma walkOldestSegments_done (l : list windowSegment) (toFree m : Z) :
  toFree <= 0 -> walkOldestSegments l toFree m = (toFree, m).
Proof.
  intros H. destruct l as [|s l]; [reflexivity|]. cbn [walkOldestSegments].
  destruct (Z.ltb_spec 0 toFree); [lia|reflexivity].
Qed.

Lemma walkOldestSegments_spec (l : list windowSegment) (toFree m : Z) :
  Forall (fun s => 0 <= Value s) l ->
  0 < toFree <= sumValues l -> sumValues l < two63 ->
  exists s toFree',
    lastContributing l toFree = Some s /\ s ∈ l /\
    walkOldestSegments l toFree m = (toFree', StartTime s) /\ toFree' <= 0.
Proof.
  revert toFree m. induction l as [|s rest IH]; intros toFree m Hv Ht Hs.
  - cbn in Ht. lia.
  - apply Forall_cons in Hv as [Hsv Hv]. rewrite sumValues_cons in *.
    pose proof (sumValues_nonneg _ Hv) as Hnn.
    cbn [walkOldestSegments lastContributing].
    destruct (Z.ltb_spec 0 toFree); [|lia].
    assert (Hstep : (if 0 <? Value s then subS64 toFree (wrapS64 (Value s)) else toFree)
                    = toFree - Value s).
    { destruct (Z.ltb_spec 0 (Value s)); [|lia].
      rewrite wrapS64_small by lia. apply wrapS64_range. unfold two63 in *. lia. }
    rewrite Hstep.
    destruct (Z.leb_spec (toFree - Value s) 0) as [Hdone|Hmore].
    + exists s, (toFree - Value s). rewrite walkOldestSegments_done by exact Hdone.
      repeat split; try reflexivity; [left|exact Hdone].
    + destruct (IH (toFree - Value s) (StartTime s) Hv ltac:(lia) ltac:(lia))
        as (s' & toFree' & Hlast & Hin & Hwalk & Hle).
      exists s', toFree'. repeat split; try assumption. now right.
Qed.

Lemma toFree_exact (l t m : Z) :
  0 <= l < two63 -> 0 <= t < two63 -> 0 < m < two63 -> l <= m ->
  subS64 (addS64 (wrapS64 l) (wrapS64 t)) (wrapS64 m) = l + t - m.
Proof. intros. word. Qed.

(** The three outcomes of [computeRetryIn] on a rotated tenant. *)
Lemma computeRetryIn_cases (cfg : config) (req : submitRequest) (td : tenantData) :
  valid_config cfg -> valid_request cfg req -> rotated cfg req td ->
  WindowTotal td < two63 ->
  (MaxLoad cfg < RequestedLoad req ->
   computeRetryIn cfg req td = Some (Err ErrExcessiveLoad)) /\
  (RequestedLoad req <= MaxLoad cfg ->
   RequestedLoad req + WindowTotal td <= MaxLoad cfg ->
   computeRetryIn cfg req td = Some (Ok 0)) /\
  (RequestedLoad req <= MaxLoad cfg ->
   MaxLoad cfg < RequestedLoad req + WindowTotal td ->
   exists s,
     lastContributing (rev (WindowQueue td))
       (RequestedLoad req + WindowTotal td - MaxLoad cfg) = Some s /\
     s ∈ WindowQueue td /\
     computeRetryIn cfg req td
       = Some (Ok (millisecond * (StartTime s + WindowSize cfg - RequestedTimestamp req))) /\
     0 < StartTime s + WindowSize cfg - RequestedTimestamp req <= WindowSize cfg).
Proof.
  intros Hc Hr Hrot Hlt.
  destruct (request_facts cfg req Hc Hr) as (HS0 & HSt & HtS & HSa & HWS & HsegW).
  pose proof (vr_load cfg req Hr) as Hload. pose proof (vr_time cfg req Hr) as Htime.
  pose proof (vc_cap cfg Hc) as Hcap. pose proof (vc_max cfg Hc) as Hmax.
  pose proof (vc_duration cfg Hc) as Hdur.
  pose proof Hrot as [[Hq Htot Hrange] (front & rest & Hqueue & Hfront) Hbound].
  pose proof (queue_inv_values cfg _ Hq) as Hv.
  pose proof (sumValues_nonneg _ Hv) as Hnn.
  assert (HtoFree : RequestedLoad req <= MaxLoad cfg ->
                    subS64 (addS64 (wrapS64 (RequestedLoad req)) (wrapS64 (WindowTotal td)))
                      (wrapS64 (MaxLoad cfg))
                    = RequestedLoad req + WindowTotal td - MaxLoad cfg).
  { intros Hle. apply toFree_exact; lia. }
  unfold computeRetryIn. split; [|split].
  - intros Hex. destruct (Z.ltb_spec (MaxLoad cfg) (RequestedLoad req)); [reflexivity|lia].
  - intros Hle Hfit. destruct (Z.ltb_spec (MaxLoad cfg) (RequestedLoad req)); [lia|].
    rewrite HtoFree by lia.
    destruct (Z.leb_spec (RequestedLoad req + WindowTotal td - MaxLoad cfg) 0);
      [reflexivity|lia].
  - intros Hle Hover. destruct (Z.ltb_spec (MaxLoad cfg) (RequestedLoad req)); [lia|].
    rewrite HtoFree by lia.
    destruct (Z.leb_spec (RequestedLoad req + WindowTotal td - MaxLoad cfg) 0);
      [lia|].
    destruct (walkOldestSegments_spec (rev (WindowQueue td))
                (RequestedLoad req + WindowTotal td - MaxLoad cfg) 0)
      as (s & toFree' & Hlast & Hin & -> & Hdone).
    { now apply Forall_rev. }
    { rewrite sumValues_rev. lia. }
    { rewrite sumValues_rev. lia. }
    assert (Hs : s ∈ WindowQueue td).
    { apply list_elem_of_In in Hin. apply in_rev in Hin. now apply list_elem_of_In. }
    rewrite Forall_forall in Hbound. pose proof (Hbound s Hs) as Hsb.
    assert (Hsle : StartTime s <= RequestSegmentStartTime req).
    { rewrite Hqueue in Hq, Hs. apply queue_inv_le_front in Hq.
      rewrite Forall_forall in Hq. rewrite <- Hfront. now apply Hq. }
    exists s. split; [exact Hlast|]. split; [exact Hs|].
    destruct (Z.eqb_spec (StartTime s) 0); [lia|].
    destruct (Z.ltb_spec 0 toFree'); [lia|]. cbn [orb].
    assert (HW : WindowSize cfg < two63) by (unfold millisecond, two63 in *; lia).
    rewrite add64_exact by (unfold two64, two63 in *; lia).
    destruct (Z.ltb_spec (StartTime s + WindowSize cfg) (RequestedTimestamp req)); [lia|].
    rewrite sub64_exact by (unfold two64, two63 in *; lia).
    rewrite wrapS64_small by (unfold two63 in *; lia).
    unfold mulS64. rewrite wrapS64_small by (unfold millisecond, two63 in *; nia).
    split; [reflexivity|lia].
Qed.

Lemma computeRetryIn_nonneg (cfg : config) (req : submitRequest) (td : tenantData) :
  valid_config cfg -> valid_request cfg req -> rotated cfg req td ->
  WindowTotal td < two63 ->
  exists r,
    computeRetryIn cfg req td = Some r /\
    match r with Ok d => 0 <= d | Err _ => True end.
Proof.
  intros Hc Hr Hrot Hlt.
  destruct (computeRetryIn_cases cfg req td Hc Hr Hrot Hlt) as (H1 & H2 & H3).
  destruct (Z.lt_ge_cases (MaxLoad cfg) (RequestedLoad req)) as [Hex|Hle].
  - eexists. split; [now apply H1|exact I].
  - destruct (Z.lt_ge_cases (MaxLoad cfg) (RequestedLoad req + WindowTotal td)) as [Hover|Hfit].
    + destruct (H3 ltac:(lia) Hover) as (s & _ & _ & -> & Hpos).
      eexists. split; [reflexivity|]. unfold millisecond. lia.
    + eexists. split; [apply H2; lia|]. cbn. lia.
Qed.

(** ** The reject path keeps the invariants *)

Lemma rotated_setWasOver (cfg : config) (req : submitRequest) (td : tenantData) (b : bool) :
  rotated cfg req td -> rotated cfg req (setWasOver td b).
Proof. apply rotated_ext; reflexivity. Qed.

Lemma rotated_markDirty (cfg : config) (req : submitRequest) (td : tenantData) :
  rotated cfg req td -> rotated cfg req (markDirty td).
Proof. apply rotated_ext; reflexivity. Qed.

Lemma rejectPenalty_inv (cfg : config) (req : submitRequest) (td : tenantData) :
  valid_config cfg -> valid_request cfg req -> rotated cfg req td ->
  WindowTotal td <= AbsoluteMaxPenaltyCap cfg ->
  exists td1 someAdded dirty,
    rejectPenalty cfg req td = Some (td1, someAdded, dirty) /\
    rotated cfg req td1 /\
    WasOver td1 = true /\
    (someAdded = false -> WindowTotal td1 = WindowTotal td).
Proof.
  intros Hc Hr Hrot Hcapped.
  pose proof (vc_cap cfg Hc) as Hcap. pose proof (vc_overstep cfg Hc) as Hov.
  unfold rejectPenalty. destruct (WasOver td) eqn:Hwas; cbn [negb].
  - destruct (ApplyRequestOverheadPenalty cfg) eqn:Happly.
    + destruct (Z.leb_spec 1 (RequestOverheadPenalty cfg (RequestedLoad req))) as [Hpen|Hpen].
      * pose proof (vc_overhead cfg Hc (RequestedLoad req)) as Hlt.
        rewrite wrap64_id by (unfold u64, two64, two63 in *; lia).
        destruct (distributePenalty_inv cfg req
                    (RequestOverheadPenalty cfg (RequestedLoad req))
                    (RequestOverheadPenaltySegmentSpan cfg) td Hc Hr Hrot)
          as (td1 & -> & Hrot1 & Htot1 & Hover1 & _).
        { lia. }
        { unfold two64, two63 in *. lia. }
        { now apply (vc_overhead_span cfg Hc). }
        cbn [mbind option_bind]. eexists _, _, _. split; [reflexivity|].
        split; [exact Hrot1|]. split; [congruence|discriminate].
      * eexists _, _, _. split; [reflexivity|]. auto.
    + eexists _, _, _. split; [reflexivity|]. auto.
  - destruct (ApplyOverstepPenalty cfg) eqn:Happly.
    + destruct (distributePenalty_inv cfg req (AbsoluteOverstepPenalty cfg)
                  (OverstepPenaltySegmentSpan cfg) td Hc Hr Hrot)
        as (td1 & -> & Hrot1 & Htot1 & Hover1 & _).
      { lia. }
      { unfold two64, two63 in *. lia. }
      { now apply (vc_overstep_span cfg Hc). }
      cbn [mbind option_bind]. eexists _, _, _. split; [reflexivity|].
      split; [now apply rotated_setWasOver|]. split; [reflexivity|discriminate].
    + cbn [mbind option_bind]. eexists _, _, _. split; [reflexivity|].
      split; [now apply rotated_setWasOver|]. split; reflexivity.
Qed.

Lemma rejectLoad_inv (cfg : config) (req : submitRequest) (td : tenantData) :
  valid_config cfg -> valid_request cfg req -> rotated cfg req td ->
  WindowTotal td <= AbsoluteMaxPenaltyCap cfg ->
  exists td' res,
    rejectLoad cfg req td = Some (td', res) /\
    rotated cfg req td' /\
    WindowTotal td' <= AbsoluteMaxPenaltyCap cfg /\
    WasOver td' = true /\
    Accepted res = false /\
    0 <= RetryIn res.
Proof.
  intros Hc Hr Hrot Hcapped.
  pose proof (vc_cap cfg Hc) as Hcap.
  destruct (rejectPenalty_inv cfg req td Hc Hr Hrot Hcapped)
    as (td1 & someAdded & dirty & Hpen & Hrot1 & Hover1 & Hsame).
  unfold rejectLoad. rewrite Hpen. cbn [mbind option_bind].
  set (td2 := if someAdded then applyCapping cfg req td1 else td1).
  assert (H2 : rotated cfg req td2 /\ WindowTotal td2 <= AbsoluteMaxPenaltyCap cfg /\
               WasOver td2 = true).
  { subst td2. destruct someAdded.
    - destruct (applyCapping_inv cfg req td1 Hc Hr Hrot1) as (Ha & Hb & Hc' & _ & _).
      split; [exact Ha|]. split; [lia|congruence].
    - split; [exact Hrot1|]. split; [rewrite Hsame by reflexivity; exact Hcapped|exact Hover1]. }
  destruct H2 as (Hrot2 & Hcap2 & Hover2).
  set (td3 := if dirty then markDirty td2 else td2).
  assert (H3 : rotated cfg req td3 /\ WindowTotal td3 <= AbsoluteMaxPenaltyCap cfg /\
               WasOver td3 = true).
  { subst td3. destruct dirty; [|auto]. split; [now apply rotated_markDirty|auto]. }
  destruct H3 as (Hrot3 & Hcap3 & Hover3).
  destruct (SkipRetryInComputing cfg); cbn [negb].
  - eexists _, _. split; [reflexivity|]. cbn [Accepted RetryIn].
    split; [exact Hrot3|]. split; [exact Hcap3|]. split; [exact Hover3|]. split; [reflexivity|lia].
  - destruct (computeRetryIn_nonneg cfg req td3 Hc Hr Hrot3 ltac:(lia)) as (r & -> & Hr').
    cbn [mbind option_bind]. destruct r as [d|e].
    + eexists _, _. split; [reflexivity|]. cbn [Accepted RetryIn].
      split; [exact Hrot3|]. split; [exact Hcap3|]. split; [exact Hover3|].
      split; [reflexivity|exact Hr'].
    + eexists _, _. split; [reflexivity|]. cbn [Accepted RetryIn].
      split; [exact Hrot3|]. split; [exact Hcap3|]. split; [exact Hover3|].
      split; [reflexivity|lia].
Qed.

(** ** Probe and submit keep the invariants *)

Lemma tenant_inv_rotated (cfg : config) (req : submitRequest) (td : tenantData) :
  rotated cfg req td -> WindowTotal td <= AbsoluteMaxPenaltyCap cfg -> tenant_inv cfg td.
Proof. intros [Hw _ _] Hcap. split; assumption. Qed.

Lemma probe_inv (cfg : config) (req : submitRequest) (td : tenantData) :
  valid_config cfg -> valid_request cfg req -> tenant_inv cfg td ->
  exists td',
    probe cfg req td
      = Some (WindowTotal td' + RequestedLoad req <=? MaxLoad cfg, td') /\
    rotateWindow cfg req td = Some td' /\
    rotated cfg req td' /\
    WindowTotal td' <= AbsoluteMaxPenaltyCap cfg /\
    WasOver td' = WasOver td.
Proof.
  intros Hc Hr [Hw Hcapped].
  pose proof (vc_cap cfg Hc) as Hcap. pose proof (vr_load cfg req Hr) as Hload.
  destruct (rotateWindow_inv cfg req td Hc Hr Hw) as (td' & Hrot & Hrotd & Hle & Hover).
  exists td'. unfold probe. rewrite Hrot. cbn [mbind option_bind].
  assert (0 <= WindowTotal td').
  { destruct Hrotd as [[Hq Htot _] _ _]. rewrite Htot.
    apply sumValues_nonneg. now apply (queue_inv_values cfg). }
  rewrite add64_exact by (unfold two64, two63 in *; lia).
  split; [reflexivity|]. split; [reflexivity|]. split; [exact Hrotd|]. split; [lia|exact Hover].
Qed.

Lemma submitTask_inv (cfg : config) (req : submitRequest) (td : tenantData) :
  valid_config cfg -> valid_request cfg req -> tenant_inv cfg td ->
  exists td' res,
    submitTask cfg req td = Some (td', res) /\
    rotated cfg req td' /\
    WindowTotal td' <= AbsoluteMaxPenaltyCap cfg /\
    0 <= RetryIn res /\
    WasOver td' = negb (Accepted res).
Proof.
  intros Hc Hr Hinv.
  pose proof (vc_cap cfg Hc) as Hcap.
  destruct (probe_inv cfg req td Hc Hr Hinv) as (rot & Hprobe & _ & Hrot & Hcapped & _).
  unfold submitTask. rewrite Hprobe. cbn [mbind option_bind].
  destruct (Z.leb_spec (WindowTotal rot + RequestedLoad req) (MaxLoad cfg)) as [Hfit|Hover].
  - destruct (acceptLoad_inv cfg req rot Hc Hr Hrot ltac:(lia)) as (td' & -> & Hrot' & Htot' & Hwas).
    cbn [mbind option_bind]. eexists _, _. split; [reflexivity|]. cbn.
    split; [exact Hrot'|]. split; [lia|]. split; [lia|exact Hwas].
  - destruct (rejectLoad_inv cfg req rot Hc Hr Hrot Hcapped)
      as (td' & res & -> & Hrot' & Hcap' & Hwas & Hacc & Hnn).
    eexists _, _. split; [reflexivity|]. rewrite Hacc. auto.
Qed.

(** ** Limiters *)

Lemma tenant_inv_new (cfg : config) : valid_config cfg -> tenant_inv cfg newTenantData.
Proof.
  intros Hc. pose proof (vc_cap cfg Hc). pose proof (vc_max cfg Hc).
  split; [split|]; cbn; try lia; try reflexivity. apply queue_inv_nil.
Qed.

Lemma limiter_inv_new (cfg : config) : valid_config cfg -> limiter_inv (mkLimiter cfg ∅).
Proof. intros Hc. split; [exact Hc|]. intros key td H. cbn in H. now rewrite lookup_empty in H. Qed.

Lemma limiter_inv_getTenant (inst : loadLimiter) (key : string) :
  limiter_inv inst -> tenant_inv (Config inst) (getTenant inst key).
Proof.
  intros [Hc Hall]. unfold getTenant.
  destruct (TenantData inst !! key) as [td|] eqn:E; cbn.
  - now apply (Hall key).
  - now apply tenant_inv_new.
Qed.

Lemma limiter_inv_setTenant (inst : loadLimiter) (key : string) (td : tenantData) :
  limiter_inv inst -> tenant_inv (Config inst) td -> limiter_inv (setTenant inst key td).
Proof.
  intros [Hc Hall] Htd. split; [exact Hc|]. intros key' td' H. cbn in *.
  destruct (decide (key = key')) as [->|Hne].
  - rewrite lookup_insert_eq in H. now inversion H; subst.
  - rewrite lookup_insert_ne in H by exact Hne. now apply (Hall key').
Qed.

Lemma buildLoadRequest_valid (cfg : config) (now : Z) (key : string) (load : Z) :
  valid_config cfg -> WindowSize cfg <= now < two63 -> 0 <= load < two63 ->
  valid_request cfg (buildLoadRequest cfg now key load).
Proof.
  intros Hc Ht Hl.
  assert (Hw : wrap64 now = now).
  { apply wrap64_id. destruct Hc. unfold u64, two64, two63 in *. nia. }
  split; cbn; rewrite ?Hw; auto.
Qed.

Ltac valid_config_tac :=
  split; cbn; unfold two63, two64, millisecond; intros; try discriminate; try lia;
  try reflexivity.

Lemma testConfig_valid : valid_config testConfig.
Proof. valid_config_tac. Qed.

Lemma testConfigPenalty_valid : valid_config testConfigPenalty.
Proof. valid_config_tac. Qed.

Lemma testConfigBurst_valid : valid_config testConfigBurst.
Proof. valid_config_tac. Qed.

(** ** Claims on the window engine *)





(** ** Strings *)

Lemma append_cons (c : ascii) (a b : string) : String c a +:+ b = String c (a +:+ b).
Proof. reflexivity. Qed.

Lemma append_nil_l (b : string) : "" +:+ b = b.
Proof. reflexivity. Qed.

Lemma append_nil_r (s : string) : s +:+ "" = s.
Proof. induction s as [|c s IH]; [reflexivity|]. now rewrite append_cons, IH. Qed.

Lemma append_assoc (a b c : string) : (a +:+ b) +:+ c = a +:+ (b +:+ c).
Proof. induction a as [|x a IH]; [reflexivity|]. now rewrite !append_cons, IH. Qed.

Lemma hasChar_app (c : ascii) (a b : string) :
  hasChar c (a +:+ b) = hasChar c a || hasChar c b.
Proof.
  induction a as [|x a IH]; [reflexivity|].
  rewrite append_cons. cbn [hasChar]. rewrite IH. now rewrite orb_assoc.
Qed.

Lemma splitOn_not_nil (c : ascii) (s : string) : splitOn c s <> [].
Proof.
  induction s as [|x s IH]; cbn; [discriminate|].
  destruct (Ascii.eqb x c); [discriminate|]. destruct (splitOn c s); [contradiction|discriminate].
Qed.

Lemma splitOn_none (c : ascii) (a : string) :
  hasChar c a = false -> splitOn c a = [a].
Proof.
  induction a as [|x a IH]; cbn; [reflexivity|]. intros H.
  apply orb_false_iff in H as [Hx Ha]. rewrite Hx, (IH Ha). reflexivity.
Qed.

Lemma splitOn_app (c : ascii) (a b : string) :
  hasChar c a = false -> splitOn c (a +:+ String c b) = a :: splitOn c b.
Proof.
  induction a as [|x a IH].
  - intros _. rewrite append_nil_l. cbn [splitOn]. now rewrite Ascii.eqb_refl.
  - intros H. cbn [hasChar] in H. apply orb_false_iff in H as [Hx Ha].
    rewrite append_cons. cbn [splitOn]. rewrite Hx, (IH Ha). reflexivity.
Qed.

Lemma trimRight_snoc (c : ascii) (s : string) :
  trimRight c (s +:+ String c "") = trimRight c s.
Proof.
  induction s as [|x s IH].
  - rewrite append_nil_l. cbn [trimRight]. now rewrite Ascii.eqb_refl.
  - rewrite append_cons. cbn [trimRight]. now rewrite IH.
Qed.

Lemma trimRight_none (c : ascii) (s : string) :
  hasChar c s = false -> trimRight c s = s.
Proof.
  induction s as [|x s IH]; cbn; [reflexivity|]. intros H.
  apply orb_false_iff in H as [Hx Hs]. rewrite (IH Hs), Hx. now destruct s.
Qed.

(** ** Decimal numbers *)

Lemma digitValue_digitChar (d : Z) : 0 <= d < 10 -> digitValue (digitChar d) = Some d.
Proof.
  intros H. unfold digitValue, digitChar.
  rewrite nat_ascii_embedding by lia.
  destruct (Z.leb_spec 48 (Z.of_nat (48 + Z.to_nat d))); [|lia].
  destruct (Z.leb_spec (Z.of_nat (48 + Z.to_nat d)) 57); [|lia].
  cbn [andb]. f_equal. lia.
Qed.

Lemma digit_not_char (c x : ascii) (d : Z) :
  digitValue x = Some d -> digitValue c = None -> Ascii.eqb x c = false.
Proof.
  intros Hx Hc. destruct (Ascii.eqb_spec x c) as [->|]; [congruence|reflexivity].
Qed.

Lemma allDigits_hasChar (c : ascii) (s : string) :
  digitValue c = None -> allDigits s = true -> hasChar c s = false.
Proof.
  intros Hc. induction s as [|x s IH]; cbn; [reflexivity|].
  destruct (digitValue x) as [d|] eqn:Hx; [|discriminate].
  intros Hs. rewrite (digit_not_char c x d Hx Hc), (IH Hs). reflexivity.
Qed.

Lemma allDigits_app (a b : string) :
  allDigits (a +:+ b) = allDigits a && allDigits b.
Proof.
  induction a as [|x a IH]; [reflexivity|].
  rewrite append_cons. cbn [allDigits].
  destruct (digitValue x); [exact IH|reflexivity].
Qed.

(** [formatBits] puts in front of [acc] a non-empty run of digits that
    [parseDigits] reads back as [n]. *)
Lemma formatBits_spec (fuel : nat) (n : Z) (acc : string) :
  0 <= n < 10 ^ Z.of_nat (S fuel) ->
  exists ds m,
    formatBits (S fuel) n acc = ds +:+ acc /\
    ds <> "" /\ allDigits ds = true /\
    forall rest a0, parseDigits (ds +:+ rest) a0 = parseDigits rest (a0 * m + n).
Proof.
  revert n acc. induction fuel as [|fuel IH]; intros n acc Hn.
  - assert (Hsmall : n < 10) by (cbn in Hn; lia).
    exists (String (digitChar n) ""), 10.
    cbn [formatBits]. rewrite Z.mod_small by lia.
    destruct (Z.ltb_spec n 10); [|lia].
    split; [reflexivity|]. split; [discriminate|]. split.
    + cbn. now rewrite digitValue_digitChar by lia.
    + intros rest a0. rewrite append_cons, append_nil_l. cbn [parseDigits].
      now rewrite digitValue_digitChar by lia.
  - remember (S fuel) as fuel' eqn:Hf. cbn [formatBits].
    pose proof (Z.mod_pos_bound n 10 ltac:(lia)) as Hmod.
    destruct (Z.ltb_spec n 10) as [Hsmall|Hbig].
    + exists (String (digitChar (n mod 10)) ""), 10.
      rewrite Z.mod_small by lia.
      split; [reflexivity|]. split; [discriminate|]. split.
      * cbn. now rewrite digitValue_digitChar by lia.
      * intros rest a0. rewrite append_cons, append_nil_l. cbn [parseDigits].
        now rewrite digitValue_digitChar by lia.
    + subst fuel'.
      destruct (IH (n / 10) (String (digitChar (n mod 10)) acc)) as (ds & m & Heq & Hne & Hall & Hparse).
      { split; [apply Z.div_pos; lia|].
        apply Z.div_lt_upper_bound; [lia|].
        rewrite (Nat2Z.inj_succ (S fuel)), Z.pow_succ_r in Hn by lia. lia. }
      exists (ds +:+ String (digitChar (n mod 10)) ""), (m * 10).
      split; [rewrite Heq, append_assoc; reflexivity|].
      split; [destruct ds; [contradiction|discriminate]|].
      split.
      * rewrite allDigits_app, Hall. cbn. now rewrite digitValue_digitChar by lia.
      * intros rest a0. rewrite append_assoc, Hparse.
        rewrite append_cons, append_nil_l. cbn [parseDigits].
        rewrite digitValue_digitChar by lia. f_equal.
        pose proof (Z.div_mod n 10 ltac:(lia)). lia.
Qed.

Lemma formatUint_spec (n : Z) :
  0 <= n < two64 ->
  formatUint n <> "" /\ allDigits (formatUint n) = true /\
  parseDigits (formatUint n) 0 = Some n.
Proof.
  intros Hn. unfold formatUint.
  destruct (formatBits_spec 19 n "") as (ds & m & Heq & Hne & Hall & Hparse).
  { unfold two64 in Hn. cbn. lia. }
  rewrite Heq, append_nil_r. split; [exact Hne|]. split; [exact Hall|].
  specialize (Hparse "" 0). rewrite append_nil_r in Hparse. rewrite Hparse. reflexivity.
Qed.

Lemma Atoi_formatUint (n : Z) : 0 <= n < two63 -> Atoi (formatUint n) = Some n.
Proof.
  intros Hn. destruct (formatUint_spec n) as (Hne & Hall & Hparse).
  { unfold two64, two63 in *. lia. }
  unfold Atoi. destruct (formatUint n) as [|c rest] eqn:E; [contradiction|].
  cbn in Hall. destruct (digitValue c) as [d|] eqn:Hc; [|discriminate].
  rewrite (digit_not_char "-" c d Hc eq_refl), (digit_not_char "+" c d Hc eq_refl).
  rewrite Hparse.
  destruct (Z.leb_spec (- two63) n); [|unfold two63 in *; lia].
  destruct (Z.ltb_spec n two63); [reflexivity|lia].
Qed.

Lemma formatUint_hasChar (c : ascii) (n : Z) :
  digitValue c = None -> 0 <= n < two64 -> hasChar c (formatUint n) = false.
Proof.
  intros Hc Hn. apply allDigits_hasChar; [exact Hc|]. now apply formatUint_spec.
Qed.

(** ** The status codec *)

Lemma fits63_u64 (n : Z) : 0 <= n < two63 -> 0 <= n < two64.
Proof. unfold two63, two64. lia. Qed.

Lemma formatUint_not_empty (n : Z) : 0 <= n < two64 -> formatUint n <> "".
Proof. intros Hn. now apply formatUint_spec. Qed.

Lemma segmentText_hasChar (c : ascii) (seg : windowSegment) :
  digitValue c = None -> Ascii.eqb ":" c = false -> fits63_segment seg ->
  hasChar c (segmentText seg) = false.
Proof.
  intros Hd Hc [Hs Hv]. unfold segmentText.
  rewrite !hasChar_app, !formatUint_hasChar by auto using fits63_u64.
  cbn [hasChar orb]. now rewrite Hc.
Qed.

Lemma segmentText_not_empty (seg : windowSegment) :
  fits63_segment seg -> segmentText seg <> "".
Proof.
  intros [Hs _]. unfold segmentText.
  pose proof (formatUint_not_empty (StartTime seg) (fits63_u64 _ Hs)) as Hne.
  destruct (formatUint (StartTime seg)); [contradiction|discriminate].
Qed.

Lemma splitOn_segmentText (seg : windowSegment) :
  fits63_segment seg ->
  splitOn ":" (segmentText seg) = [formatUint (StartTime seg); formatUint (Value seg)].
Proof.
  intros [Hs Hv]. unfold segmentText.
  change (":" +:+ formatUint (Value seg)) with (String ":" (formatUint (Value seg))).
  rewrite splitOn_app by (apply formatUint_hasChar; auto using fits63_u64).
  rewrite splitOn_none by (apply formatUint_hasChar; auto using fits63_u64).
  reflexivity.
Qed.

Lemma joinTokens_cons (seg : windowSegment) (rest : list windowSegment) :
  rest <> [] ->
  joinTokens (seg :: rest) = segmentText seg +:+ String "," (joinTokens rest).
Proof. destruct rest; [contradiction|reflexivity]. Qed.

Lemma joinTokens_not_empty (queue : list windowSegment) :
  Forall fits63_segment queue -> queue <> [] -> joinTokens queue <> "".
Proof.
  intros Hq Hne. destruct queue as [|seg rest]; [contradiction|].
  apply Forall_cons in Hq as [Hseg _].
  pose proof (segmentText_not_empty seg Hseg) as Ht.
  destruct rest as [|seg' rest]; [exact Ht|].
  rewrite joinTokens_cons by discriminate.
  destruct (segmentText seg); [contradiction|discriminate].
Qed.

Lemma joinTokens_hasChar (c : ascii) (queue : list windowSegment) :
  digitValue c = None -> Ascii.eqb ":" c = false -> Ascii.eqb "," c = false ->
  Forall fits63_segment queue -> hasChar c (joinTokens queue) = false.
Proof.
  intros Hd Hcolon Hcomma. induction queue as [|seg rest IH]; intros Hq; [reflexivity|].
  apply Forall_cons in Hq as [Hseg Hrest].
  destruct rest as [|seg' rest]; [now apply segmentText_hasChar|].
  rewrite joinTokens_cons by discriminate.
  rewrite hasChar_app, segmentText_hasChar by assumption.
  cbn [hasChar orb]. rewrite Hcomma. exact (IH Hrest).
Qed.

Lemma concatTokens_join (queue : list windowSegment) :
  queue <> [] -> concatTokens queue = joinTokens queue +:+ ",".
Proof.
  induction queue as [|seg rest IH]; [contradiction|]. intros _.
  destruct rest as [|seg' rest].
  - cbn [concatTokens joinTokens]. unfold segmentToken, segmentText.
    now rewrite append_nil_r, !append_assoc.
  - rewrite joinTokens_cons by discriminate.
    cbn [concatTokens] in *. rewrite IH by discriminate.
    unfold segmentToken, segmentText. now rewrite !append_assoc.
Qed.

Lemma trimRight_app_keep (c : ascii) (a b : string) :
  b <> "" -> trimRight c b = b -> trimRight c (a +:+ b) = a +:+ b.
Proof.
  intros Hne Hb. induction a as [|x a IH]; [exact Hb|].
  rewrite append_cons. cbn [trimRight]. rewrite IH.
  destruct (a +:+ b) eqn:E; [|reflexivity].
  destruct a; [|discriminate]. rewrite append_nil_l in E. contradiction.
Qed.

Lemma trimRight_joinTokens (queue : list windowSegment) :
  Forall fits63_segment queue -> trimRight "," (joinTokens queue) = joinTokens queue.
Proof.
  induction queue as [|seg rest IH]; intros Hq; [reflexivity|].
  apply Forall_cons in Hq as [Hseg Hrest].
  destruct rest as [|seg' rest].
  - apply trimRight_none. now apply segmentText_hasChar.
  - rewrite joinTokens_cons by discriminate.
    change (String "," (joinTokens (seg' :: rest))) with ("," +:+ joinTokens (seg' :: rest)).
    rewrite <- append_assoc. apply trimRight_app_keep; [|exact (IH Hrest)].
    apply joinTokens_not_empty; [exact Hrest|discriminate].
Qed.

Lemma splitOn_joinTokens (queue : list windowSegment) :
  Forall fits63_segment queue -> queue <> [] ->
  splitOn "," (joinTokens queue) = segmentText <$> queue.
Proof.
  induction queue as [|seg rest IH]; intros Hq Hne; [contradiction|].
  apply Forall_cons in Hq as [Hseg Hrest].
  destruct rest as [|seg' rest].
  - cbn [joinTokens fmap list_fmap]. apply splitOn_none. now apply segmentText_hasChar.
  - rewrite joinTokens_cons by discriminate.
    rewrite splitOn_app by now apply segmentText_hasChar.
    rewrite IH by (assumption || discriminate). reflexivity.
Qed.

Lemma restoreSegments_app (xs ys : list string) (queue : list windowSegment) :
  restoreSegments (xs ++ ys) queue =
  match restoreSegments xs queue with
  | (queue', None) => restoreSegments ys queue'
  | failed => failed
  end.
Proof.
  revert queue. induction xs as [|token xs IH]; intros queue; [reflexivity|].
  cbn [app restoreSegments].
  destruct (splitOn ":" token) as [|start [|value [|more rest]]]; try reflexivity.
  destruct (Atoi start); [|reflexivity]. destruct (Atoi value); [|reflexivity].
  apply IH.
Qed.

Lemma restoreSegments_token (seg : windowSegment) (queue : list windowSegment) :
  fits63_segment seg ->
  restoreSegments [segmentText seg] queue = (seg :: queue, None).
Proof.
  intros Hseg. pose proof Hseg as [Hs Hv]. cbn [restoreSegments].
  rewrite splitOn_segmentText, !Atoi_formatUint by assumption.
  rewrite !wrap64_id by (unfold u64; auto using fits63_u64). now destruct seg.
Qed.

Lemma restoreSegments_tokens (l queue : list windowSegment) :
  Forall fits63_segment l ->
  restoreSegments (rev (segmentText <$> l)) queue = (l ++ queue, None).
Proof.
  revert queue. induction l as [|seg l IH]; intros queue Hl; [reflexivity|].
  apply Forall_cons in Hl as [Hseg Hl].
  cbn [fmap list_fmap rev]. change (list_fmap _ _ segmentText l) with (segmentText <$> l).
  rewrite restoreSegments_app, IH by assumption.
  now rewrite restoreSegments_token.
Qed.

Lemma serialized_segments (td : tenantData) :
  fits63 td ->
  match WindowQueue td with
  | [] => ""
  | _ => trimRight "," (concatTokens (WindowQueue td))
  end = joinTokens (WindowQueue td).
Proof.
  intros (_ & _ & Hq). destruct (WindowQueue td) as [|seg rest] eqn:E; [reflexivity|].
  rewrite concatTokens_join by discriminate.
  rewrite trimRight_snoc. now apply trimRight_joinTokens.
Qed.

Lemma serializeStatus_tokens (td : tenantData) :
  fits63 td ->
  splitOn "/" (serializeStatus td)
  = ["v1"; formatUint (Version td); formatUint (WindowTotal td);
     if WasOver td then "1" else "0"; joinTokens (WindowQueue td)].
Proof.
  intros Hfits. unfold serializeStatus. rewrite (serialized_segments td Hfits).
  destruct Hfits as (Hv & Ht & Hq).
  change ("v1/" +:+ ?x) with ("v1" +:+ String "/" x).
  rewrite splitOn_app by reflexivity.
  change ("/" +:+ ?x) with (String "/" x).
  rewrite splitOn_app by (apply formatUint_hasChar; auto using fits63_u64).
  change ("/" +:+ ?x) with (String "/" x).
  rewrite splitOn_app by (apply formatUint_hasChar; auto using fits63_u64).
  change ("/" +:+ ?x) with (String "/" x).
  rewrite splitOn_app by (now destruct (WasOver td)).
  rewrite splitOn_none by (now apply joinTokens_hasChar).
  reflexivity.
Qed.


Lemma restore_newer_version (remote loc : tenantData) :
  fits63 remote -> Version loc < Version remote -> WindowQueue remote <> [] ->
  restoreSerializedStatus (serializeStatus remote) loc = (remote, None).
Proof.
  intros Hfits Hver Hne. unfold restoreSerializedStatus.
  rewrite (serializeStatus_tokens remote Hfits). cbv iota beta zeta.
  destruct Hfits as (Hv & Ht & Hq).
  change (negb ("v1" =? "v1")%string) with false. cbv iota.
  rewrite !Atoi_formatUint by assumption.
  rewrite !wrap64_id by (unfold u64; auto using fits63_u64).
  destruct (Z.eqb_spec (Version loc) (Version remote)); [lia|].
  destruct (Z.ltb_spec (Version remote) (Version loc)); [lia|].
  rewrite splitOn_joinTokens, restoreSegments_tokens, app_nil_r by assumption.
  destruct remote as [queue wasOver total version]. cbn. now destruct wasOver.
Qed.

(** A payload without segments restored into an older tenant: the segment
    list of the payload splits into one empty token, which is not a
    segment; the queue has been cleared by then. *)
Lemma restore_empty_queue (remote loc : tenantData) :
  fits63 remote -> Version loc < Version remote -> WindowQueue remote = [] ->
  restoreSerializedStatus (serializeStatus remote) loc
  = (setQueue loc [] (WindowTotal loc), Some ErrInvalidFormat).
Proof.
  intros Hfits Hver Hq. unfold restoreSerializedStatus.
  rewrite (serializeStatus_tokens remote Hfits). cbv iota beta zeta.
  destruct Hfits as (Hv & Ht & _).
  change (negb ("v1" =? "v1")%string) with false. cbv iota.
  rewrite !Atoi_formatUint by assumption.
  rewrite !wrap64_id by (unfold u64; auto using fits63_u64).
  destruct (Z.eqb_spec (Version loc) (Version remote)); [lia|].
  destruct (Z.ltb_spec (Version remote) (Version loc)); [lia|].
  rewrite Hq. reflexivity.
Qed.

(** ** Claim on the status codec *)



(** ** The front segment after a rotation *)

(** For a request at least one window past the epoch, rotation and capping
    leave a queue whose front segment is the request's segment. *)
Theorem rotateWindow_front_segment (cfg : config) (req : submitRequest) (td : tenantData) :
  valid_config cfg -> valid_request cfg req -> window_inv cfg td ->
  exists td' front rest,
    rotateWindow cfg req td = Some td' /\
    WindowQueue td' = front :: rest /\
    StartTime front = RequestSegmentStartTime req /\
    exists front' rest',
      WindowQueue (applyCapping cfg req td') = front' :: rest' /\
      StartTime front' = RequestSegmentStartTime req.
Proof.
  intros Hc Hr Hw.
  destruct (rotateWindow_inv cfg req td Hc Hr Hw) as (td' & Hrot & Hrotated & _).
  destruct (applyCapping_inv cfg req td' Hc Hr Hrotated) as (Hcapped & _).
  destruct Hrotated as [_ (front & rest & Hq & Hfront) _].
  destruct Hcapped as [_ (front' & rest' & Hq' & Hfront') _].
  exists td', front, rest. split; [exact Hrot|]. split; [exact Hq|]. split; [exact Hfront|].
  exists front', rest'. split; assumption.
Qed.

Lemma rotateWindow_front_segment_witness :
  exists td' front rest,
    rotateWindow testConfig (buildLoadRequest testConfig 1009500 "test" 27)
      (mkTenant [mkSegment 1008000 50; mkSegment 999000 60] false 110 5) = Some td' /\
    WindowQueue td' = front :: rest /\
    StartTime front = 1009000 /\
    exists front' rest',
      WindowQueue (applyCapping testConfig
                     (buildLoadRequest testConfig 1009500 "test" 27) td') = front' :: rest' /\
      StartTime front' = 1009000.
Proof.
  apply (rotateWindow_front_segment testConfig
           (buildLoadRequest testConfig 1009500 "test" 27)
           (mkTenant [mkSegment 1008000 50; mkSegment 999000 60] false 110 5)).
  - exact testConfig_valid.
  - apply buildLoadRequest_valid; [exact testConfig_valid| |]; cbn; unfold two63; lia.
  - split; [split| |].
    + repeat constructor; unfold newer; cbn; lia.
    + repeat constructor; unfold u64, two64; cbn; lia.
    + reflexivity.
    + cbn. unfold two64. lia.
Defined.

(** C10 (failing input).  With the default configuration of the tests
    (a window of 10 s in segments of 1 s) and a clock that starts at the
    epoch, a load of 5 submitted at 500 ms is accepted and leaves the queue
    [0:5].  A probe at 1500 ms then rotates the window: the lower bound of
    the window, [RequestedTimestamp - WindowSize], wraps around to
    2^64 - 8500, every segment is at or before it, and the eviction loop pops
    the old segment and then the front segment that the same rotation has
    just pushed.  The queue is left empty; a submission at that time finds
    no front segment in [acceptLoad]. *)
Theorem rotateWindow_evicts_front_segment :
  let inst := mkLimiter testConfig ∅ in
  exists res inst1 inst2,
    Submit inst 500 "test" 5 = Some (res, inst1) /\
    Accepted res = true /\
    WindowQueue (getTenant inst1 "test") = [mkSegment 0 5] /\
    sub64 1500 (WindowSize testConfig) = two64 - 8500 /\
    Probe inst1 1500 "test" 1 = Some (true, inst2) /\
    WindowQueue (getTenant inst2 "test") = [] /\
    Submit inst1 1500 "test" 1 = None.
Proof.
  cbv zeta. eexists _, _, _.
  split; [vm_compute; reflexivity|].
  split; [reflexivity|]. split; [vm_compute; reflexivity|].
  split; [vm_compute; reflexivity|].
  split; [vm_compute; reflexivity|].
  split; vm_compute; reflexivity.
Qed.

(** ** Operations inside a sync transaction *)



Lemma serializeStatus_not_empty (td : tenantData) :
  String.eqb (serializeStatus td) "" = false.
Proof. reflexivity. Qed.



Lemma Probe_inv (inst : loadLimiter) (now : Z) (key : string) (load : Z) :
  limiter_inv inst -> WindowSize (Config inst) <= now < two63 -> 0 <= load < two63 ->
  exists r inst', Probe inst now key load = Some (r, inst') /\ limiter_inv inst'.
Proof.
  intros Hinv Hnow Hload. pose proof Hinv as [Hc _].
  pose proof (buildLoadRequest_valid (Config inst) now key load Hc Hnow Hload) as Hreq.
  destruct (probe_inv _ _ _ Hc Hreq (limiter_inv_getTenant inst key Hinv))
    as (td' & Hprobe & _ & Hrot & Hcap & _).
  unfold Probe. rewrite Hprobe. cbn [mbind option_bind].
  eexists _, _. split; [reflexivity|].
  apply limiter_inv_setTenant; [exact Hinv|]. exact (tenant_inv_rotated _ _ _ Hrot Hcap).
Qed.

Lemma Submit_inv (inst : loadLimiter) (now : Z) (key : string) (load : Z) :
  limiter_inv inst -> WindowSize (Config inst) <= now < two63 -> 0 <= load < two63 ->
  exists res inst', Submit inst now key load = Some (res, inst') /\ limiter_inv inst'.
Proof.
  intros Hinv Hnow Hload. pose proof Hinv as [Hc _].
  pose proof (buildLoadRequest_valid (Config inst) now key load Hc Hnow Hload) as Hreq.
  destruct (submitTask_inv _ _ _ Hc Hreq (limiter_inv_getTenant inst key Hinv))
    as (td' & res & Hsubmit & Hrot & Hcap & _).
  unfold Submit. rewrite Hsubmit. cbn [mbind option_bind].
  eexists _, _. split; [reflexivity|].
  apply limiter_inv_setTenant; [exact Hinv|]. exact (tenant_inv_rotated _ _ _ Hrot Hcap).
Qed.




(** ** Claim on the window total *)





(** ** The composite limiter *)

Lemma maximum_nonneg (l : list Z) : 0 <= maximum l.
Proof. unfold maximum. induction l as [|x l IH]; cbn [foldr]; lia. Qed.

Lemma maximum_positive (l : list Z) : 0 < maximum l <-> exists h, h ∈ l /\ 0 < h.
Proof.
  induction l as [|x l IH]; unfold maximum; cbn [foldr].
  - split; [lia|]. intros (h & Hin & _). inversion Hin.
  - split.
    + intros Hmax. destruct (Z.max_spec x (foldr Z.max 0 l)) as [[_ Heq]|[_ Heq]].
      * assert (Hl : 0 < maximum l) by (unfold maximum; lia).
        apply IH in Hl as (h & Hin & Hpos). exists h. split; [now right|exact Hpos].
      * exists x. split; [now left|lia].
    + intros (h & Hin & Hpos). apply elem_of_cons in Hin as [->|Hin]; [lia|].
      assert (0 < maximum l) by (apply IH; eauto). unfold maximum in *. lia.
Qed.

Lemma member_trace_exists (now : Z) (key : string) (load : Z) (limiter : loadLimiter) :
  member_ok now limiter -> 0 <= load < two63 ->
  exists tr, member_trace now key load limiter tr.
Proof.
  intros [Hinv Hnow] Hload. pose proof Hinv as [Hc _].
  pose proof (buildLoadRequest_valid (Config limiter) now key load Hc Hnow Hload) as Hreq.
  destruct (probe_inv _ _ _ Hc Hreq (limiter_inv_getTenant limiter key Hinv))
    as (td' & Hprobe & _ & Hrot & Hcap & _).
  set (req := buildLoadRequest (Config limiter) now key load) in *.
  set (r := WindowTotal td' + RequestedLoad req <=? MaxLoad (Config limiter)) in *.
  assert (Hlp : limiterProbe limiter req = Some (r, setTenant limiter key td')).
  { unfold limiterProbe. change (TenantKey req) with key. now rewrite Hprobe. }
  destruct r eqn:Hr.
  - exists (mkTrace true (setTenant limiter key td') None). split; [exact Hlp|reflexivity].
  - destruct (rejectLoad_inv _ _ _ Hc Hreq Hrot Hcap) as (td2 & res & Hrej & _).
    exists (mkTrace false (setTenant limiter key td')
              (Some (res, setTenant (setTenant limiter key td') key td2))).
    split; [exact Hlp|]. cbn [Probed AfterProbe Rejection].
    eexists _, _. split; [|reflexivity].
    unfold limiterRejectLoad. change (TenantKey req) with key.
    rewrite getTenant_setTenant. change (Config (setTenant limiter key td')) with (Config limiter).
    fold req. now rewrite Hrej.
Qed.

Lemma member_trace_facts (now : Z) (key : string) (load : Z) (limiter : loadLimiter)
    (tr : memberTrace) :
  member_ok now limiter -> 0 <= load < two63 ->
  member_trace now key load limiter tr ->
  Config (AfterProbe tr) = Config limiter /\
  rotated (Config limiter) (buildLoadRequest (Config limiter) now key load)
    (getTenant (AfterProbe tr) key) /\
  WindowTotal (getTenant (AfterProbe tr) key) <= AbsoluteMaxPenaltyCap (Config limiter) /\
  Probed tr
  = (WindowTotal (getTenant (AfterProbe tr) key) + load <=? MaxLoad (Config limiter)) /\
  (forall h, hint tr = Some h -> 0 <= h) /\
  member_ok now (afterFirstLoop tr).
Proof.
  intros [Hinv Hnow] Hload [Hlp Hrest]. pose proof Hinv as [Hc _].
  pose proof (buildLoadRequest_valid (Config limiter) now key load Hc Hnow Hload) as Hreq.
  destruct (probe_inv _ _ _ Hc Hreq (limiter_inv_getTenant limiter key Hinv))
    as (td' & Hprobe & _ & Hrot & Hcap & _).
  set (req := buildLoadRequest (Config limiter) now key load) in *.
  unfold limiterProbe in Hlp. change (TenantKey req) with key in Hlp.
  rewrite Hprobe in Hlp. cbn [mbind option_bind] in Hlp.
  injection Hlp as Hr Hafter.
  assert (Hinv1 : limiter_inv (setTenant limiter key td')).
  { apply limiter_inv_setTenant; [exact Hinv|]. exact (tenant_inv_rotated _ _ _ Hrot Hcap). }
  rewrite <- Hafter. rewrite getTenant_setTenant.
  split; [reflexivity|]. split; [exact Hrot|]. split; [exact Hcap|].
  split; [symmetry; exact Hr|].
  unfold hint, afterFirstLoop.
  destruct (Probed tr).
  - rewrite Hrest. split; [discriminate|]. rewrite <- Hafter. split; [exact Hinv1|exact Hnow].
  - destruct Hrest as (res & limiter' & Hrej & ->).
    destruct (rejectLoad_inv _ _ _ Hc Hreq Hrot Hcap)
      as (td2 & res2 & Hrej2 & Hrot2 & Hcap2 & _ & _ & Hretry).
    rewrite <- Hafter in Hrej. unfold limiterRejectLoad in Hrej.
    change (TenantKey req) with key in Hrej. rewrite getTenant_setTenant in Hrej.
    change (Config (setTenant limiter key td')) with (Config limiter) in Hrej.
    rewrite Hrej2 in Hrej. cbn [mbind option_bind] in Hrej. injection Hrej as <- <-.
    split.
    + intros h. destruct (RetryInAvailable res2); [|discriminate]. intros [= <-]. exact Hretry.
    + split; [|exact Hnow].
      apply limiter_inv_setTenant; [exact Hinv1|]. exact (tenant_inv_rotated _ _ _ Hrot2 Hcap2).
Qed.

Lemma member_traces_exist (now : Z) (key : string) (load : Z) (limiters : list loadLimiter) :
  Forall (member_ok now) limiters -> 0 <= load < two63 ->
  exists traces, Forall2 (member_trace now key load) limiters traces.
Proof.
  intros Hok Hload. induction Hok as [|limiter rest Hlimiter _ (traces & IH)].
  - exists []. constructor.
  - destruct (member_trace_exists now key load limiter Hlimiter Hload) as (tr & Htr).
    exists (tr :: traces). now constructor.
Qed.

(** The first loop in terms of the traces of the members. *)
Lemma compositeProbeLoop_traces (now : Z) (key : string) (load : Z)
    (limiters : list loadLimiter) (traces : list memberTrace)
    (allAccepted : bool) (highest : Z) :
  0 <= load < two63 -> 0 <= highest ->
  Forall (member_ok now) limiters ->
  Forall2 (member_trace now key load) limiters traces ->
  compositeProbeLoop now key load limiters allAccepted highest
  = Some (afterFirstLoop <$> traces, allAccepted && forallb Probed traces,
          Z.max highest (maximum (omap hint traces))).
Proof.
  intros Hload Hhigh Hok Htraces. revert allAccepted highest Hhigh.
  induction Htraces as [|limiter tr rest traces Htr _ IH]; intros allAccepted highest Hhigh.
  - cbn. rewrite andb_true_r. unfold maximum. cbn. now rewrite Z.max_l by lia.
  - apply Forall_cons in Hok as [Hlimiter Hrest]. specialize (IH Hrest).
    destruct (member_trace_facts now key load limiter tr Hlimiter Hload Htr)
      as (_ & _ & _ & _ & Hhint & _).
    destruct Htr as [Hlp Hrej]. cbn [compositeProbeLoop]. rewrite Hlp.
    cbn [mbind option_bind fmap list_fmap forallb omap list_omap].
    change (list_fmap _ _ afterFirstLoop traces) with (afterFirstLoop <$> traces).
    change (list_omap _ _ hint traces) with (omap hint traces).
    destruct (Probed tr).
    + assert (Hafter : afterFirstLoop tr = AfterProbe tr)
        by (unfold afterFirstLoop; now rewrite Hrej).
      assert (Hhinted : hint tr = None) by (unfold hint; now rewrite Hrej).
      rewrite (IH allAccepted highest Hhigh), Hafter, Hhinted. reflexivity.
    + destruct Hrej as (res & limiter' & Hreject & Hrejection).
      rewrite Hreject. cbn [mbind option_bind].
      assert (Hafter : afterFirstLoop tr = limiter')
        by (unfold afterFirstLoop; now rewrite Hrejection).
      assert (Hhinted :
        hint tr = if RetryInAvailable res then Some (RetryIn res) else None)
        by (unfold hint; now rewrite Hrejection).
      rewrite Hafter, Hhinted, andb_false_r. rewrite Hhinted in Hhint.
      destruct (RetryInAvailable res); cbn [andb].
      * specialize (Hhint _ eq_refl).
        rewrite IH by (destruct ((highest =? 0) || (highest <? RetryIn res)); lia).
        cbn [mbind option_bind andb]. apply f_equal. apply f_equal2; [reflexivity|].
        unfold maximum. cbn [foldr].
        destruct (Z.eqb_spec highest 0); destruct (Z.ltb_spec highest (RetryIn res));
          cbn [orb]; lia.
      * rewrite (IH false highest Hhigh). reflexivity.
Qed.

(** The second loop accepts the load on every member; the total of a member
    that probed true grows by the load. *)
Lemma compositeAcceptLoop_traces (now : Z) (key : string) (load : Z)
    (limiters : list loadLimiter) (traces : list memberTrace) :
  0 <= load < two63 ->
  Forall (member_ok now) limiters ->
  Forall2 (member_trace now key load) limiters traces ->
  exists limiters',
    compositeAcceptLoop now key load (AfterProbe <$> traces) = Some limiters' /\
    Forall2 (fun tr limiter' =>
               limiterAcceptLoad (AfterProbe tr)
                 (buildLoadRequest (Config (AfterProbe tr)) now key load) = Some limiter' /\
               (Probed tr = true ->
                WindowTotal (getTenant limiter' key)
                = WindowTotal (getTenant (AfterProbe tr) key) + load))
            traces limiters'.
Proof.
  intros Hload Hok Htraces.
  induction Htraces as [|limiter tr rest traces Htr _ IH].
  - exists []. split; [reflexivity|constructor].
  - apply Forall_cons in Hok as [Hlimiter Hrest].
    destruct (IH Hrest) as (limiters' & Hloop & Hall).
    destruct (member_trace_facts now key load limiter tr Hlimiter Hload Htr)
      as (Hcfg & Hrot & Hcap & Hprobed & _ & _).
    destruct Hlimiter as [[Hc _] Hnow].
    pose proof (buildLoadRequest_valid (Config limiter) now key load Hc Hnow Hload) as Hreq.
    pose proof (vc_cap _ Hc) as Hcapc.
    destruct (acceptLoad_inv _ _ _ Hc Hreq Hrot ltac:(lia)) as (td' & Hacc & _ & Htotal & _).
    assert (Haccept :
      limiterAcceptLoad (AfterProbe tr)
        (buildLoadRequest (Config (AfterProbe tr)) now key load)
      = Some (setTenant (AfterProbe tr) key td')).
    { unfold limiterAcceptLoad. rewrite Hcfg.
      change (TenantKey (buildLoadRequest (Config limiter) now key load)) with key.
      now rewrite Hacc. }
    exists (setTenant (AfterProbe tr) key td' :: limiters').
    split.
    + cbn [fmap list_fmap compositeAcceptLoop]. rewrite Haccept. cbn [mbind option_bind].
      change (list_fmap _ _ AfterProbe traces) with (AfterProbe <$> traces).
      now rewrite Hloop.
    + constructor; [|exact Hall]. split; [exact Haccept|].
      intros Htrue. rewrite getTenant_setTenant, Htotal.
      rewrite Htrue in Hprobed. symmetry in Hprobed. apply Z.leb_le in Hprobed.
      change (RequestedLoad (buildLoadRequest (Config limiter) now key load)) with load. lia.
Qed.

Lemma all_probed_no_rejection (now : Z) (key : string) (load : Z)
    (limiters : list loadLimiter) (traces : list memberTrace) :
  Forall2 (member_trace now key load) limiters traces ->
  forallb Probed traces = true ->
  afterFirstLoop <$> traces = AfterProbe <$> traces /\ omap hint traces = [].
Proof.
  induction 1 as [|limiter tr rest traces [_ Hrej] _ IH]; [split; reflexivity|].
  cbn [forallb]. intros Hall. apply andb_true_iff in Hall as [Htr Hall].
  destruct (IH Hall) as [IH1 IH2]. rewrite Htr in Hrej.
  assert (Hafter : afterFirstLoop tr = AfterProbe tr)
    by (unfold afterFirstLoop; now rewrite Hrej).
  assert (Hhinted : hint tr = None) by (unfold hint; now rewrite Hrej).
  cbn [fmap list_fmap omap list_omap]. rewrite Hafter, Hhinted.
  split; [f_equal; exact IH1|exact IH2].
Qed.

(** The composite [submit] in terms of the traces of its members. *)
Lemma compositeSubmit_traces (now : Z) (key : string) (load : Z)
    (limiters : list loadLimiter) (traces : list memberTrace) :
  0 <= load < two63 ->
  Forall (member_ok now) limiters ->
  Forall2 (member_trace now key load) limiters traces ->
  exists limiters',
    compositeSubmit limiters now key load
    = Some ({| Accepted := forallb Probed traces;
               RetryInAvailable :=
                 negb (forallb Probed traces) && (0 <? maximum (omap hint traces));
               RetryIn := maximum (omap hint traces) |}, limiters') /\
    (forallb Probed traces = false -> limiters' = afterFirstLoop <$> traces) /\
    (forallb Probed traces = true ->
     Forall2 (fun tr limiter' =>
                limiterAcceptLoad (AfterProbe tr)
                  (buildLoadRequest (Config (AfterProbe tr)) now key load) = Some limiter' /\
                (Probed tr = true ->
                 WindowTotal (getTenant limiter' key)
                 = WindowTotal (getTenant (AfterProbe tr) key) + load))
             traces limiters').
Proof.
  intros Hload Hok Htraces. unfold compositeSubmit.
  rewrite (compositeProbeLoop_traces now key load limiters traces true 0 Hload
             ltac:(lia) Hok Htraces).
  cbn [mbind option_bind andb].
  rewrite (Z.max_r 0 (maximum _)) by apply maximum_nonneg.
  destruct (forallb Probed traces) eqn:Hall.
  - destruct (all_probed_no_rejection now key load limiters traces Htraces Hall) as [-> Hhints].
    destruct (compositeAcceptLoop_traces now key load limiters traces Hload Hok Htraces)
      as (limiters' & -> & Haccepted).
    exists limiters'. cbn [mbind option_bind].
    split; [reflexivity|]. split; [discriminate|]. intros _. exact Haccepted.
  - eexists. cbn [mbind option_bind]. split; [reflexivity|].
    split; [reflexivity|discriminate].
Qed.

Lemma forallb_Probed (traces : list memberTrace) :
  forallb Probed traces = true <-> Forall (fun tr => Probed tr = true) traces.
Proof.
  induction traces as [|tr traces IH]; cbn [forallb].
  - split; [constructor|reflexivity].
  - rewrite andb_true_iff, IH, Forall_cons. reflexivity.
Qed.

Lemma positive_hint (now : Z) (key : string) (load : Z)
    (limiters : list loadLimiter) (traces : list memberTrace) :
  Forall2 (member_trace now key load) limiters traces ->
  negb (forallb Probed traces) && (0 <? maximum (omap hint traces)) = true <->
  exists tr h, tr ∈ traces /\ hint tr = Some h /\ 0 < h.
Proof.
  intros Htraces. rewrite andb_true_iff, Z.ltb_lt, maximum_positive. split.
  - intros (_ & h & Hin & Hpos). apply list_elem_of_omap in Hin as (tr & Hin & Hhint).
    exists tr, h. split; [exact Hin|]. split; assumption.
  - intros (tr & h & Hin & Hhint & Hpos).
    assert (Hh : h ∈ omap hint traces) by (apply list_elem_of_omap; eauto).
    split; [|eauto].
    destruct (forallb Probed traces) eqn:Hall; [|reflexivity].
    destruct (all_probed_no_rejection now key load limiters traces Htraces Hall) as [_ Hnone].
    rewrite Hnone in Hh. inversion Hh.
Qed.

(** ** Claims on the composite limiter *)

(** C5.  For every composite limiter whose members satisfy the invariants,
    every tenant and every load: [submit] returns; it accepts if and only if
    every member probes true, and it then applies [acceptLoad] to every
    member, whose window total grows by the load; when it rejects, the
    members are left as the first loop left them.  The returned retry-in is
    the maximum of the hints of the rejecting members (0 without a hint),
    and [RetryInAvailable] is true if and only if a rejecting member gave a
    positive hint. *)
Theorem compositeSubmit_spec (limiters : list loadLimiter) (now : Z) (key : string)
    (load : Z) :
  Forall (member_ok now) limiters -> 0 <= load < two63 ->
  exists traces res limiters',
    Forall2 (member_trace now key load) limiters traces /\
    compositeSubmit limiters now key load = Some (res, limiters') /\
    (Accepted res = true <-> Forall (fun tr => Probed tr = true) traces) /\
    (Accepted res = true ->
     Forall2 (fun tr limiter' =>
                limiterAcceptLoad (AfterProbe tr)
                  (buildLoadRequest (Config (AfterProbe tr)) now key load) = Some limiter' /\
                (Probed tr = true ->
                 WindowTotal (getTenant limiter' key)
                 = WindowTotal (getTenant (AfterProbe tr) key) + load))
             traces limiters') /\
    (Accepted res = false -> limiters' = afterFirstLoop <$> traces) /\
    RetryIn res = maximum (omap hint traces) /\
    (RetryInAvailable res = true <->
     exists tr h, tr ∈ traces /\ hint tr = Some h /\ 0 < h).
Proof.
  intros Hok Hload.
  destruct (member_traces_exist now key load limiters Hok Hload) as (traces & Htraces).
  destruct (compositeSubmit_traces now key load limiters traces Hload Hok Htraces)
    as (limiters' & Hsubmit & Hrejected & Haccepted).
  eexists traces, _, limiters'. split; [exact Htraces|]. split; [exact Hsubmit|].
  cbn [Accepted RetryIn RetryInAvailable].
  split; [apply forallb_Probed|]. split; [exact Haccepted|]. split; [exact Hrejected|].
  split; [reflexivity|]. exact (positive_hint now key load limiters traces Htraces).
Qed.

Lemma testComposite_ok : Forall (member_ok 1000000) testComposite.
Proof.
  unfold testComposite. constructor; [|constructor; [|constructor]].
  - split; [apply limiter_inv_new; exact testConfig_valid|cbn; unfold two63; lia].
  - split; [apply limiter_inv_new; exact testConfigBurst_valid|cbn; unfold two63; lia].
Qed.

Lemma compositeSubmit_spec_witness :
  exists traces res limiters',
    Forall2 (member_trace 1000000 "test" 15) testComposite traces /\
    compositeSubmit testComposite 1000000 "test" 15 = Some (res, limiters') /\
    (Accepted res = true <-> Forall (fun tr => Probed tr = true) traces) /\
    (Accepted res = true ->
     Forall2 (fun tr limiter' =>
                limiterAcceptLoad (AfterProbe tr)
                  (buildLoadRequest (Config (AfterProbe tr)) 1000000 "test" 15)
                = Some limiter' /\
                (Probed tr = true ->
                 WindowTotal (getTenant limiter' "test")
                 = WindowTotal (getTenant (AfterProbe tr) "test") + 15))
             traces limiters') /\
    (Accepted res = false -> limiters' = afterFirstLoop <$> traces) /\
    RetryIn res = maximum (omap hint traces) /\
    (RetryInAvailable res = true <->
     exists tr h, tr ∈ traces /\ hint tr = Some h /\ 0 < h).
Proof.
  apply (compositeSubmit_spec testComposite 1000000 "test" 15).
  - exact testComposite_ok.
  - unfold two63. lia.
Defined.

(** What a probe does to a member: only the tenant of the request can
    change, and only by rotation. *)
Lemma limiterProbe_frame (now : Z) (key : string) (load : Z) (limiter limiter1 : loadLimiter)
    (r : bool) :
  member_ok now limiter -> 0 <= load < two63 ->
  limiterProbe limiter (buildLoadRequest (Config limiter) now key load) = Some (r, limiter1) ->
  (forall other, other <> key -> getTenant limiter1 other = getTenant limiter other) /\
  WasOver (getTenant limiter1 key) = WasOver (getTenant limiter key) /\
  WindowTotal (getTenant limiter1 key) <= WindowTotal (getTenant limiter key) /\
  (rotationNotNeeded (Config limiter) (buildLoadRequest (Config limiter) now key load)
     (getTenant limiter key) = true ->
   getTenant limiter1 key = getTenant limiter key).
Proof.
  intros [Hinv Hnow] Hload Hlp. pose proof Hinv as [Hc _].
  pose proof (buildLoadRequest_valid (Config limiter) now key load Hc Hnow Hload) as Hreq.
  set (req := buildLoadRequest (Config limiter) now key load) in *.
  destruct (limiter_inv_getTenant limiter key Hinv) as [Hw _].
  destruct (rotateWindow_inv _ _ _ Hc Hreq Hw) as (td' & Hrot & _ & Hle & Hover).
  destruct (rotateWindow_version (Config limiter) req (getTenant limiter key))
    as (td2 & Hrot2 & _ & _ & Hfast).
  rewrite Hrot in Hrot2. injection Hrot2 as <-.
  unfold limiterProbe, probe in Hlp. change (TenantKey req) with key in Hlp.
  rewrite Hrot in Hlp. cbn [mbind option_bind] in Hlp. injection Hlp as _ <-.
  rewrite getTenant_setTenant.
  split; [|split; [exact Hover|split; [exact Hle|exact Hfast]]].
  intros other Hne. now apply getTenant_setTenant_ne.
Qed.

Lemma rejected_members_frame (now : Z) (key : string) (load : Z)
    (limiters : list loadLimiter) (traces : list memberTrace) :
  Forall (member_ok now) limiters -> 0 <= load < two63 ->
  Forall2 (member_trace now key load) limiters traces ->
  Forall2 (fun limiter limiter' =>
             forall limiter1,
               limiterProbe limiter (buildLoadRequest (Config limiter) now key load)
               = Some (true, limiter1) ->
               limiter' = limiter1 /\
               (forall other, other <> key ->
                  getTenant limiter' other = getTenant limiter other) /\
               WasOver (getTenant limiter' key) = WasOver (getTenant limiter key) /\
               WindowTotal (getTenant limiter' key) <= WindowTotal (getTenant limiter key) /\
               (rotationNotNeeded (Config limiter)
                  (buildLoadRequest (Config limiter) now key load)
                  (getTenant limiter key) = true ->
                getTenant limiter' key = getTenant limiter key))
          limiters (afterFirstLoop <$> traces).
Proof.
  intros Hok Hload Htraces.
  induction Htraces as [|limiter tr rest traces Htr _ IH]; [constructor|].
  apply Forall_cons in Hok as [Hlimiter Hrest].
  cbn [fmap list_fmap]. constructor; [|exact (IH Hrest)].
  intros limiter1 Hlp. destruct Htr as [Hlp' Hrej].
  rewrite Hlp in Hlp'. injection Hlp' as Hprobed Hafter.
  rewrite <- Hprobed in Hrej.
  assert (Hsame : afterFirstLoop tr = limiter1)
    by (unfold afterFirstLoop; now rewrite Hrej, <- Hafter).
  rewrite Hsame. split; [reflexivity|].
  exact (limiterProbe_frame now key load limiter limiter1 true Hlimiter Hload Hlp).
Qed.

(** C6 (as amended).  When the composite [submit] rejects, a member that
    probed true is left exactly as its probe left it, the probe result
    being discarded: its other tenants are untouched, the was-over flag of
    the tenant is unchanged, the window total of the tenant has not grown
    (rotation only evicts), and the whole tenant state is unchanged when
    rotation has nothing to do.  Rotation itself may insert the current
    segment, evict old ones and bump the version. *)
Theorem compositeSubmit_rejected_frame (limiters limiters' : list loadLimiter) (now : Z)
    (key : string) (load : Z) (res : SubmitResult) :
  Forall (member_ok now) limiters -> 0 <= load < two63 ->
  compositeSubmit limiters now key load = Some (res, limiters') ->
  Accepted res = false ->
  Forall2 (fun limiter limiter' =>
             forall limiter1,
               limiterProbe limiter (buildLoadRequest (Config limiter) now key load)
               = Some (true, limiter1) ->
               limiter' = limiter1 /\
               (forall other, other <> key ->
                  getTenant limiter' other = getTenant limiter other) /\
               WasOver (getTenant limiter' key) = WasOver (getTenant limiter key) /\
               WindowTotal (getTenant limiter' key) <= WindowTotal (getTenant limiter key) /\
               (rotationNotNeeded (Config limiter)
                  (buildLoadRequest (Config limiter) now key load)
                  (getTenant limiter key) = true ->
                getTenant limiter' key = getTenant limiter key))
          limiters limiters'.
Proof.
  intros Hok Hload Hsubmit Hrejected.
  destruct (member_traces_exist now key load limiters Hok Hload) as (traces & Htraces).
  destruct (compositeSubmit_traces now key load limiters traces Hload Hok Htraces)
    as (limiters2 & Hsubmit2 & Hshape & _).
  rewrite Hsubmit in Hsubmit2. injection Hsubmit2 as -> ->.
  cbn [Accepted] in Hrejected. rewrite (Hshape Hrejected).
  exact (rejected_members_frame now key load limiters traces Hok Hload Htraces).
Qed.

(** C6 (as stated) fails: on the new default composite instance a load of
    50 is rejected by the second member only (its maximum load is 20); the
    first member probes true, and its probe has inserted the current
    segment and taken the version of the tenant from 1 to 2. *)
Lemma compositeSubmit_rejected_frame_counterexample :
  exists res first second limiter1,
    compositeSubmit testComposite 1000000 "test" 50 = Some (res, [first; second]) /\
    Accepted res = false /\
    limiterProbe (mkLimiter testConfig ∅) (buildLoadRequest testConfig 1000000 "test" 50)
    = Some (true, limiter1) /\
    getTenant (mkLimiter testConfig ∅) "test" = mkTenant [] false 0 1 /\
    getTenant first "test" = mkTenant [mkSegment 1000000 0] false 0 2 /\
    getTenant first "test" <> getTenant (mkLimiter testConfig ∅) "test".
Proof.
  eexists _, _, _, _.
  split; [vm_compute; reflexivity|]. split; [reflexivity|].
  split; [vm_compute; reflexivity|]. split; [reflexivity|].
  split; [vm_compute; reflexivity|]. vm_compute. discriminate.
Qed.

Lemma testLoadedTenant_inv (cfg : config) :
  WindowSegmentSize cfg = 1000 \/ WindowSegmentSize cfg = 100 ->
  15 <= AbsoluteMaxPenaltyCap cfg -> tenant_inv cfg testLoadedTenant.
Proof.
  intros Hseg Hcap. split; [split; [split| |]|].
  - repeat constructor.
  - repeat constructor; cbn; unfold u64, two64; try lia.
    destruct Hseg as [-> | ->]; reflexivity.
  - reflexivity.
  - cbn. unfold two64. lia.
  - exact Hcap.
Qed.

Lemma testCompositeLoaded_ok : Forall (member_ok 1000050) testCompositeLoaded.
Proof.
  unfold testCompositeLoaded. constructor; [|constructor; [|constructor]].
  - split; [|cbn; unfold two63; lia].
    apply limiter_inv_setTenant; [apply limiter_inv_new; exact testConfig_valid|].
    apply testLoadedTenant_inv; [now left|cbn; lia].
  - split; [|cbn; unfold two63; lia].
    apply limiter_inv_setTenant; [apply limiter_inv_new; exact testConfigBurst_valid|].
    apply testLoadedTenant_inv; [now right|cbn; lia].
Qed.

Lemma compositeSubmit_rejected_frame_witness :
  exists res limiters',
    compositeSubmit testCompositeLoaded 1000050 "test" 10 = Some (res, limiters') /\
    Accepted res = false /\
    Forall2 (fun limiter limiter' =>
               forall limiter1,
                 limiterProbe limiter (buildLoadRequest (Config limiter) 1000050 "test" 10)
                 = Some (true, limiter1) ->
                 limiter' = limiter1 /\
                 (forall other, other <> "test"%string ->
                    getTenant limiter' other = getTenant limiter other) /\
                 WasOver (getTenant limiter' "test") = WasOver (getTenant limiter "test") /\
                 WindowTotal (getTenant limiter' "test")
                 <= WindowTotal (getTenant limiter "test") /\
                 (rotationNotNeeded (Config limiter)
                    (buildLoadRequest (Config limiter) 1000050 "test" 10)
                    (getTenant limiter "test") = true ->
                  getTenant limiter' "test" = getTenant limiter "test"))
            testCompositeLoaded limiters'.
Proof.
  eexists _, _. split; [vm_compute; reflexivity|]. split; [reflexivity|].
  eapply (compositeSubmit_rejected_frame testCompositeLoaded _ 1000050 "test" 10).
  - exact testCompositeLoaded_ok.
  - unfold two63. lia.
  - vm_compute. reflexivity.
  - reflexivity.
Defined.

Lemma restore_empty_queue_witness :
  restoreSerializedStatus (serializeStatus (mkTenant [] false 0 4)) testLoadedTenant
  = (mkTenant [] false 15 3, Some ErrInvalidFormat).
Proof.
  apply (restore_empty_queue (mkTenant [] false 0 4) testLoadedTenant).
  - unfold fits63, two63. cbn. split; [lia|]. split; [lia|]. constructor.
  - cbn. lia.
  - reflexivity.
Defined.

(** * Further properties of the window engine *)

(** ** What a rotation keeps *)

Lemma filter_all {A} (P : A -> Prop) `{!forall x, Decision (P x)} (l : list A) :
  Forall P l -> filter P l = l.
Proof.
  induction 1 as [|x l Hx _ IH]; [reflexivity|].
  now rewrite filter_cons_True, IH.
Qed.

Lemma filter_none {A} (P : A -> Prop) `{!forall x, Decision (P x)} (l : list A) :
  Forall (fun x => ~ P x) l -> filter P l = [].
Proof.
  induction 1 as [|x l Hx _ IH]; [reflexivity|].
  now rewrite filter_cons_False.
Qed.

Lemma sumValues_filter_split (P Q R : windowSegment -> Prop)
    `{!forall x, Decision (P x)} `{!forall x, Decision (Q x)} `{!forall x, Decision (R x)}
    (l : list windowSegment) :
  (forall x, R x <-> P x \/ Q x) -> (forall x, P x -> Q x -> False) ->
  sumValues (filter R l) = sumValues (filter P l) + sumValues (filter Q l).
Proof.
  intros Hor Hdisj. induction l as [|x l IH]; [reflexivity|].
  rewrite !filter_cons.
  destruct (decide (P x)) as [HP|HP]; destruct (decide (Q x)) as [HQ|HQ];
    destruct (decide (R x)) as [HR|HR]; rewrite ?sumValues_cons;
    try (exfalso; apply (Hdisj x); assumption);
    try (exfalso; apply HR, Hor; auto; fail);
    try (exfalso; apply Hor in HR as [|]; auto; fail); lia.
Qed.

Lemma sumValues_filter_le (P : windowSegment -> Prop) `{!forall x, Decision (P x)}
    (l : list windowSegment) :
  Forall (fun s => 0 <= Value s) l -> 0 <= sumValues (filter P l) <= sumValues l.
Proof.
  induction 1 as [|x l Hx _ IH]; [cbn; lia|].
  rewrite filter_cons. destruct (decide (P x)); rewrite ?sumValues_cons; lia.
Qed.

Lemma queue_inv_below_head (cfg : config) (bound : Z) (q : list windowSegment) :
  queue_inv cfg q ->
  match q with [] => True | f :: _ => StartTime f <= bound end ->
  Forall (fun s => StartTime s <= bound) q.
Proof.
  intros Hq Hhd. destruct q as [|f q]; [constructor|].
  pose proof (queue_inv_le_front cfg f q Hq) as Hle.
  eapply Forall_impl; [exact Hle|]. cbn. intros; lia.
Qed.

Lemma popFutureSegments_exact (cfg : config) (expected : Z) (q : list windowSegment) (t : Z) :
  queue_inv cfg q -> sumValues q <= t < two64 ->
  popFutureSegments expected q 0 t
  = (filter (fun s => StartTime s <= expected) q,
     sumValues (filter (fun s => expected < StartTime s) q),
     t - sumValues (filter (fun s => expected < StartTime s) q)).
Proof.
  intros Hq Ht. pose proof (queue_inv_values cfg _ Hq) as Hvals.
  pose proof (sumValues_nonneg _ Hvals) as Hnn.
  destruct (popFutureSegments_spec expected q 0 t Hvals ltac:(lia) Ht ltac:(lia))
    as (popped & q1 & -> & -> & Hpop & Hhd).
  apply queue_inv_app in Hq as (_ & Hq1 & _).
  pose proof (queue_inv_below_head cfg expected q1 Hq1 Hhd) as Hold.
  rewrite !filter_app.
  rewrite (filter_none (fun s => StartTime s <= expected) popped)
    by (eapply Forall_impl; [exact Hpop|]; cbn; intros; lia).
  rewrite (filter_all (fun s => StartTime s <= expected) q1) by exact Hold.
  rewrite (filter_all (fun s => expected < StartTime s) popped) by exact Hpop.
  rewrite (filter_none (fun s => expected < StartTime s) q1)
    by (eapply Forall_impl; [exact Hold|]; cbn; intros; lia).
  rewrite app_nil_r, Z.add_0_l. reflexivity.
Qed.

Lemma requireFrontSegment_exact (cfg : config) (expected : Z) (q1 : list windowSegment) :
  queue_inv cfg q1 -> Forall (fun s => StartTime s <= expected) q1 ->
  exists d,
    requireFrontSegment expected q1
    = ({| StartTime := expected;
          Value := sumValues (filter (fun s => expected <= StartTime s) q1) |}
       :: filter (fun s => StartTime s < expected) q1, d).
Proof.
  intros Hq Hold. unfold requireFrontSegment.
  destruct q1 as [|front rest]; [eexists; reflexivity|].
  pose proof (proj1 (queue_inv_cons cfg front rest) Hq) as (_ & _ & Hlt).
  apply Forall_cons in Hold as [Hfront _].
  destruct (Z.eqb_spec (StartTime front) expected) as [Heq|Hne]; cbn [negb].
  - exists false. rewrite filter_cons_True by lia. rewrite filter_cons_False by lia.
    rewrite (filter_none (fun s => expected <= StartTime s) rest)
      by (eapply Forall_impl; [exact Hlt|]; cbn; intros; lia).
    rewrite (filter_all (fun s => StartTime s < expected) rest)
      by (eapply Forall_impl; [exact Hlt|]; cbn; intros; lia).
    destruct front as [s v]. cbn in *. subst s. do 3 f_equal. lia.
  - exists true. rewrite filter_cons_False by lia. rewrite filter_cons_True by lia.
    rewrite (filter_none (fun s => expected <= StartTime s) rest)
      by (eapply Forall_impl; [exact Hlt|]; cbn; intros; lia).
    rewrite (filter_all (fun s => StartTime s < expected) rest)
      by (eapply Forall_impl; [exact Hlt|]; cbn; intros; lia).
    reflexivity.
Qed.

Lemma removeObsoleteSegments_exact (cfg : config) (req : submitRequest)
    (front : windowSegment) (rest : list windowSegment) (total : Z) (dirty : bool) :
  valid_config cfg -> valid_request cfg req ->
  queue_inv cfg (front :: rest) ->
  StartTime front = RequestSegmentStartTime req ->
  sumValues (front :: rest) <= total < two64 ->
  exists d3,
    removeObsoleteSegments cfg req (front :: rest) total dirty
    = (front :: filter (fun s => RequestedTimestamp req < StartTime s + WindowSize cfg) rest,
       total - sumValues
                 (filter (fun s => ~ RequestedTimestamp req < StartTime s + WindowSize cfg) rest),
       d3).
Proof.
  intros Hc Hr Hq Hfront Htot.
  destruct (request_facts cfg req Hc Hr) as (HS0 & HSt & HtS & HSa & HWS & HsegW).
  assert (Hrb : sub64 (RequestedTimestamp req) (WindowSize cfg)
                = RequestedTimestamp req - WindowSize cfg).
  { apply sub64_exact. destruct Hr. unfold two64, two63 in *. lia. }
  unfold removeObsoleteSegments.
  destruct (Z.ltb_spec 1 (Z.of_nat (length (front :: rest)))) as [Hlen|Hlen].
  - rewrite Hrb.
    destruct (evictOldSegments_spec (RequestedTimestamp req - WindowSize cfg)
                (rev (front :: rest)) total dirty) as (ev & l' & d' & Hsplit & -> & Hev & Hhd).
    { apply Forall_rev. now apply queue_inv_values in Hq. }
    { now rewrite sumValues_rev. }
    cbn [rev] in Hsplit.
    apply app_snoc_split in Hsplit as (l'' & -> & Hrest).
    2:{ intros Hin. rewrite Forall_forall in Hev. specialize (Hev front Hin). lia. }
    rewrite rev_app_distr. cbn [rev app].
    assert (Hrest2 : rest = rev l'' ++ rev ev).
    { rewrite <- rev_app_distr, <- Hrest. now rewrite rev_involutive. }
    assert (Hlive : Forall (fun s => RequestedTimestamp req < StartTime s + WindowSize cfg)
                      (rev l'')).
    { destruct l'' as [|h l3]; [constructor|].
      cbn [app] in Hhd. rewrite Hrest2 in Hq.
      change (front :: rev (h :: l3) ++ rev ev) with ((front :: rev (h :: l3)) ++ rev ev) in Hq.
      apply queue_inv_app in Hq as (Hq3 & _ & _). cbn [rev] in *.
      change (front :: rev l3 ++ [h]) with ((front :: rev l3) ++ [h]) in Hq3.
      pose proof (queue_inv_ge_last cfg _ _ Hq3) as Hge.
      apply Forall_app in Hge as [Hge1 Hge2]. apply Forall_cons in Hge1 as [_ Hge1].
      apply Forall_app. split; (eapply Forall_impl; [eassumption|]); cbn; intros; lia. }
    assert (Hdead : Forall (fun s => ~ RequestedTimestamp req < StartTime s + WindowSize cfg)
                      (rev ev)).
    { apply Forall_rev. eapply Forall_impl; [exact Hev|]. cbn. intros; lia. }
    exists d'. rewrite Hrest2, !filter_app.
    rewrite (filter_all _ (rev l'')) by exact Hlive.
    rewrite (filter_none (fun s => RequestedTimestamp req < StartTime s + WindowSize cfg) (rev ev))
      by exact Hdead.
    rewrite (filter_none (fun s => ~ RequestedTimestamp req < StartTime s + WindowSize cfg)
               (rev l''))
      by (eapply Forall_impl; [exact Hlive|]; cbn; intros; tauto).
    rewrite (filter_all _ (rev ev)) by exact Hdead.
    now rewrite app_nil_r, app_nil_l, sumValues_rev.
  - destruct rest as [|x rest]; [|cbn [length] in Hlen; lia].
    exists dirty. cbn. f_equal. f_equal. lia.
Qed.

Lemma sum_rotatedQueue (cfg : config) (req : submitRequest) (q : list windowSegment) :
  valid_config cfg -> valid_request cfg req ->
  sumValues (rotatedQueue cfg req q) = liveLoad cfg (RequestedTimestamp req) q.
Proof.
  intros Hc Hr.
  destruct (request_facts cfg req Hc Hr) as (HS0 & HSt & HtS & HSa & HWS & HsegW).
  pose proof (vc_seg cfg Hc) as Hseg.
  unfold rotatedQueue, liveLoad. rewrite sumValues_cons. cbn [Value].
  symmetry. apply sumValues_filter_split; intros x; lia.
Qed.

(** The whole effect of a rotation on the queue and on the total: the load
    of the segments that are still inside the window is kept, the load of
    the others is dropped, and the load of segments that start after the
    request's segment is moved to it. *)
Lemma rotateWindow_exact (cfg : config) (req : submitRequest) (td : tenantData) :
  valid_config cfg -> valid_request cfg req -> window_inv cfg td ->
  exists td',
    rotateWindow cfg req td = Some td' /\
    WindowQueue td' = rotatedQueue cfg req (WindowQueue td) /\
    WindowTotal td' = liveLoad cfg (RequestedTimestamp req) (WindowQueue td).
Proof.
  intros Hc Hr Hw.
  destruct (rotateWindow_inv cfg req td Hc Hr Hw) as (td' & Hrot & Hrotated & _).
  exists td'. split; [exact Hrot|].
  assert (Hqueue : WindowQueue td' = rotatedQueue cfg req (WindowQueue td)).
  2:{ split; [exact Hqueue|]. destruct Hrotated as [[_ Htot _] _ _].
      rewrite Htot, Hqueue. now apply sum_rotatedQueue. }
  destruct (request_facts cfg req Hc Hr) as (HS0 & HSt & HtS & HSa & HWS & HsegW).
  assert (HuS : u64 (RequestSegmentStartTime req)).
  { destruct Hr. unfold u64, two64, two63 in *. lia. }
  pose proof Hw as [Hq Htot Hrange].
  pose proof (queue_inv_values cfg _ Hq) as Hvals.
  unfold rotateWindow in Hrot. destruct (rotationNotNeeded cfg req td) eqn:Hfast.
  - injection Hrot as <-. destruct Hrotated as [_ (front & rest & Hqueue & Hfront) Hbound].
    rewrite Hqueue in *. unfold rotatedQueue.
    pose proof (proj1 (queue_inv_cons cfg front rest) Hq) as (_ & _ & Hlt).
    apply Forall_cons in Hbound as [_ Hbound].
    rewrite filter_cons_True by lia.
    rewrite (filter_none (fun s => RequestSegmentStartTime req <= StartTime s) rest)
      by (eapply Forall_impl; [exact Hlt|]; cbn; intros; lia).
    rewrite filter_cons_False by lia.
    rewrite filter_all.
    + destruct front as [s v]. cbn in *. subst s. do 2 f_equal. lia.
    + apply Forall_forall. intros x Hx. rewrite Forall_forall in Hlt, Hbound.
      specialize (Hlt x Hx). specialize (Hbound x Hx). cbn in *. lia.
  - assert (Htot' : sumValues (WindowQueue td) <= WindowTotal td < two64) by lia.
    rewrite (popFutureSegments_exact cfg _ _ _ Hq Htot') in Hrot.
    set (S := RequestSegmentStartTime req) in *.
    set (q := WindowQueue td) in *.
    set (q1 := filter (fun s => StartTime s <= S) q) in *.
    set (removed := sumValues (filter (fun s => S < StartTime s) q)) in *.
    assert (Hq1 : queue_inv cfg q1 /\ Forall (fun s => StartTime s <= S) q1 /\
                  sumValues q1 = sumValues q - removed).
    { destruct (popFutureSegments_spec S q 0 (WindowTotal td) Hvals ltac:(lia) ltac:(lia)
                  ltac:(pose proof (sumValues_nonneg _ Hvals); lia))
        as (popped & q1' & Hsplit & Hpf & _).
      rewrite (popFutureSegments_exact cfg _ _ _ Hq Htot') in Hpf.
      injection Hpf as Hq1' Hrem _. fold S q in Hq1', Hrem. fold q1 in Hq1'. fold removed in Hrem.
      rewrite <- Hq1' in Hsplit. fold q in Hsplit. rewrite Hsplit in Hq.
      apply queue_inv_app in Hq as (_ & Hq1 & _).
      split; [exact Hq1|]. split.
      - subst q1. apply Forall_forall. intros x Hx. now apply list_elem_of_filter in Hx as [Hx _].
      - rewrite Hsplit, sumValues_app. lia. }
    destruct Hq1 as (Hq1 & Hold & Hsum1).
    destruct (requireFrontSegment_exact cfg S q1 Hq1 Hold) as (d2 & Hreq).
    rewrite Hreq in Hrot.
    set (front := {| StartTime := S;
                     Value := sumValues (filter (fun s => S <= StartTime s) q1) |}) in *.
    set (rest := filter (fun s => StartTime s < S) q1) in *.
    destruct (requireFrontSegment_spec cfg S q1 Hq1 HuS HSa
                ltac:(destruct q1 as [|f q1']; [exact I|now apply Forall_cons in Hold as [? _]]))
      as (front' & rest' & d2' & Hreq' & Hfront' & Hq2 & Hsum2).
    rewrite Hreq in Hreq'. injection Hreq' as <- <- _.
    pose proof (sumValues_filter_le (fun s => S < StartTime s) q Hvals) as Hrem.
    fold removed in Hrem.
    destruct (removeObsoleteSegments_exact cfg req front rest (WindowTotal td - removed) d2
                Hc Hr Hq2 eq_refl ltac:(lia)) as (d3 & Hobs).
    rewrite Hobs in Hrot.
    assert (Hrest : filter (fun s => RequestedTimestamp req < StartTime s + WindowSize cfg) rest
                    = filter (fun s => StartTime s < S /\
                                       RequestedTimestamp req < StartTime s + WindowSize cfg) q).
    { subst rest q1. rewrite !list_filter_filter. apply list_filter_iff. intros x. lia. }
    assert (Hvalue : Value front + removed
                     = sumValues (filter (fun s => S <= StartTime s) q)).
    { subst front q1 removed. cbn [Value]. rewrite list_filter_filter.
      symmetry. apply sumValues_filter_split; intros x; lia. }
    pose proof (sumValues_filter_le (fun s => S <= StartTime s) q Hvals) as Hfv.
    unfold rotatedQueue. fold S q. rewrite <- Hrest, <- Hvalue.
    destruct (Z.ltb_spec 0 removed) as [Hpos|Hzero].
    + rewrite (distributePenalty_front cfg req _ _ front
                 (filter (fun s => RequestedTimestamp req < StartTime s + WindowSize cfg) rest))
        in Hrot by (assumption || reflexivity || lia).
      cbn [mbind option_bind] in Hrot. rewrite orb_true_r in Hrot.
      injection Hrot as <-. cbn [markDirty setQueue WindowQueue StartTime Value].
      change (Value front) with (sumValues (filter (fun s => S <= StartTime s) q1))
        in Hvalue |- *.
      rewrite add64_exact by lia. reflexivity.
    + cbn [mbind option_bind] in Hrot. injection Hrot as <-.
      assert (removed = 0) by lia.
      destruct (d3 || false); cbn [markDirty setQueue WindowQueue];
        subst front; cbn [Value]; do 2 f_equal; lia.
Qed.

(** A rotated state needs no rotation for the same request. *)
Lemma rotated_rotationNotNeeded (cfg : config) (req : submitRequest) (td : tenantData) :
  valid_config cfg -> valid_request cfg req -> rotated cfg req td ->
  rotationNotNeeded cfg req td = true.
Proof.
  intros Hc Hr [Hw (front & rest & Hq & Hfront) Hbound].
  destruct (request_facts cfg req Hc Hr) as (HS0 & HSt & HtS & HSa & HWS & HsegW).
  unfold rotationNotNeeded. rewrite Hq in *.
  destruct (last (front :: rest)) as [back|] eqn:Hlast.
  - assert (Hin : back ∈ front :: rest).
    { apply last_Some in Hlast as [l' ->]. apply elem_of_app. right. now left. }
    rewrite Forall_forall in Hbound. specialize (Hbound back Hin). cbn in Hbound.
    rewrite sub64_exact by (destruct Hr; unfold two64, two63 in *; lia).
    apply andb_true_iff. split; [now apply Z.eqb_eq|apply Z.ltb_lt; lia].
  - apply last_None in Hlast. discriminate.
Qed.

Lemma rotateWindow_rotated (cfg : config) (req : submitRequest) (td : tenantData) :
  valid_config cfg -> valid_request cfg req -> rotated cfg req td ->
  rotateWindow cfg req td = Some td.
Proof.
  intros Hc Hr Hrot. unfold rotateWindow.
  now rewrite (rotated_rotationNotNeeded cfg req td Hc Hr Hrot).
Qed.

Lemma setTenant_setTenant (inst : loadLimiter) (key : string) (td td' : tenantData) :
  setTenant (setTenant inst key td) key td' = setTenant inst key td'.
Proof. unfold setTenant. cbn. now rewrite insert_insert_eq. Qed.

(** ** The retry-in hint *)

Lemma lastContributing_split (l : list windowSegment) (toFree : Z) (s : windowSegment) :
  lastContributing l toFree = Some s ->
  exists pre post, l = pre ++ s :: post /\ toFree <= sumValues pre + Value s.
Proof.
  revert toFree. induction l as [|x l IH]; intros toFree; cbn [lastContributing];
    [discriminate|].
  destruct (Z.leb_spec (toFree - Value x) 0) as [Hdone|Hmore].
  - intros [= <-]. exists [], l. split; [reflexivity|]. cbn. lia.
  - intros Hs. destruct (IH _ Hs) as (pre & post & -> & Hsum).
    exists (x :: pre), post. split; [reflexivity|]. rewrite sumValues_cons. lia.
Qed.

(** Once the last contributing segment has left the window, the load that
    is left is at most the total minus the load to free. *)
Lemma liveLoad_after_hint (cfg : config) (queue : list windowSegment) (toFree t' : Z)
    (s : windowSegment) :
  queue_inv cfg queue ->
  lastContributing (rev queue) toFree = Some s ->
  StartTime s + WindowSize cfg <= t' ->
  liveLoad cfg t' queue <= sumValues queue - toFree.
Proof.
  intros Hq Hlast Ht'.
  destruct (lastContributing_split _ _ _ Hlast) as (pre & post & Hsplit & Hsum).
  assert (Hqueue : queue = rev post ++ s :: rev pre).
  { rewrite <- (rev_involutive queue), Hsplit, rev_app_distr. cbn [rev].
    now rewrite <- app_assoc. }
  pose proof (queue_inv_values cfg _ Hq) as Hvals.
  rewrite Hqueue in Hq, Hvals. apply Forall_app in Hvals as [Hvpost _].
  apply queue_inv_app in Hq as (_ & Hold & _).
  pose proof (queue_inv_le_front cfg s (rev pre) Hold) as Hle.
  unfold liveLoad. rewrite Hqueue, filter_app.
  rewrite (filter_none _ (s :: rev pre))
    by (eapply Forall_impl; [exact Hle|]; cbn; intros; lia).
  rewrite app_nil_r.
  pose proof (sumValues_filter_le (fun x => t' < StartTime x + WindowSize cfg) (rev post) Hvpost).
  rewrite sumValues_app, sumValues_cons, !sumValues_rev in *. lia.
Qed.

Lemma rejectLoad_hint (cfg : config) (req : submitRequest) (td td3 : tenantData)
    (res : SubmitResult) :
  rejectLoad cfg req td = Some (td3, res) ->
  Accepted res = false /\
  (RetryInAvailable res = true ->
   SkipRetryInComputing cfg = false /\ computeRetryIn cfg req td3 = Some (Ok (RetryIn res))) /\
  (RetryInAvailable res = false ->
   SkipRetryInComputing cfg = true \/ exists e, computeRetryIn cfg req td3 = Some (Err e)).
Proof.
  unfold rejectLoad.
  destruct (rejectPenalty cfg req td) as [[[td1 someAdded] dirty]|]; [|discriminate].
  cbn [mbind option_bind].
  destruct (SkipRetryInComputing cfg); cbn [negb].
  - intros [= <- <-]. cbn. split; [reflexivity|]. split; [discriminate|]. now left.
  - set (td3' := if dirty then _ else _).
    destruct (computeRetryIn cfg req td3') as [[d|e]|] eqn:Hretry; [| |discriminate];
      cbn [mbind option_bind]; intros [= <- <-]; cbn.
    + split; [reflexivity|]. split; [intros _; now split|discriminate].
    + split; [reflexivity|]. split; [discriminate|]. intros _. right. now exists e.
Qed.

(** The hint of a rejection is enough: at any time from the request time
    plus the hint on, the same load is within the limit, as long as nothing
    else is submitted in between. *)
Lemma probe_after_hint (cfg : config) (req req' : submitRequest) (td : tenantData) (d : Z) :
  valid_config cfg -> valid_request cfg req -> valid_request cfg req' ->
  rotated cfg req td -> WindowTotal td <= AbsoluteMaxPenaltyCap cfg ->
  RequestedLoad req' = RequestedLoad req ->
  computeRetryIn cfg req td = Some (Ok d) ->
  RequestedTimestamp req + d / millisecond <= RequestedTimestamp req' ->
  exists td', probe cfg req' td = Some (true, td').
Proof.
  intros Hc Hr Hr' Hrot Hcapped Hload Hretry Hlater.
  pose proof (vc_cap cfg Hc) as Hcap.
  pose proof Hrot as [Hw _ _]. pose proof Hw as [Hq Htot _].
  pose proof (queue_inv_values cfg _ Hq) as Hvals.
  destruct (probe_inv cfg req' td Hc Hr' (tenant_inv_rotated _ _ _ Hrot Hcapped))
    as (td' & Hprobe & Hrotate & _).
  destruct (rotateWindow_exact cfg req' td Hc Hr' Hw) as (td2 & Hrotate2 & _ & Hlive).
  rewrite Hrotate in Hrotate2. injection Hrotate2 as <-.
  exists td'. rewrite Hprobe. f_equal. f_equal. apply Z.leb_le. rewrite Hlive, Hload.
  destruct (computeRetryIn_cases cfg req td Hc Hr Hrot ltac:(lia)) as (Hexc & Hfree & Hwait).
  destruct (Z.ltb_spec (MaxLoad cfg) (RequestedLoad req)) as [Hbig|Hsmall].
  { rewrite (Hexc Hbig) in Hretry. discriminate. }
  destruct (Z.leb_spec (RequestedLoad req + WindowTotal td) (MaxLoad cfg)) as [Hfits|Hover].
  - pose proof (sumValues_filter_le
                  (fun s => RequestedTimestamp req' < StartTime s + WindowSize cfg)
                  (WindowQueue td) Hvals) as Hle.
    unfold liveLoad. lia.
  - destruct (Hwait Hsmall Hover) as (s & Hlast & _ & Hd & Hpos).
    rewrite Hd in Hretry. injection Hretry as <-.
    rewrite Z.mul_comm, Z.div_mul in Hlater by (unfold millisecond; lia).
    pose proof (liveLoad_after_hint cfg (WindowQueue td) _ (RequestedTimestamp req') s
                  Hq Hlast ltac:(lia)) as Hle.
    lia.
Qed.

(** What [Submit] does: the rotated state, then the accept path or the
    reject path according to the probe. *)
Lemma Submit_paths (inst : loadLimiter) (now : Z) (key : string) (load : Z) :
  limiter_inv inst -> WindowSize (Config inst) <= now < two63 -> 0 <= load < two63 ->
  exists rot td' res,
    rotateWindow (Config inst) (buildLoadRequest (Config inst) now key load)
      (getTenant inst key) = Some rot /\
    rotated (Config inst) (buildLoadRequest (Config inst) now key load) rot /\
    WindowTotal rot <= AbsoluteMaxPenaltyCap (Config inst) /\
    WasOver rot = WasOver (getTenant inst key) /\
    Probe inst now key load
    = Some (WindowTotal rot + load <=? MaxLoad (Config inst), setTenant inst key rot) /\
    Submit inst now key load = Some (res, setTenant inst key td') /\
    rotated (Config inst) (buildLoadRequest (Config inst) now key load) td' /\
    WindowTotal td' <= AbsoluteMaxPenaltyCap (Config inst) /\
    (if WindowTotal rot + load <=? MaxLoad (Config inst)
     then acceptLoad (Config inst) (buildLoadRequest (Config inst) now key load) rot = Some td' /\
          res = {| Accepted := true; RetryInAvailable := false; RetryIn := 0 |}
     else rejectLoad (Config inst) (buildLoadRequest (Config inst) now key load) rot
          = Some (td', res)).
Proof.
  intros Hinv Hnow Hload. pose proof Hinv as [Hc _].
  pose proof (buildLoadRequest_valid (Config inst) now key load Hc Hnow Hload) as Hreq.
  set (req := buildLoadRequest (Config inst) now key load) in *.
  pose proof (vc_cap _ Hc) as Hcap.
  destruct (probe_inv _ _ _ Hc Hreq (limiter_inv_getTenant inst key Hinv))
    as (rot & Hprobe & Hrotate & Hrot & Hcapped & Hover).
  change (RequestedLoad req) with load in Hprobe.
  unfold Probe, Submit, submitTask. fold req. rewrite Hprobe. cbn [mbind option_bind].
  destruct (WindowTotal rot + load <=? MaxLoad (Config inst)) eqn:Hfit.
  - apply Z.leb_le in Hfit.
    destruct (acceptLoad_inv _ _ _ Hc Hreq Hrot ltac:(lia)) as (td' & Hacc & Hrot' & Htot' & _).
    rewrite Hacc. cbn [mbind option_bind].
    exists rot, td', {| Accepted := true; RetryInAvailable := false; RetryIn := 0 |}.
    rewrite (proj2 (Z.leb_le _ _) Hfit).
    change (RequestedLoad req) with load in Htot'.
    split; [exact Hrotate|]. split; [exact Hrot|]. split; [exact Hcapped|].
    split; [exact Hover|]. split; [reflexivity|]. split; [reflexivity|].
    split; [exact Hrot'|]. split; [lia|]. split; [exact Hacc|reflexivity].
  - destruct (rejectLoad_inv _ _ _ Hc Hreq Hrot Hcapped)
      as (td' & res & Hrej & Hrot' & Hcap' & _).
    rewrite Hrej. cbn [mbind option_bind].
    exists rot, td', res. rewrite Hfit.
    split; [exact Hrotate|]. split; [exact Hrot|]. split; [exact Hcapped|].
    split; [exact Hover|]. split; [reflexivity|]. split; [reflexivity|].
    split; [exact Hrot'|]. split; [exact Hcap'|exact Hrej].
Qed.

Lemma retry_hint_sound (inst inst' : loadLimiter) (now now' : Z) (key : string)
    (load : Z) (res : SubmitResult) :
  limiter_inv inst -> WindowSize (Config inst) <= now < two63 -> 0 <= load < two63 ->
  Submit inst now key load = Some (res, inst') ->
  Accepted res = false -> RetryInAvailable res = true ->
  now + RetryIn res / millisecond <= now' < two63 ->
  0 <= RetryIn res /\
  exists inst'', Probe inst' now' key load = Some (true, inst'').
Proof.
  intros Hinv Hnow Hload Hsubmit Hrejected Havailable Hlater. pose proof Hinv as [Hc _].
  destruct (Submit_paths inst now key load Hinv Hnow Hload)
    as (rot & td' & res' & _ & Hrot & Hcapped & _ & _ & Hsubmit' & Hrot' & Hcap' & Hpath).
  rewrite Hsubmit in Hsubmit'. injection Hsubmit' as <- ->.
  pose proof (buildLoadRequest_valid (Config inst) now key load Hc Hnow Hload) as Hreq.
  destruct (WindowTotal rot + load <=? MaxLoad (Config inst)).
  { destruct Hpath as [_ ->]. discriminate. }
  destruct (rejectLoad_hint _ _ _ _ _ Hpath) as (_ & Hhint & _).
  destruct (Hhint Havailable) as [_ Hretry].
  destruct (computeRetryIn_nonneg _ _ _ Hc Hreq Hrot' ltac:(pose proof (vc_cap _ Hc); lia))
    as (r & Hr1 & Hr2).
  rewrite Hretry in Hr1. injection Hr1 as <-. split; [exact Hr2|].
  assert (Hnow' : WindowSize (Config inst) <= now' < two63).
  { split; [|lia]. pose proof (Z.div_pos (RetryIn res) millisecond Hr2 ltac:(unfold millisecond; lia)).
    lia. }
  pose proof (buildLoadRequest_valid (Config inst) now' key load Hc Hnow' Hload) as Hreq'.
  destruct (probe_after_hint (Config inst) _ _ td' (RetryIn res) Hc Hreq Hreq' Hrot' Hcap'
              eq_refl Hretry) as (td'' & Hprobe).
  { cbn [buildLoadRequest RequestedTimestamp].
    rewrite !wrap64_id by (unfold u64, two64, two63 in *; pose proof (vc_seg _ Hc);
                           pose proof (vc_num _ Hc); pose proof (vc_window _ Hc); nia).
    lia. }
  exists (setTenant (setTenant inst key td') key td'').
  unfold Probe. change (Config (setTenant inst key td')) with (Config inst).
  rewrite getTenant_setTenant, Hprobe. reflexivity.
Qed.

(** Waiting for the retry-in of a rejection is enough.  When [Submit]
    rejects a load with a hint, a probe of the same load at any later time
    that is at least the hint away answers true, provided nothing was
    submitted for the tenant in between. *)
Theorem Probe_after_RetryIn (inst inst' : loadLimiter) (now now' : Z) (key : string)
    (load : Z) (res : SubmitResult) :
  limiter_inv inst -> WindowSize (Config inst) <= now < two63 -> 0 <= load < two63 ->
  Submit inst now key load = Some (res, inst') ->
  Accepted res = false -> RetryInAvailable res = true ->
  now + RetryIn res / millisecond <= now' < two63 ->
  0 <= RetryIn res /\
  exists inst'', Probe inst' now' key load = Some (true, inst'').
Proof. exact (retry_hint_sound inst inst' now now' key load res). Qed.

(** ** The reject path *)

Lemma rejectPenalty_cases (cfg : config) (req : submitRequest) (td : tenantData) :
  valid_config cfg -> valid_request cfg req -> rotated cfg req td ->
  WindowTotal td <= AbsoluteMaxPenaltyCap cfg ->
  exists td1 someAdded dirty,
    rejectPenalty cfg req td = Some (td1, someAdded, dirty) /\
    rotated cfg req td1 /\
    WindowTotal td1 = WindowTotal td + rejectionPenalty cfg req (WasOver td) /\
    0 <= rejectionPenalty cfg req (WasOver td) /\
    Version td1 = Version td /\
    WasOver td1 = true /\
    dirty = negb (WasOver td) || (0 <? rejectionPenalty cfg req (WasOver td)) /\
    (dirty = false -> td1 = td /\ someAdded = false).
Proof.
  intros Hc Hr Hrot Hcapped.
  pose proof (vc_cap cfg Hc) as Hcap. pose proof (vc_overstep cfg Hc) as Hov.
  unfold rejectPenalty, rejectionPenalty. destruct (WasOver td) eqn:Hwas; cbn [negb orb].
  - destruct (ApplyRequestOverheadPenalty cfg) eqn:Happly; cbn [andb].
    + destruct (Z.leb_spec 1 (RequestOverheadPenalty cfg (RequestedLoad req))) as [Hpen|Hpen].
      * pose proof (vc_overhead cfg Hc (RequestedLoad req)) as Hlt.
        rewrite wrap64_id by (unfold u64, two64, two63 in *; lia).
        destruct (distributePenalty_inv cfg req
                    (RequestOverheadPenalty cfg (RequestedLoad req))
                    (RequestOverheadPenaltySegmentSpan cfg) td Hc Hr Hrot)
          as (td1 & -> & Hrot1 & Htot1 & Hover1 & Hver1).
        { lia. }
        { unfold two64, two63 in *. lia. }
        { now apply (vc_overhead_span cfg Hc). }
        cbn [mbind option_bind]. eexists _, _, _. split; [reflexivity|].
        split; [exact Hrot1|]. split; [exact Htot1|]. split; [lia|]. split; [exact Hver1|].
        split; [congruence|]. split; [symmetry; apply Z.ltb_lt; lia|discriminate].
      * eexists _, _, _. split; [reflexivity|]. split; [exact Hrot|]. split; [lia|].
        split; [lia|]. split; [reflexivity|]. split; [exact Hwas|]. split; [reflexivity|auto].
    + eexists _, _, _. split; [reflexivity|]. split; [exact Hrot|]. split; [lia|].
      split; [lia|]. split; [reflexivity|]. split; [exact Hwas|]. split; [reflexivity|auto].
  - destruct (ApplyOverstepPenalty cfg) eqn:Happly.
    + destruct (distributePenalty_inv cfg req (AbsoluteOverstepPenalty cfg)
                  (OverstepPenaltySegmentSpan cfg) td Hc Hr Hrot)
        as (td1 & -> & Hrot1 & Htot1 & Hover1 & Hver1).
      { lia. }
      { unfold two64, two63 in *. lia. }
      { now apply (vc_overstep_span cfg Hc). }
      cbn [mbind option_bind]. eexists _, _, _. split; [reflexivity|].
      split; [now apply rotated_setWasOver|]. split; [exact Htot1|]. split; [lia|].
      split; [exact Hver1|]. split; [reflexivity|]. split; [reflexivity|discriminate].
    + cbn [mbind option_bind]. eexists _, _, _. split; [reflexivity|].
      split; [now apply rotated_setWasOver|]. split; [cbn; lia|]. split; [lia|].
      split; [reflexivity|]. split; [reflexivity|]. split; [reflexivity|discriminate].
Qed.

(** The state and the result after [rejectLoad]. *)
Lemma rejectLoad_cases (cfg : config) (req : submitRequest) (td : tenantData) :
  valid_config cfg -> valid_request cfg req -> rotated cfg req td ->
  WindowTotal td <= AbsoluteMaxPenaltyCap cfg ->
  exists td' res,
    rejectLoad cfg req td = Some (td', res) /\
    rotated cfg req td' /\
    WindowTotal td'
    = Z.min (WindowTotal td + rejectionPenalty cfg req (WasOver td))
            (AbsoluteMaxPenaltyCap cfg) /\
    0 <= rejectionPenalty cfg req (WasOver td) /\
    WasOver td' = true /\
    Version td'
    = (if negb (WasOver td) || (0 <? rejectionPenalty cfg req (WasOver td))
       then add64 (Version td) 1 else Version td) /\
    (WasOver td = true -> rejectionPenalty cfg req true = 0 -> td' = td).
Proof.
  intros Hc Hr Hrot Hcapped.
  destruct (rejectPenalty_cases cfg req td Hc Hr Hrot Hcapped)
    as (td1 & someAdded & dirty & Hpen & Hrot1 & Htot1 & Hnn & Hver1 & Hover1 & Hdirty & Hclean).
  destruct (rejectLoad_inv cfg req td Hc Hr Hrot Hcapped) as (td' & res & Hrej & Hrot' & _).
  exists td', res. split; [exact Hrej|]. split; [exact Hrot'|].
  unfold rejectLoad in Hrej. rewrite Hpen in Hrej. cbn [mbind option_bind] in Hrej.
  set (td2 := if someAdded then applyCapping cfg req td1 else td1) in *.
  set (td3 := if dirty then markDirty td2 else td2) in *.
  assert (Hsame : td' = td3).
  { destruct (negb (SkipRetryInComputing cfg)).
    - destruct (computeRetryIn cfg req td3) as [[d|e]|]; cbn [mbind option_bind] in Hrej;
        [| |discriminate]; now injection Hrej as <- _.
    - now injection Hrej as <- _. }
  assert (H2 : WindowTotal td2
               = Z.min (WindowTotal td + rejectionPenalty cfg req (WasOver td))
                       (AbsoluteMaxPenaltyCap cfg) /\
               WasOver td2 = true /\ Version td2 = Version td).
  { subst td2. destruct someAdded.
    - destruct (applyCapping_inv cfg req td1 Hc Hr Hrot1) as (_ & Ha & Hb & Hc' & _).
      rewrite Ha, Hb, Hc', Htot1. auto.
    - rewrite Htot1. split; [|auto].
      destruct dirty.
      + symmetry in Hdirty. apply orb_true_iff in Hdirty as [Hfirst|Hpos].
        * apply negb_true_iff in Hfirst. rewrite Hfirst in *.
          unfold rejectPenalty in Hpen. rewrite Hfirst in Hpen. cbn [negb] in Hpen.
          unfold rejectionPenalty in *.
          destruct (ApplyOverstepPenalty cfg).
          -- destruct (distributePenalty cfg req _ _ td); [|discriminate].
             cbn [mbind option_bind] in Hpen. discriminate.
          -- lia.
        * apply Z.ltb_lt in Hpos. unfold rejectPenalty, rejectionPenalty in *.
          destruct (WasOver td); cbn [negb] in *.
          -- destruct (ApplyRequestOverheadPenalty cfg); cbn [andb] in *; [|lia].
             destruct (1 <=? RequestOverheadPenalty cfg (RequestedLoad req)); [|lia].
             destruct (distributePenalty cfg req _ _ td); [|discriminate].
             cbn [mbind option_bind] in Hpen. discriminate.
          -- destruct (ApplyOverstepPenalty cfg); [|lia].
             destruct (distributePenalty cfg req _ _ td); [|discriminate].
             cbn [mbind option_bind] in Hpen. discriminate.
      + destruct (Hclean eq_refl) as [-> _].
        symmetry in Hdirty. apply orb_false_iff in Hdirty as [_ Hzero].
        apply Z.ltb_ge in Hzero. lia. }
  destruct H2 as (Htot2 & Hover2 & Hver2).
  rewrite Hsame. split; [|split; [exact Hnn|split; [|split]]].
  - subst td3. destruct dirty; [cbn [markDirty WindowTotal]|]; exact Htot2.
  - subst td3. destruct dirty; [cbn [markDirty WasOver]|]; exact Hover2.
  - rewrite <- Hdirty. subst td3. destruct dirty; [cbn [markDirty Version]|]; now rewrite Hver2.
  - intros Hwas Hzero. rewrite Hwas, Hzero in Hdirty. cbn in Hdirty.
    destruct (Hclean Hdirty) as [Htd Hadded]. subst td3 td2. now rewrite Hdirty, Hadded, Htd.
Qed.

(** * Further properties of the limiter *)

(** Rotation keeps exactly the load that is still inside the window.  For a
    request at least one window past the epoch and a tenant whose total is
    the sum of its segments, [rotateWindow] leaves the request's segment in
    front, holding the load of the segments that start at or after it,
    followed by the older segments that have not expired, in their order;
    the total becomes the load of the segments that have not expired. *)
Theorem rotateWindow_keeps_live_load (cfg : config) (req : submitRequest) (td : tenantData) :
  valid_config cfg -> valid_request cfg req -> window_inv cfg td ->
  exists td',
    rotateWindow cfg req td = Some td' /\
    WindowQueue td' = rotatedQueue cfg req (WindowQueue td) /\
    WindowTotal td' = liveLoad cfg (RequestedTimestamp req) (WindowQueue td) /\
    WasOver td' = WasOver td.
Proof.
  intros Hc Hr Hw.
  destruct (rotateWindow_exact cfg req td Hc Hr Hw) as (td' & Hrot & Hqueue & Htotal).
  destruct (rotateWindow_inv cfg req td Hc Hr Hw) as (td2 & Hrot2 & _ & _ & Hover).
  rewrite Hrot in Hrot2. injection Hrot2 as <-.
  exists td'. auto.
Qed.

Lemma rotateWindow_keeps_live_load_witness :
  exists td',
    rotateWindow testConfig (buildLoadRequest testConfig 1009500 "test" 1)
      (mkTenant [mkSegment 1010000 4; mkSegment 1009000 3; mkSegment 1008000 50;
                 mkSegment 999000 60] false 117 5) = Some td' /\
    WindowQueue td'
    = rotatedQueue testConfig (buildLoadRequest testConfig 1009500 "test" 1)
        [mkSegment 1010000 4; mkSegment 1009000 3; mkSegment 1008000 50; mkSegment 999000 60] /\
    WindowTotal td'
    = liveLoad testConfig 1009500
        [mkSegment 1010000 4; mkSegment 1009000 3; mkSegment 1008000 50; mkSegment 999000 60] /\
    WasOver td' = false.
Proof.
  apply (rotateWindow_keeps_live_load testConfig
           (buildLoadRequest testConfig 1009500 "test" 1)
           (mkTenant [mkSegment 1010000 4; mkSegment 1009000 3; mkSegment 1008000 50;
                      mkSegment 999000 60] false 117 5)).
  - exact testConfig_valid.
  - apply buildLoadRequest_valid; [exact testConfig_valid| |]; cbn; unfold two63; lia.
  - split; [split| |].
    + repeat constructor; unfold newer; cbn; lia.
    + repeat constructor; unfold u64, two64; cbn; lia.
    + reflexivity.
    + cbn. unfold two64. lia.
Defined.

Lemma probe_then_submit (inst : loadLimiter) (now : Z) (key : string) (load : Z) :
  limiter_inv inst -> WindowSize (Config inst) <= now < two63 -> 0 <= load < two63 ->
  exists answer inst1 res inst2,
    Probe inst now key load = Some (answer, inst1) /\
    Submit inst now key load = Some (res, inst2) /\
    Accepted res = answer /\
    Probe inst1 now key load = Some (answer, inst1) /\
    Submit inst1 now key load = Some (res, inst2).
Proof.
  intros Hinv Hnow Hload. pose proof Hinv as [Hc _].
  pose proof (buildLoadRequest_valid (Config inst) now key load Hc Hnow Hload) as Hreq.
  destruct (Submit_paths inst now key load Hinv Hnow Hload)
    as (rot & td' & res & Hrotate & Hrot & Hcapped & _ & Hprobe & Hsubmit & _ & _ & Hpath).
  assert (Hinv1 : limiter_inv (setTenant inst key rot)).
  { apply limiter_inv_setTenant; [exact Hinv|]. exact (tenant_inv_rotated _ _ _ Hrot Hcapped). }
  destruct (Submit_paths (setTenant inst key rot) now key load Hinv1 Hnow Hload)
    as (rot1 & td1 & res1 & Hrotate1 & _ & _ & _ & Hprobe1 & Hsubmit1 & _ & _ & Hpath1).
  change (Config (setTenant inst key rot)) with (Config inst) in *.
  rewrite getTenant_setTenant in Hrotate1.
  rewrite (rotateWindow_rotated _ _ _ Hc Hreq Hrot) in Hrotate1. injection Hrotate1 as <-.
  rewrite setTenant_setTenant in Hprobe1, Hsubmit1.
  exists (WindowTotal rot + load <=? MaxLoad (Config inst)), (setTenant inst key rot), res,
    (setTenant inst key td').
  split; [exact Hprobe|]. split; [exact Hsubmit|].
  destruct (WindowTotal rot + load <=? MaxLoad (Config inst)).
  - destruct Hpath as [Hacc ->]. destruct Hpath1 as [Hacc1 ->].
    rewrite Hacc in Hacc1. injection Hacc1 as <-.
    split; [reflexivity|]. split; [exact Hprobe1|exact Hsubmit1].
  - rewrite Hpath in Hpath1. injection Hpath1 as <- <-.
    destruct (rejectLoad_hint _ _ _ _ _ Hpath) as (Hrejected & _).
    split; [exact Hrejected|]. split; [exact Hprobe1|exact Hsubmit1].
Qed.

(** [Probe] predicts [Submit].  At the same time and for the same load,
    [Submit] accepts exactly when [Probe] answers true; a second probe gives
    the same answer and changes nothing, and a submission after the probe
    gives the same result and the same state as one without it. *)
Theorem Probe_predicts_Submit (inst : loadLimiter) (now : Z) (key : string) (load : Z) :
  limiter_inv inst -> WindowSize (Config inst) <= now < two63 -> 0 <= load < two63 ->
  exists answer inst1 res inst2,
    Probe inst now key load = Some (answer, inst1) /\
    Submit inst now key load = Some (res, inst2) /\
    Accepted res = answer /\
    Probe inst1 now key load = Some (answer, inst1) /\
    Submit inst1 now key load = Some (res, inst2).
Proof. exact (probe_then_submit inst now key load). Qed.

Lemma testBusyLimiter_inv : limiter_inv testBusyLimiter.
Proof.
  apply limiter_inv_setTenant; [apply limiter_inv_new; exact testConfig_valid|].
  split; [split; [split| |]|].
  - repeat constructor.
  - repeat constructor; cbn; unfold u64, two64; lia.
  - reflexivity.
  - cbn. unfold two64. lia.
  - cbn. lia.
Qed.

Lemma Probe_predicts_Submit_witness :
  exists answer inst1 res inst2,
    Probe testBusyLimiter 1002500 "test" 10 = Some (answer, inst1) /\
    Submit testBusyLimiter 1002500 "test" 10 = Some (res, inst2) /\
    Accepted res = answer /\
    Probe inst1 1002500 "test" 10 = Some (answer, inst1) /\
    Submit inst1 1002500 "test" 10 = Some (res, inst2).
Proof.
  apply (Probe_predicts_Submit testBusyLimiter 1002500 "test" 10).
  - exact testBusyLimiter_inv.
  - cbn. unfold two63. lia.
  - unfold two63. lia.
Defined.

Lemma Probe_after_RetryIn_witness :
  exists res inst',
    Submit testBusyLimiter 1002500 "test" 10 = Some (res, inst') /\
    RetryIn res = millisecond * 7500 /\
    0 <= RetryIn res /\
    exists inst'', Probe inst' 1010000 "test" 10 = Some (true, inst'').
Proof.
  eexists _, _. split; [vm_compute; reflexivity|]. split; [reflexivity|].
  eapply (Probe_after_RetryIn testBusyLimiter _ 1002500 1010000 "test" 10).
  - exact testBusyLimiter_inv.
  - cbn. unfold two63. lia.
  - unfold two63. lia.
  - vm_compute. reflexivity.
  - reflexivity.
  - reflexivity.
  - vm_compute. split; [intros H; discriminate H|reflexivity].
Defined.

Lemma submit_result (inst inst' : loadLimiter) (now : Z) (key : string) (load : Z)
    (res : SubmitResult) :
  limiter_inv inst -> WindowSize (Config inst) <= now < two63 -> 0 <= load < two63 ->
  Submit inst now key load = Some (res, inst') ->
  (Accepted res = true -> RetryInAvailable res = false /\ RetryIn res = 0) /\
  (MaxLoad (Config inst) < load ->
   Accepted res = false /\ RetryInAvailable res = false /\ RetryIn res = 0) /\
  (Accepted res = false -> SkipRetryInComputing (Config inst) = true ->
   RetryInAvailable res = false /\ RetryIn res = 0) /\
  (Accepted res = false -> load <= MaxLoad (Config inst) ->
   SkipRetryInComputing (Config inst) = false ->
   RetryInAvailable res = true /\
   0 < RetryIn res <= millisecond * WindowSize (Config inst)).
Proof.
  intros Hinv Hnow Hload Hsubmit. pose proof Hinv as [Hc _].
  pose proof (vc_cap _ Hc) as Hcap.
  pose proof (buildLoadRequest_valid (Config inst) now key load Hc Hnow Hload) as Hreq.
  destruct (Submit_paths inst now key load Hinv Hnow Hload)
    as (rot & td' & res' & _ & Hrot & Hcapped & _ & _ & Hsubmit' & Hrot' & Hcap' & Hpath).
  rewrite Hsubmit in Hsubmit'. injection Hsubmit' as <- _.
  set (req := buildLoadRequest (Config inst) now key load) in *.
  assert (Hnn : 0 <= WindowTotal rot).
  { destruct Hrot as [[Hq Htot _] _ _]. rewrite Htot.
    apply sumValues_nonneg. now apply (queue_inv_values (Config inst)). }
  destruct (Z.leb_spec (WindowTotal rot + load) (MaxLoad (Config inst))) as [Hfit|Hbig].
  - destruct Hpath as [_ ->]. cbn.
    split; [auto|]. split; [lia|]. split; discriminate.
  - destruct (rejectLoad_cases _ _ _ Hc Hreq Hrot Hcapped)
      as (td2 & res2 & Hrej & _ & Htot2 & Hpen & _).
    rewrite Hpath in Hrej. injection Hrej as <- <-.
    destruct (computeRetryIn_cases _ req td' Hc Hreq Hrot' ltac:(lia))
      as (Hexc & _ & Hwait).
    change (RequestedLoad req) with load in *.
    unfold rejectLoad in Hpath.
    destruct (rejectPenalty (Config inst) req rot) as [[[td1 someAdded] dirty]|];
      [|discriminate].
    cbn [mbind option_bind] in Hpath.
    set (td3 := if dirty then _ else _) in *.
    assert (Htd : SkipRetryInComputing (Config inst) = false -> td' = td3).
    { intros Hskip. rewrite Hskip in Hpath. cbn [negb] in Hpath.
      destruct (computeRetryIn (Config inst) req td3) as [[d|e]|];
        cbn [mbind option_bind] in Hpath; [| |discriminate]; now injection Hpath as <- _. }
    split; [|split; [|split]].
    + intros Hacc. destruct (negb (SkipRetryInComputing (Config inst))).
      * destruct (computeRetryIn (Config inst) req td3) as [[d|e]|];
          cbn [mbind option_bind] in Hpath; [| |discriminate];
          injection Hpath as _ <-; discriminate.
      * injection Hpath as _ <-. discriminate.
    + intros Hexcessive. destruct (SkipRetryInComputing (Config inst)) eqn:Hskip; cbn [negb] in Hpath.
      * injection Hpath as _ <-. cbn. auto.
      * rewrite <- (Htd eq_refl) in Hpath. rewrite (Hexc Hexcessive) in Hpath.
        cbn [mbind option_bind] in Hpath. injection Hpath as <-. cbn. auto.
    + intros _ Hskip. rewrite Hskip in Hpath. cbn [negb] in Hpath.
      injection Hpath as _ <-. cbn. auto.
    + intros _ Hsmall Hskip. rewrite <- (Htd Hskip) in Hpath. rewrite Hskip in Hpath.
      cbn [negb] in Hpath.
      destruct (Hwait Hsmall ltac:(lia)) as (s & _ & _ & Hretry & Hrange).
      rewrite Hretry in Hpath. cbn [mbind option_bind] in Hpath. injection Hpath as <-.
      cbn [RetryIn RetryInAvailable]. split; [reflexivity|].
      change (wrap64 now) with (RequestedTimestamp req). unfold millisecond. lia.
Qed.



(** What a rejection charges.  A rejected [Submit] leaves the state of the
    probe plus the penalty of the rejection, capped: the overstep penalty on
    the first rejection of an overload episode, the request-overhead penalty
    on the following ones.  The version is bumped on the first rejection
    and whenever a penalty is charged; a later rejection without penalty
    leaves exactly the state of the probe. *)
Theorem Submit_rejection_penalty (inst inst' : loadLimiter) (now : Z) (key : string)
    (load : Z) (res : SubmitResult) :
  limiter_inv inst -> WindowSize (Config inst) <= now < two63 -> 0 <= load < two63 ->
  Submit inst now key load = Some (res, inst') ->
  Accepted res = false ->
  let req := buildLoadRequest (Config inst) now key load in
  let wasOver := WasOver (getTenant inst key) in
  exists probed,
    Probe inst now key load = Some (false, probed) /\
    WindowTotal (getTenant inst' key)
    = Z.min (WindowTotal (getTenant probed key) + rejectionPenalty (Config inst) req wasOver)
            (AbsoluteMaxPenaltyCap (Config inst)) /\
    WasOver (getTenant inst' key) = true /\
    Version (getTenant inst' key)
    = (if negb wasOver || (0 <? rejectionPenalty (Config inst) req wasOver)
       then add64 (Version (getTenant probed key)) 1
       else Version (getTenant probed key)) /\
    (wasOver = true -> rejectionPenalty (Config inst) req true = 0 -> inst' = probed).
Proof.
  intros Hinv Hnow Hload Hsubmit Hrejected req wasOver. pose proof Hinv as [Hc _].
  pose proof (buildLoadRequest_valid (Config inst) now key load Hc Hnow Hload) as Hreq.
  destruct (Submit_paths inst now key load Hinv Hnow Hload)
    as (rot & td' & res' & _ & Hrot & Hcapped & Hover & Hprobe & Hsubmit' & _ & _ & Hpath).
  rewrite Hsubmit in Hsubmit'. injection Hsubmit' as <- ->.
  fold req in Hrot, Hpath, Hreq.
  destruct (WindowTotal rot + load <=? MaxLoad (Config inst)).
  { destruct Hpath as [_ ->]. discriminate. }
  destruct (rejectLoad_cases _ _ _ Hc Hreq Hrot Hcapped)
    as (td2 & res2 & Hrej & _ & Htot2 & _ & Hover2 & Hver2 & Hsame).
  rewrite Hpath in Hrej. injection Hrej as <- <-.
  rewrite Hover in Htot2, Hver2, Hsame. fold wasOver in Htot2, Hver2, Hsame.
  exists (setTenant inst key rot). rewrite !getTenant_setTenant.
  split; [exact Hprobe|]. split; [exact Htot2|]. split; [exact Hover2|]. split; [exact Hver2|].
  intros Hwas Hzero. rewrite Hwas in Hsame. now rewrite (Hsame eq_refl Hzero).
Qed.

Lemma testBusyPenaltyLimiter_inv : limiter_inv testBusyPenaltyLimiter.
Proof.
  apply limiter_inv_setTenant; [apply limiter_inv_new; exact testConfigPenalty_valid|].
  split; [split; [split| |]|].
  - repeat constructor.
  - repeat constructor; cbn; unfold u64, two64; lia.
  - reflexivity.
  - cbn. unfold two64. lia.
  - cbn. lia.
Qed.

Lemma Submit_rejection_penalty_witness :
  exists res inst',
    Submit testBusyPenaltyLimiter 1002500 "test" 10 = Some (res, inst') /\
    WindowTotal (getTenant inst' "test") = 117 /\
    exists probed,
      Probe testBusyPenaltyLimiter 1002500 "test" 10 = Some (false, probed) /\
      WindowTotal (getTenant inst' "test")
      = Z.min (WindowTotal (getTenant probed "test")
               + rejectionPenalty testConfigPenalty
                   (buildLoadRequest testConfigPenalty 1002500 "test" 10)
                   (WasOver (getTenant testBusyPenaltyLimiter "test")))
              (AbsoluteMaxPenaltyCap testConfigPenalty) /\
      WasOver (getTenant inst' "test") = true /\
      Version (getTenant inst' "test")
      = (if negb (WasOver (getTenant testBusyPenaltyLimiter "test"))
            || (0 <? rejectionPenalty testConfigPenalty
                       (buildLoadRequest testConfigPenalty 1002500 "test" 10)
                       (WasOver (getTenant testBusyPenaltyLimiter "test")))
         then add64 (Version (getTenant probed "test")) 1
         else Version (getTenant probed "test")) /\
      (WasOver (getTenant testBusyPenaltyLimiter "test") = true ->
       rejectionPenalty testConfigPenalty
         (buildLoadRequest testConfigPenalty 1002500 "test" 10) true = 0 ->
       inst' = probed).
Proof.
  eexists _, _. split; [vm_compute; reflexivity|]. split; [vm_compute; reflexivity|].
  eapply (Submit_rejection_penalty testBusyPenaltyLimiter _ 1002500 "test" 10).
  - exact testBusyPenaltyLimiter_inv.
  - cbn. unfold two63. lia.
  - unfold two63. lia.
  - vm_compute. reflexivity.
  - reflexivity.
Defined.

(** ** Segment start times *)

(** [locateSegmentStartTime] is the floor of the timestamp on the segment
    grid: a multiple of the segment size, at most the timestamp and less
    than one segment before it; it is a fixed point on its own results. *)
Theorem locateSegmentStartTime_floor (cfg : config) (t : Z) :
  0 < WindowSegmentSize cfg -> u64 t ->
  locateSegmentStartTime cfg t mod WindowSegmentSize cfg = 0 /\
  locateSegmentStartTime cfg t <= t < locateSegmentStartTime cfg t + WindowSegmentSize cfg /\
  locateSegmentStartTime cfg (locateSegmentStartTime cfg t) = locateSegmentStartTime cfg t.
Proof.
  intros Hseg Ht. unfold locateSegmentStartTime.
  pose proof (Z.mul_div_le t (WindowSegmentSize cfg) Hseg) as Hle.
  pose proof (Z.mod_pos_bound t (WindowSegmentSize cfg) Hseg) as Hmod.
  pose proof (Z.div_mod t (WindowSegmentSize cfg) ltac:(lia)) as Hdm.
  assert (Hexact : mul64 (t / WindowSegmentSize cfg) (WindowSegmentSize cfg)
                   = t / WindowSegmentSize cfg * WindowSegmentSize cfg).
  { apply mul64_exact. unfold u64 in Ht. split; [|lia].
    apply Z.mul_nonneg_nonneg; [apply Z.div_pos|]; lia. }
  rewrite Hexact. split; [apply Z.mod_mul; lia|]. split; [lia|].
  rewrite Z.div_mul by lia. exact Hexact.
Qed.

Lemma locateSegmentStartTime_floor_witness :
  locateSegmentStartTime testConfig 1009500 mod WindowSegmentSize testConfig = 0 /\
  locateSegmentStartTime testConfig 1009500 <= 1009500
    < locateSegmentStartTime testConfig 1009500 + WindowSegmentSize testConfig /\
  locateSegmentStartTime testConfig (locateSegmentStartTime testConfig 1009500)
  = locateSegmentStartTime testConfig 1009500.
Proof.
  apply (locateSegmentStartTime_floor testConfig 1009500).
  - cbn. lia.
  - unfold u64, two64. lia.
Defined.

(** ** The latest segments *)

Lemma ensureLatestNSegments_satisfied (cfg : config) (req : submitRequest) (N : Z)
    (td : tenantData) :
  0 <= N ->
  (forall i : nat, Z.of_nat i < N ->
     exists s, WindowQueue td !! i = Some s /\
               StartTime s = slotStart cfg (RequestSegmentStartTime req) (Z.of_nat i)) ->
  ensureLatestNSegments cfg req N td = td.
Proof.
  intros HN Hslots. unfold ensureLatestNSegments.
  destruct (scanLatestSegments _ _ _ _) as [rebuild cache] eqn:Hscan.
  replace N with (Z.of_nat (Z.to_nat N)) in Hscan by lia.
  pose proof (scan_flag cfg (RequestSegmentStartTime req) (WindowQueue td) (Z.to_nat N)) as Hf.
  rewrite Hscan in Hf. cbn [fst] in Hf.
  destruct Hf as [_ Hf]. rewrite Hf; [reflexivity|].
  intros i Hi. apply Hslots. lia.
Qed.

(** [ensureLatestNSegments] creates no load and loses none.  On a rotated
    tenant and for a span inside the window, the result is rotated again
    with the same total and the same sum of values; its first [N] segments
    are the [N] latest slots of the grid, the request's segment first; and
    a queue that already has them is not modified. *)
Theorem ensureLatestNSegments_keeps_load (cfg : config) (req : submitRequest) (N : Z)
    (td : tenantData) :
  valid_config cfg -> valid_request cfg req -> rotated cfg req td ->
  1 <= N <= NumSegments cfg ->
  rotated cfg req (ensureLatestNSegments cfg req N td) /\
  WindowTotal (ensureLatestNSegments cfg req N td) = WindowTotal td /\
  sumValues (WindowQueue (ensureLatestNSegments cfg req N td)) = sumValues (WindowQueue td) /\
  (forall i : nat, Z.of_nat i < N ->
     exists s,
       WindowQueue (ensureLatestNSegments cfg req N td) !! i = Some s /\
       StartTime s = RequestSegmentStartTime req - Z.of_nat i * WindowSegmentSize cfg) /\
  ((forall i : nat, Z.of_nat i < N ->
      exists s,
        WindowQueue td !! i = Some s /\
        StartTime s = RequestSegmentStartTime req - Z.of_nat i * WindowSegmentSize cfg) ->
   ensureLatestNSegments cfg req N td = td).
Proof.
  intros Hc Hr Hrot HN.
  pose proof (ensureLatestNSegments_inv cfg req N td Hc Hr Hrot HN) as Hrot'.
  destruct (ensureLatestNSegments_fields cfg req N td) as (Htot & _ & _).
  assert (HN63 : 1 <= N < two63).
  { pose proof (vc_window cfg Hc). pose proof (vc_seg cfg Hc). pose proof (vc_duration cfg Hc).
    unfold millisecond, two63 in *. nia. }
  split; [exact Hrot'|]. split; [exact Htot|]. split; [|split].
  - destruct Hrot' as [[_ Htot' _] _ _]. destruct Hrot as [[_ Htot0 _] _ _]. lia.
  - intros i Hi.
    destruct (ensureLatestNSegments_slots cfg req N td i HN63 Hi) as (s & Hs & Hstart).
    exists s. split; [exact Hs|].
    rewrite Hstart. apply (slotStart_exact cfg req N); (assumption || lia).
  - intros Hslots. apply ensureLatestNSegments_satisfied; [lia|].
    intros i Hi. destruct (Hslots i Hi) as (s & Hs & Hstart).
    exists s. split; [exact Hs|]. rewrite Hstart. symmetry.
    apply (slotStart_exact cfg req N); (assumption || lia).
Qed.

Lemma ensureLatestNSegments_keeps_load_witness :
  let req := buildLoadRequest testConfig 1002500 "test" 10 in
  let td := mkTenant [mkSegment 1002000 1; mkSegment 1000000 95] false 96 3 in
  rotated testConfig req (ensureLatestNSegments testConfig req 3 td) /\
  WindowTotal (ensureLatestNSegments testConfig req 3 td) = WindowTotal td /\
  sumValues (WindowQueue (ensureLatestNSegments testConfig req 3 td))
  = sumValues (WindowQueue td) /\
  (forall i : nat, Z.of_nat i < 3 ->
     exists s,
       WindowQueue (ensureLatestNSegments testConfig req 3 td) !! i = Some s /\
       StartTime s = RequestSegmentStartTime req - Z.of_nat i * WindowSegmentSize testConfig) /\
  ((forall i : nat, Z.of_nat i < 3 ->
      exists s,
        WindowQueue td !! i = Some s /\
        StartTime s = RequestSegmentStartTime req - Z.of_nat i * WindowSegmentSize testConfig) ->
   ensureLatestNSegments testConfig req 3 td = td).
Proof.
  cbv zeta.
  apply (ensureLatestNSegments_keeps_load testConfig
           (buildLoadRequest testConfig 1002500 "test" 10) 3
           (mkTenant [mkSegment 1002000 1; mkSegment 1000000 95] false 96 3)).
  - exact testConfig_valid.
  - apply buildLoadRequest_valid; [exact testConfig_valid| |]; cbn; unfold two63; lia.
  - split; [split; [split| |]| |].
    + repeat constructor; unfold newer; cbn; lia.
    + repeat constructor; unfold u64, two64; cbn; lia.
    + reflexivity.
    + cbn. unfold two64. lia.
    + eexists _, _. split; reflexivity.
    + repeat constructor; cbn; lia.
  - cbn. lia.
Defined.

(** * Further properties of the sync layer *)

Lemma restoreSegments_error (tokens : list string) (acc queue : list windowSegment)
    (e : error) :
  restoreSegments tokens acc = (queue, Some e) -> e = ErrInvalidFormat.
Proof.
  revert acc. induction tokens as [|token tokens IH]; intros acc; cbn [restoreSegments].
  - discriminate.
  - destruct (splitOn ":" token) as [|a [|b [|c r]]]; try (now intros [= _ <-]).
    destruct (Atoi a); [|now intros [= _ <-]].
    destruct (Atoi b); [|now intros [= _ <-]]. apply IH.
Qed.

(** Whatever the payload, [restoreSerializedStatus] never lowers the version
    of the tenant.  When it reports an error the version, the total and the
    was-over flag are the ones before (only the queue may have been cleared
    and partly refilled), and a stale payload changes nothing; when it
    reports none, the tenant is unchanged or its version has grown. *)
Theorem restore_never_lowers_version (serialized : string) (td : tenantData) :
  Version td <= Version (restoreSerializedStatus serialized td).1 /\
  ((restoreSerializedStatus serialized td).2 <> None ->
   Version (restoreSerializedStatus serialized td).1 = Version td /\
   WindowTotal (restoreSerializedStatus serialized td).1 = WindowTotal td /\
   WasOver (restoreSerializedStatus serialized td).1 = WasOver td) /\
  ((restoreSerializedStatus serialized td).2 = Some ErrStaleVersion ->
   (restoreSerializedStatus serialized td).1 = td) /\
  ((restoreSerializedStatus serialized td).2 = None ->
   (restoreSerializedStatus serialized td).1 = td \/
   Version td < Version (restoreSerializedStatus serialized td).1).
Proof.
  unfold restoreSerializedStatus.
  destruct (splitOn "/" serialized) as [|tag [|version [|total [|flag [|segments [|more rest]]]]]];
    cbv zeta; cbn [negb fst snd];
    try (destruct (negb (tag =? "v1")%string); cbn [fst snd];
         repeat split; first [lia | discriminate | auto]; fail);
    try (repeat split; first [lia | discriminate | auto]; fail).
  destruct (negb (tag =? "v1")%string); cbn [fst snd];
    [repeat split; first [lia | discriminate | auto]|].
  destruct (Atoi version) as [versionRaw|]; cbn [fst snd];
    [|repeat split; first [lia | discriminate | auto]].
  destruct (Z.eqb_spec (Version td) (wrap64 versionRaw)) as [Heq|Hne]; cbn [fst snd];
    [repeat split; first [lia | discriminate | auto]|].
  destruct (Z.ltb_spec (wrap64 versionRaw) (Version td)) as [Hlt|Hge]; cbn [fst snd];
    [repeat split; first [lia | discriminate | auto]|].
  destruct (Atoi total) as [totalRaw|]; cbn [fst snd];
    [|repeat split; first [lia | discriminate | auto]].
  destruct (restoreSegments (rev (splitOn "," segments)) []) as [queue [e|]] eqn:Hseg;
    cbn [fst snd].
  - cbn [setQueue Version WindowTotal WasOver].
    split; [lia|]. split; [auto|]. split; [|discriminate].
    intros [= ->]. apply restoreSegments_error in Hseg. discriminate.
  - cbn [Version]. split; [lia|]. split; [intros H; now contradiction H|].
    split; [discriminate|]. intros _. right. lia.
Qed.

(** ** Tenants are independent *)





(** ** Statistics *)



(** * Further properties of the composite limiter *)

(** A member that was probed has the same trace as before the probe. *)
Lemma member_trace_probed (now : Z) (key : string) (load : Z) (limiter : loadLimiter)
    (tr : memberTrace) :
  member_ok now limiter -> 0 <= load < two63 ->
  member_trace now key load limiter tr ->
  member_ok now (AfterProbe tr) /\ member_trace now key load (AfterProbe tr) tr.
Proof.
  intros [Hinv Hnow] Hload Htr. pose proof Hinv as [Hc _].
  pose proof (buildLoadRequest_valid (Config limiter) now key load Hc Hnow Hload) as Hreq.
  destruct (member_trace_facts now key load limiter tr (conj Hinv Hnow) Hload Htr)
    as (Hcfg & Hrot & Hcapped & _ & _ & _).
  destruct Htr as [Hlp Hrej].
  assert (Hafter : exists rot, AfterProbe tr = setTenant limiter key rot).
  { unfold limiterProbe in Hlp.
    destruct (probe _ _ _) as [[r rot]|]; [|discriminate].
    cbn in Hlp. injection Hlp as _ <-. now exists rot. }
  destruct Hafter as [rot Hafter].
  assert (Hget : getTenant (AfterProbe tr) key = rot)
    by (rewrite Hafter; apply getTenant_setTenant).
  rewrite Hget in Hrot, Hcapped.
  assert (Hinv1 : limiter_inv (AfterProbe tr)).
  { rewrite Hafter. apply limiter_inv_setTenant; [exact Hinv|].
    exact (tenant_inv_rotated _ _ _ Hrot Hcapped). }
  split; [split; [exact Hinv1|now rewrite Hcfg]|].
  unfold member_trace. rewrite Hcfg. split; [|exact Hrej].
  set (req := buildLoadRequest (Config limiter) now key load) in *.
  unfold limiterProbe in Hlp |- *. change (TenantKey req) with key in *.
  rewrite Hcfg, Hget. unfold probe in Hlp |- *.
  rewrite (rotateWindow_rotated _ _ _ Hc Hreq Hrot). cbn [mbind option_bind].
  destruct (rotateWindow (Config limiter) req (getTenant limiter key)) as [rot'|];
    [|discriminate].
  cbn [mbind option_bind] in Hlp. injection Hlp as Hp Ha.
  rewrite Hafter in Ha. 
  assert (rot' = rot).
  { assert (Hg : getTenant (setTenant limiter key rot') key
                 = getTenant (setTenant limiter key rot) key) by now rewrite Ha.
    now rewrite !getTenant_setTenant in Hg. }
  subst rot'. change (RequestedLoad req) with load. rewrite Hp, Hafter, setTenant_setTenant.
  reflexivity.
Qed.

Lemma compositeProbe_traces (now : Z) (key : string) (load : Z)
    (limiters : list loadLimiter) (traces : list memberTrace) :
  Forall2 (member_trace now key load) limiters traces ->
  compositeProbe limiters now key load
  = Some (forallb Probed traces, afterCompositeProbe limiters traces).
Proof.
  induction 1 as [|limiter tr rest traces [Hlp _] _ IH]; [reflexivity|].
  cbn [compositeProbe afterCompositeProbe forallb]. rewrite Hlp. cbn [mbind option_bind].
  destruct (Probed tr); [|reflexivity]. now rewrite IH.
Qed.

Lemma afterCompositeProbe_traces (now : Z) (key : string) (load : Z)
    (limiters : list loadLimiter) (traces : list memberTrace) :
  Forall (member_ok now) limiters -> 0 <= load < two63 ->
  Forall2 (member_trace now key load) limiters traces ->
  Forall (member_ok now) (afterCompositeProbe limiters traces) /\
  Forall2 (member_trace now key load) (afterCompositeProbe limiters traces) traces.
Proof.
  intros Hok Hload Htraces.
  induction Htraces as [|limiter tr rest traces Htr Hrest IH]; [split; constructor|].
  apply Forall_cons in Hok as [Hlimiter Hok].
  destruct (member_trace_probed now key load limiter tr Hlimiter Hload Htr) as [Hok1 Htr1].
  cbn [afterCompositeProbe]. destruct (Probed tr).
  - destruct (IH Hok) as [IH1 IH2]. split; constructor; assumption.
  - split; constructor; assumption.
Qed.

Lemma accepted_members_unique (now : Z) (key : string) (load : Z)
    (traces : list memberTrace) (l1 l2 : list loadLimiter) :
  Forall2 (fun tr limiter' =>
             limiterAcceptLoad (AfterProbe tr)
               (buildLoadRequest (Config (AfterProbe tr)) now key load) = Some limiter' /\
             (Probed tr = true ->
              WindowTotal (getTenant limiter' key)
              = WindowTotal (getTenant (AfterProbe tr) key) + load)) traces l1 ->
  Forall2 (fun tr limiter' =>
             limiterAcceptLoad (AfterProbe tr)
               (buildLoadRequest (Config (AfterProbe tr)) now key load) = Some limiter' /\
             (Probed tr = true ->
              WindowTotal (getTenant limiter' key)
              = WindowTotal (getTenant (AfterProbe tr) key) + load)) traces l2 ->
  l1 = l2.
Proof.
  intros H1. revert l2. induction H1 as [|tr x traces l1 [Hx _] _ IH]; intros l2 H2.
  - now inversion H2.
  - inversion H2 as [|tr' y traces' l2' [Hy _] Hrest]; subst.
    rewrite Hx in Hy. injection Hy as <-. f_equal. now apply IH.
Qed.

(** The composite [Probe] agrees with the composite [Submit].  It answers
    true exactly when every member probes true, and [Submit] at the same
    time and for the same load then accepts; otherwise [Submit] rejects.
    The probe rotates the members up to the first one that answers false
    and leaves the following ones untouched; a [Submit] after the probe
    returns the same result and the same members as one without it. *)
Theorem compositeProbe_predicts_Submit (limiters : list loadLimiter) (now : Z)
    (key : string) (load : Z) :
  Forall (member_ok now) limiters -> 0 <= load < two63 ->
  exists traces answer res limiters',
    Forall2 (member_trace now key load) limiters traces /\
    compositeProbe limiters now key load
    = Some (answer, afterCompositeProbe limiters traces) /\
    (answer = true <-> Forall (fun tr => Probed tr = true) traces) /\
    compositeSubmit limiters now key load = Some (res, limiters') /\
    Accepted res = answer /\
    compositeSubmit (afterCompositeProbe limiters traces) now key load
    = Some (res, limiters').
Proof.
  intros Hok Hload.
  destruct (member_traces_exist now key load limiters Hok Hload) as (traces & Htraces).
  destruct (afterCompositeProbe_traces now key load limiters traces Hok Hload Htraces)
    as [Hok1 Htraces1].
  destruct (compositeSubmit_traces now key load limiters traces Hload Hok Htraces)
    as (limiters' & Hsubmit & Hrejected & Haccepted).
  destruct (compositeSubmit_traces now key load _ traces Hload Hok1 Htraces1)
    as (limiters1 & Hsubmit1 & Hrejected1 & Haccepted1).
  eexists traces, (forallb Probed traces), _, limiters'.
  split; [exact Htraces|]. split; [now apply compositeProbe_traces|].
  split; [apply forallb_Probed|]. split; [exact Hsubmit|]. split; [reflexivity|].
  rewrite Hsubmit1. f_equal. f_equal.
  destruct (forallb Probed traces) eqn:Hall.
  - exact (accepted_members_unique now key load traces _ _
             (Haccepted1 eq_refl) (Haccepted eq_refl)).
  - now rewrite (Hrejected eq_refl), (Hrejected1 eq_refl).
Qed.

Lemma compositeProbe_predicts_Submit_witness :
  exists traces answer res limiters',
    Forall2 (member_trace 1000050 "test" 10) testCompositeLoaded traces /\
    compositeProbe testCompositeLoaded 1000050 "test" 10
    = Some (answer, afterCompositeProbe testCompositeLoaded traces) /\
    (answer = true <-> Forall (fun tr => Probed tr = true) traces) /\
    compositeSubmit testCompositeLoaded 1000050 "test" 10 = Some (res, limiters') /\
    Accepted res = answer /\
    compositeSubmit (afterCompositeProbe testCompositeLoaded traces) 1000050 "test" 10
    = Some (res, limiters').
Proof.
  apply (compositeProbe_predicts_Submit testCompositeLoaded 1000050 "test" 10).
  - exact testCompositeLoaded_ok.
  - unfold two63. lia.
Defined.

(** * The status of a composite limiter *)

Lemma joinWith_cons (sep : ascii) (text : string) (rest : list string) :
  rest <> [] -> joinWith sep (text :: rest) = text +:+ String sep (joinWith sep rest).
Proof. destruct rest; [contradiction|reflexivity]. Qed.

Lemma joinWith_not_empty (sep : ascii) (texts : list string) :
  Forall (fun text => text <> "") texts -> texts <> [] -> joinWith sep texts <> "".
Proof.
  intros Htexts Hne. destruct texts as [|text rest]; [contradiction|].
  apply Forall_cons in Htexts as [Htext _].
  destruct rest as [|text' rest]; [exact Htext|].
  rewrite joinWith_cons by discriminate. destruct text; [contradiction|discriminate].
Qed.

Lemma trimRight_joinWith (sep : ascii) (texts : list string) :
  Forall (fun text => text <> "" /\ hasChar sep text = false) texts ->
  trimRight sep (joinWith sep texts) = joinWith sep texts.
Proof.
  induction texts as [|text rest IH]; intros Htexts; [reflexivity|].
  apply Forall_cons in Htexts as [[Hne Hsep] Hrest].
  destruct rest as [|text' rest].
  - now apply trimRight_none.
  - rewrite joinWith_cons by discriminate.
    change (String sep (joinWith sep (text' :: rest)))
      with (String sep "" +:+ joinWith sep (text' :: rest)).
    rewrite <- append_assoc. apply trimRight_app_keep; [|exact (IH Hrest)].
    apply joinWith_not_empty; [|discriminate].
    eapply Forall_impl; [exact Hrest|]. now intros x [Hx _].
Qed.

Lemma splitOn_joinWith (sep : ascii) (texts : list string) :
  Forall (fun text => text <> "" /\ hasChar sep text = false) texts -> texts <> [] ->
  splitOn sep (joinWith sep texts) = texts.
Proof.
  induction texts as [|text rest IH]; intros Htexts Hne; [contradiction|].
  apply Forall_cons in Htexts as [[_ Hsep] Hrest].
  destruct rest as [|text' rest].
  - now apply splitOn_none.
  - rewrite joinWith_cons by discriminate. rewrite splitOn_app by exact Hsep.
    now rewrite IH.
Qed.

Lemma concatStatuses_join (limiters : list loadLimiter) (key : string) :
  limiters <> [] ->
  concatStatuses limiters key
  = joinWith ";" ((fun limiter => serializeStatus (getTenant limiter key)) <$> limiters)
    +:+ ";".
Proof.
  induction limiters as [|limiter rest IH]; [contradiction|]. intros _.
  destruct rest as [|limiter' rest].
  - cbn [concatStatuses fmap list_fmap joinWith]. now rewrite append_nil_r.
  - cbn [fmap list_fmap]. rewrite joinWith_cons by discriminate.
    cbn [concatStatuses] in *. rewrite IH by discriminate.
    cbn [fmap list_fmap]. now rewrite !append_assoc.
Qed.

Lemma serializeStatus_text (td : tenantData) :
  fits63 td -> serializeStatus td <> "" /\ hasChar ";" (serializeStatus td) = false.
Proof.
  intros Hfits. split.
  - pose proof (serializeStatus_not_empty td) as Hne. intros Heq. now rewrite Heq in Hne.
  - unfold serializeStatus. rewrite (serialized_segments td Hfits).
    destruct Hfits as (Hv & Ht & Hq).
    rewrite !hasChar_app, !formatUint_hasChar by (auto using fits63_u64).
    rewrite joinTokens_hasChar by (assumption || reflexivity).
    now destruct (WasOver td).
Qed.

Lemma compositeSerializeStatus_tokens (limiters : list loadLimiter) (key : string) :
  limiters <> [] ->
  Forall (fun limiter => fits63 (getTenant limiter key)) limiters ->
  compositeSerializeStatus limiters key <> "" /\
  splitOn ";" (compositeSerializeStatus limiters key)
  = (fun limiter => serializeStatus (getTenant limiter key)) <$> limiters.
Proof.
  intros Hne Hfits.
  assert (Htexts : Forall (fun text => text <> "" /\ hasChar ";" text = false)
                     ((fun limiter => serializeStatus (getTenant limiter key)) <$> limiters)).
  { apply Forall_fmap. eapply Forall_impl; [exact Hfits|].
    intros limiter Hl. now apply serializeStatus_text. }
  assert (Hne' : (fun limiter => serializeStatus (getTenant limiter key)) <$> limiters <> [])
    by (destruct limiters; [contradiction|discriminate]).
  assert (Hser : compositeSerializeStatus limiters key
                 = joinWith ";" ((fun limiter => serializeStatus (getTenant limiter key))
                                 <$> limiters)).
  { unfold compositeSerializeStatus. destruct limiters as [|l ls]; [contradiction|].
    rewrite concatStatuses_join by discriminate.
    rewrite trimRight_snoc. now apply trimRight_joinWith. }
  rewrite Hser. split.
  - apply joinWith_not_empty; [|exact Hne'].
    eapply Forall_impl; [exact Htexts|]. now intros x [Hx _].
  - now apply splitOn_joinWith.
Qed.

Lemma restoreMembers_length (limiters : list loadLimiter) (statuses : list string)
    (key : string) :
  length (restoreMembers limiters statuses key) = length limiters.
Proof.
  revert statuses. induction limiters as [|limiter rest IH]; intros [|status statuses];
    cbn [restoreMembers length]; auto.
Qed.

(** The status written by a composite limiter is read back member by
    member.  Restoring it into a composite with as many members hands every
    member its own serialized status, and a member whose version is lower
    takes the serialized state over; a composite with another number of
    members restores nothing. *)
Theorem composite_status_roundtrip (remotes locals : list loadLimiter) (key : string) :
  remotes <> [] ->
  Forall (fun limiter => fits63 (getTenant limiter key)) remotes ->
  let restored :=
    compositeSyncRestore (Some (Fetched (compositeSerializeStatus remotes key))) key locals in
  (length locals <> length remotes -> restored = locals) /\
  (length locals = length remotes ->
   restored
   = restoreMembers locals ((fun r => serializeStatus (getTenant r key)) <$> remotes) key /\
   forall (i : nat) (loc remote : loadLimiter),
     locals !! i = Some loc -> remotes !! i = Some remote ->
     Version (getTenant loc key) < Version (getTenant remote key) ->
     WindowQueue (getTenant remote key) <> [] ->
     exists loc', restored !! i = Some loc' /\ getTenant loc' key = getTenant remote key).
Proof.
  intros Hne Hfits restored. subst restored.
  destruct (compositeSerializeStatus_tokens remotes key Hne Hfits) as [Hstatus Htokens].
  unfold compositeSyncRestore.
  destruct (String.eqb_spec (compositeSerializeStatus remotes key) "") as [|_];
    [contradiction|].
  cbv zeta. rewrite Htokens, length_fmap. split.
  - intros Hlen. destruct (Nat.eqb_spec (length remotes) (length locals)); [lia|reflexivity].
  - intros Hlen. rewrite <- Hlen, Nat.eqb_refl. cbn [negb]. split; [reflexivity|].
    clear Hstatus Htokens Hne. revert locals Hlen.
    induction remotes as [|r remotes IH]; intros locals Hlen i loc remote Hloc Hremote Hver Hq.
    + now rewrite lookup_nil in Hremote.
    + destruct locals as [|l locals]; [discriminate|].
      apply Forall_cons in Hfits as [Hr Hfits].
      cbn [fmap list_fmap restoreMembers].
      destruct i as [|i].
      * cbn in Hloc, Hremote. injection Hloc as ->. injection Hremote as ->.
        eexists. split; [reflexivity|].
        rewrite getTenant_setTenant. now rewrite restore_newer_version.
      * cbn in Hloc, Hremote.
        apply (IH Hfits locals ltac:(cbn in Hlen; lia) i loc remote); assumption.
Qed.

Lemma composite_status_roundtrip_witness :
  let restored :=
    compositeSyncRestore (Some (Fetched (compositeSerializeStatus testCompositeLoaded "test")))
      "test" testComposite in
  (length testComposite <> length testCompositeLoaded -> restored = testComposite) /\
  (length testComposite = length testCompositeLoaded ->
   restored
   = restoreMembers testComposite
       ((fun r => serializeStatus (getTenant r "test")) <$> testCompositeLoaded) "test" /\
   forall (i : nat) (loc remote : loadLimiter),
     testComposite !! i = Some loc -> testCompositeLoaded !! i = Some remote ->
     Version (getTenant loc "test") < Version (getTenant remote "test") ->
     WindowQueue (getTenant remote "test") <> [] ->
     exists loc', restored !! i = Some loc' /\ getTenant loc' "test" = getTenant remote "test").
Proof.
  apply (composite_status_roundtrip testCompositeLoaded testComposite "test").
  - discriminate.
  - unfold testCompositeLoaded.
    constructor; [|constructor; [|constructor]];
      rewrite getTenant_setTenant; unfold fits63, fits63_segment, testLoadedTenant, two63;
      cbn; (split; [lia|]); (split; [lia|]);
      (apply Forall_cons; split; [cbn; lia|]); constructor.
Defined.

(** * [SubmitUntil] on the clock of the tests *)

Lemma testClock_time (cur : Z) :
  0 <= cur < two63 -> TimeFunc testClock cur = (cur * millisecond, cur).
Proof.
  intros Hcur. cbn [TimeFunc testClock]. f_equal.
  rewrite wrapS64_small by (unfold two63 in *; lia).
  pose proof (Z.quot_rem cur 1000 ltac:(lia)). unfold millisecond. lia.
Qed.

Lemma UnixMilli_milliseconds (cur : Z) : UnixMilli (cur * millisecond) = cur.
Proof. unfold UnixMilli. apply Z.div_mul. unfold millisecond. lia. Qed.

Lemma SubmitNow_testClock (inst : loadLimiter) (cur : Z) (key : string) (load : Z) :
  0 <= cur < two63 ->
  SubmitNow testClock inst cur key load
  = '(res, inst1) ← Submit inst cur key load; Some (res, inst1, cur).
Proof.
  intros Hcur. unfold SubmitNow. rewrite (testClock_time cur Hcur).
  now rewrite UnixMilli_milliseconds.
Qed.

Lemma Submit_Config (inst inst' : loadLimiter) (now : Z) (key : string) (load : Z)
    (res : SubmitResult) :
  Submit inst now key load = Some (res, inst') -> Config inst' = Config inst.
Proof.
  unfold Submit. destruct (submitTask _ _ _) as [[td r]|]; [|discriminate].
  cbn. now intros [= _ <-].
Qed.

Lemma submitUntil_testClock (fuel : nat) (inst : loadLimiter) (cur : Z) (key : string)
    (load timeout : Z) :
  limiter_inv inst ->
  WindowSize (Config inst) <= cur -> cur + WindowSize (Config inst) < two63 ->
  0 <= load < two63 -> 0 <= timeout -> (2 <= fuel)%nat ->
  exists res1 inst1,
    Submit inst cur key load = Some (res1, inst1) /\
    if Accepted res1 then
      submitUntil testClock fuel inst cur key load timeout
      = Some ({| AttemptsNumber := 1; WaitedFor := 0; Error := None |}, inst1, cur)
    else if SkipRetryInComputing (Config inst) then
      submitUntil testClock fuel inst cur key load timeout
      = Some ({| AttemptsNumber := 1; WaitedFor := 0;
                 Error := Some (LoadRequestRejected "retry not supported") |}, inst1, cur)
    else if negb (RetryInAvailable res1) then
      submitUntil testClock fuel inst cur key load timeout
      = Some ({| AttemptsNumber := 1; WaitedFor := 0;
                 Error := Some (LoadRequestRejected "excessive requested load") |}, inst1, cur)
    else if timeout <? RetryIn res1 then
      submitUntil testClock fuel inst cur key load timeout
      = Some ({| AttemptsNumber := 1; WaitedFor := 0;
                 Error := Some (LoadRequestTimeout 1 0) |}, inst1, cur)
    else
      exists res2 inst2,
        Submit inst1 (cur + RetryIn res1 / millisecond) key load = Some (res2, inst2) /\
        Accepted res2 = true /\
        0 < RetryIn res1 <= timeout /\
        submitUntil testClock fuel inst cur key load timeout
        = Some ({| AttemptsNumber := 2; WaitedFor := RetryIn res1; Error := None |},
                inst2, cur + RetryIn res1 / millisecond).
Proof.
  intros Hinv Hlow Hhigh Hload Htimeout Hfuel.
  destruct fuel as [|[|fuel]]; [lia|lia|]. pose proof Hinv as [Hc _].
  pose proof (vc_seg _ Hc) as Hseg. pose proof (vc_num _ Hc) as Hnum.
  pose proof (vc_window _ Hc) as Hwin. pose proof (vc_duration _ Hc) as Hdur.
  assert (HW : 0 < WindowSize (Config inst)) by nia.
  assert (Hcur : 0 <= cur < two63) by lia.
  assert (Hnow : WindowSize (Config inst) <= cur < two63) by lia.
  destruct (Submit_inv inst cur key load Hinv Hnow Hload) as (res1 & inst1 & Hs1 & Hinv1).
  pose proof (Submit_Config _ _ _ _ _ _ Hs1) as Hcfg1.
  exists res1, inst1. split; [exact Hs1|].
  unfold submitUntil. rewrite (testClock_time cur Hcur).
  destruct (Z.ltb_spec timeout 0) as [|_]; [lia|]. cbv zeta.
  cbn [submitUntilLoop]. rewrite (SubmitNow_testClock inst cur key load Hcur), Hs1.
  cbn [mbind option_bind AttemptsNumber WaitedFor Error].
  change (add64 0 1) with 1.
  destruct (Accepted res1) eqn:Hacc; [reflexivity|].
  rewrite Hcfg1. destruct (SkipRetryInComputing (Config inst)) eqn:Hskip; [reflexivity|].
  destruct (RetryInAvailable res1) eqn:Hav; cbn [negb orb]; [|reflexivity].
  destruct (submit_result inst inst1 cur key load res1 Hinv Hnow Hload Hs1)
    as (_ & Hexc & _ & Hhint).
  assert (Hsmall : load <= MaxLoad (Config inst)).
  { destruct (Z.ltb_spec (MaxLoad (Config inst)) load) as [Hbig|]; [|lia].
    destruct (Hexc Hbig) as (_ & Hno & _). congruence. }
  destruct (Hhint Hacc Hsmall Hskip) as [_ Hrange].
  destruct (Z.leb_spec (RetryIn res1) 0) as [|_]; [lia|].
  rewrite (testClock_time cur Hcur).
  destruct (Z.ltb_spec timeout (RetryIn res1)) as [Hlate|Hintime];
    destruct (Z.ltb_spec (cur * millisecond + timeout) (cur * millisecond + RetryIn res1));
    try lia; [reflexivity|].
  set (k := RetryIn res1 / millisecond).
  assert (Hk : 0 <= k <= WindowSize (Config inst)).
  { subst k. split; [apply Z.div_pos; unfold millisecond; lia|].
    apply Z.div_le_upper_bound; unfold millisecond in *; lia. }
  assert (Hnow2 : WindowSize (Config inst1) <= cur + k < two63) by (rewrite Hcfg1; lia).
  destruct (probe_then_submit inst1 (cur + k) key load Hinv1 Hnow2 Hload)
    as (answer & probed & res2 & inst2 & Hp & Hs2 & Hacc2 & _).
  destruct (retry_hint_sound inst inst1 cur (cur + k) key load res1 Hinv Hnow Hload Hs1
              Hacc Hav ltac:(subst k; lia)) as [_ (probed' & Hp')].
  rewrite Hp' in Hp. injection Hp as <- _.
  exists res2, inst2. split; [exact Hs2|]. split; [exact Hacc2|]. split; [lia|].
  assert (Hsleep : SleepFunc testClock (RetryIn res1) cur = cur + k).
  { cbn [SleepFunc testClock]. rewrite Z.quot_div_nonneg by lia.
    change 1000000 with millisecond. fold k.
    rewrite wrap64_id by (unfold u64, two64, two63 in *; lia).
    apply add64_exact. unfold two64, two63 in *. lia. }
  rewrite Hsleep. cbn [submitUntilLoop].
  rewrite (SubmitNow_testClock inst1 (cur + k) key load ltac:(lia)), Hs2.
  cbn [mbind option_bind AttemptsNumber WaitedFor Error]. rewrite Hacc2.
  change (add64 1 1) with 2.
  unfold addS64. rewrite Z.add_0_l, wrapS64_small by (unfold millisecond, two63 in *; lia).
  reflexivity.
Qed.

(** [SubmitUntil] needs at most two attempts when the clock moves by the
    sleeps only, as the clock of the tests does.  The first [Submit] decides:
    accepted, it returns at once; rejected without a hint, or with retry
    computing skipped, it returns a rejection; rejected with a hint longer
    than the timeout, it returns a timeout without sleeping; otherwise it
    sleeps for the hint once and the second [Submit] is accepted, so the
    time waited is the hint and is within the timeout. *)
Theorem submitUntil_two_attempts (fuel : nat) (inst : loadLimiter) (cur : Z) (key : string)
    (load timeout : Z) :
  limiter_inv inst ->
  WindowSize (Config inst) <= cur -> cur + WindowSize (Config inst) < two63 ->
  0 <= load < two63 -> 0 <= timeout -> (2 <= fuel)%nat ->
  exists res1 inst1,
    Submit inst cur key load = Some (res1, inst1) /\
    if Accepted res1 then
      submitUntil testClock fuel inst cur key load timeout
      = Some ({| AttemptsNumber := 1; WaitedFor := 0; Error := None |}, inst1, cur)
    else if SkipRetryInComputing (Config inst) then
      submitUntil testClock fuel inst cur key load timeout
      = Some ({| AttemptsNumber := 1; WaitedFor := 0;
                 Error := Some (LoadRequestRejected "retry not supported") |}, inst1, cur)
    else if negb (RetryInAvailable res1) then
      submitUntil testClock fuel inst cur key load timeout
      = Some ({| AttemptsNumber := 1; WaitedFor := 0;
                 Error := Some (LoadRequestRejected "excessive requested load") |}, inst1, cur)
    else if timeout <? RetryIn res1 then
      submitUntil testClock fuel inst cur key load timeout
      = Some ({| AttemptsNumber := 1; WaitedFor := 0;
                 Error := Some (LoadRequestTimeout 1 0) |}, inst1, cur)
    else
      exists res2 inst2,
        Submit inst1 (cur + RetryIn res1 / millisecond) key load = Some (res2, inst2) /\
        Accepted res2 = true /\
        0 < RetryIn res1 <= timeout /\
        submitUntil testClock fuel inst cur key load timeout
        = Some ({| AttemptsNumber := 2; WaitedFor := RetryIn res1; Error := None |},
                inst2, cur + RetryIn res1 / millisecond).
Proof. exact (submitUntil_testClock fuel inst cur key load timeout). Qed.

Lemma submitUntil_two_attempts_witness :
  exists res1 inst1,
    Submit testBusyLimiter 1002500 "test" 10 = Some (res1, inst1) /\
    if Accepted res1 then
      submitUntil testClock 2 testBusyLimiter 1002500 "test" 10 10000000000
      = Some ({| AttemptsNumber := 1; WaitedFor := 0; Error := None |}, inst1, 1002500)
    else if SkipRetryInComputing (Config testBusyLimiter) then
      submitUntil testClock 2 testBusyLimiter 1002500 "test" 10 10000000000
      = Some ({| AttemptsNumber := 1; WaitedFor := 0;
                 Error := Some (LoadRequestRejected "retry not supported") |}, inst1, 1002500)
    else if negb (RetryInAvailable res1) then
      submitUntil testClock 2 testBusyLimiter 1002500 "test" 10 10000000000
      = Some ({| AttemptsNumber := 1; WaitedFor := 0;
                 Error := Some (LoadRequestRejected "excessive requested load") |},
              inst1, 1002500)
    else if 10000000000 <? RetryIn res1 then
      submitUntil testClock 2 testBusyLimiter 1002500 "test" 10 10000000000
      = Some ({| AttemptsNumber := 1; WaitedFor := 0;
                 Error := Some (LoadRequestTimeout 1 0) |}, inst1, 1002500)
    else
      exists res2 inst2,
        Submit inst1 (1002500 + RetryIn res1 / millisecond) "test" 10 = Some (res2, inst2) /\
        Accepted res2 = true /\
        0 < RetryIn res1 <= 10000000000 /\
        submitUntil testClock 2 testBusyLimiter 1002500 "test" 10 10000000000
        = Some ({| AttemptsNumber := 2; WaitedFor := RetryIn res1; Error := None |},
                inst2, 1002500 + RetryIn res1 / millisecond).
Proof.
  apply (submitUntil_two_attempts 2 testBusyLimiter 1002500 "test" 10 10000000000).
  - exact testBusyLimiter_inv.
  - cbn. lia.
  - cbn. unfold two63. lia.
  - unfold two63. lia.
  - lia.
  - lia.
Defined.

(** ** The factory: helper lemmas *)

Lemma Milliseconds_bounds (d : Z) :
  - two63 <= d < two63 ->
  - two63 <= Milliseconds d * millisecond < two63 /\
  (0 < Milliseconds d -> Milliseconds d * millisecond <= d).
Proof.
  unfold Milliseconds, millisecond, two63. intros Hd.
  pose proof (Z.quot_rem' d 1000000) as Hq.
  destruct (Z_le_gt_dec 0 d) as [Hpos|Hneg].
  - pose proof (Z.rem_bound_pos d 1000000 Hpos ltac:(lia)) as Hr.
    revert Hq Hr. generalize (Z.quot d 1000000), (Z.rem d 1000000). lia.
  - pose proof (Z.rem_bound_pos_neg d 1000000 ltac:(lia) ltac:(lia)) as Hr.
    revert Hq Hr. generalize (Z.quot d 1000000), (Z.rem d 1000000). lia.
Qed.

Lemma pickSegmentSize_cases (d : Z) :
  - two63 <= d < two63 ->
  match pickSegmentSize (Milliseconds d) with
  | inl err =>
      (Milliseconds d <= 0 /\ err = ErrNegativeDuration)
      \/ (0 < Milliseconds d /\ Z.rem (Milliseconds d) 20 <> 0 /\ err = ErrWindowNotDivisible)
  | inr autoSegmentSize =>
      0 < Milliseconds d /\ Z.rem (Milliseconds d) 20 = 0 /\
      0 < autoSegmentSize < two63 /\
      autoSegmentSize = Milliseconds autoSegmentSize * millisecond /\
      Milliseconds d = 20 * Milliseconds autoSegmentSize
  end.
Proof.
  intros Hd. destruct (Milliseconds_bounds d Hd) as [Hw _].
  set (w := Milliseconds d) in *. clearbody w. unfold pickSegmentSize.
  destruct (Z.leb_spec w 0) as [Hle|Hpos]; [left; auto|].
  destruct (Z.eqb_spec (Z.rem w 20) 0) as [Hrem|Hrem]; cbn [negb];
    [|right; auto].
  pose proof (Z.quot_rem' w 20) as Hq. rewrite Hrem, Z.add_0_r in Hq.
  revert Hq. generalize (Z.quot w 20). intros res Hq.
  destruct (Z.ltb_spec res 1) as [Hsmall|Hbig]; [lia|].
  assert (Hms : Milliseconds (mulS64 res millisecond) = res).
  { unfold mulS64. rewrite wrapS64_small by (unfold millisecond, two63 in *; lia).
    unfold Milliseconds. apply Z.quot_mul. unfold millisecond. lia. }
  rewrite Hms. unfold mulS64.
  rewrite wrapS64_small by (unfold millisecond, two63 in *; lia).
  unfold millisecond, two63 in *. repeat split; try lia; exact Hrem.
Qed.

Lemma requestOverheadPenalty_zero (load : Z) :
  requestOverheadPenalty PrimFloat.zero load = 0.
Proof.
  unfold requestOverheadPenalty.
  set (y := float64_of_uint64 load). clearbody y.
  pose proof (FloatAxioms.mul_spec PrimFloat.zero y) as Hmul.
  change (FloatOps.Prim2SF PrimFloat.zero) with (SpecFloat.S754_zero false) in Hmul.
  set (x := PrimFloat.mul PrimFloat.zero y) in *. clearbody x.
  unfold Round, truncate.
  destruct (FloatOps.Prim2SF y) as [s| | |s m e]; cbn in Hmul; rewrite Hmul.
  - rewrite Hmul. reflexivity.
  - rewrite Hmul, FloatAxioms.leb_spec, Hmul. reflexivity.
  - rewrite Hmul, FloatAxioms.leb_spec, Hmul. reflexivity.
  - rewrite Hmul. reflexivity.
Qed.

Lemma uint64_of_float64_u64 (x : float64) (v : Z) :
  uint64_of_float64 x = Some v -> 0 <= v < two64.
Proof.
  unfold uint64_of_float64. destruct (truncate x) as [t|]; cbn; [|discriminate].
  destruct (Z.leb_spec 0 t); cbn; [|discriminate].
  destruct (Z.ltb_spec t two64); [|discriminate].
  intros [= <-]. lia.
Qed.

Lemma penaltySegmentSpan_bounds (factor : float64) (numSegments span : Z) :
  penaltySegmentSpan factor numSegments = Some span -> 1 <= span < two64.
Proof.
  unfold penaltySegmentSpan. destruct (PrimFloat.ltb _ _).
  - destruct (uint64_of_float64 _) as [v|] eqn:Hv; cbn; [|discriminate].
    apply uint64_of_float64_u64 in Hv. intros [= <-].
    destruct (Z.leb_spec v 0); unfold two64 in *; lia.
  - intros [= <-]. unfold two64. lia.
Qed.

Lemma windowSegmentSizeMillis_cases (c : UserConfig.t) (segmentSizeMillis : Z) :
  - two63 <= UserConfig.WindowSize c < two63 ->
  windowSegmentSizeMillis c (Milliseconds (UserConfig.WindowSize c)) = inr segmentSizeMillis ->
  0 < segmentSizeMillis /\
  (UserConfig.WindowSegmentSize c = 0 ->
   Milliseconds (UserConfig.WindowSize c) = 20 * segmentSizeMillis) /\
  (UserConfig.WindowSegmentSize c <> 0 ->
   segmentSizeMillis = Milliseconds (UserConfig.WindowSegmentSize c)).
Proof.
  intros Hw. unfold windowSegmentSizeMillis.
  destruct (Z.eqb_spec (UserConfig.WindowSegmentSize c) 0) as [Hzero|Hset].
  - pose proof (pickSegmentSize_cases _ Hw) as Hpick.
    destruct (pickSegmentSize _) as [err|autoSegmentSize]; [discriminate|].
    intros [= <-]. destruct Hpick as (Hpos & _ & _ & _ & Hsize).
    split; [lia|]. split; [auto|congruence].
  - destruct (Z.leb_spec (Milliseconds (UserConfig.WindowSegmentSize c)) 0);
      [discriminate|].
    intros [= <-]. split; [lia|]. split; [congruence|auto].
Qed.

Lemma validateConfiguration_facts (c : UserConfig.t) (cfg : config) :
  0 <= UserConfig.MaxLoad c < two64 ->
  - two63 <= UserConfig.WindowSize c < two63 ->
  validateConfiguration c = Built cfg ->
  (0 < MaxLoad cfg /\ MaxLoad cfg = UserConfig.MaxLoad c) /\
  (0 < WindowSegmentSize cfg /\ 1 <= NumSegments cfg /\
   WindowSize cfg = NumSegments cfg * WindowSegmentSize cfg) /\
  (WindowSize cfg = Milliseconds (UserConfig.WindowSize c) /\
   WindowSize cfg * millisecond < two63) /\
  (if UserConfig.WindowSegmentSize c =? 0 then NumSegments cfg = 20
   else WindowSegmentSize cfg = Milliseconds (UserConfig.WindowSegmentSize c)) /\
  SkipRetryInComputing cfg = UserConfig.SkipRetryInComputing c /\
  (ApplyPenaltyCapping cfg = true /\ 0 <= AbsoluteMaxPenaltyCap cfg < two64) /\
  (if ApplyOverstepPenalty cfg
   then 0 <= AbsoluteOverstepPenalty cfg < two64 /\
        1 <= OverstepPenaltySegmentSpan cfg < two64
   else AbsoluteOverstepPenalty cfg = 0 /\ OverstepPenaltySegmentSpan cfg = 0) /\
  (if ApplyRequestOverheadPenalty cfg
   then 1 <= RequestOverheadPenaltySegmentSpan cfg < two64
   else RequestOverheadPenaltySegmentSpan cfg = 0 /\
        forall load, RequestOverheadPenalty cfg load = 0).
Proof.
  intros Hmax Hw. unfold validateConfiguration.
  destruct (Z.leb_spec (UserConfig.MaxLoad c) 0) as [|Hload]; [discriminate|].
  pose proof (Milliseconds_bounds _ Hw) as [Hrange Hfloor].
  destruct (Z.leb_spec (Milliseconds (UserConfig.WindowSize c)) 0) as [|Hwindow];
    [discriminate|].
  destruct (PrimFloat.ltb (UserConfig.MaxPenaltyCapFactor c) PrimFloat.zero);
    [discriminate|].
  destruct (windowSegmentSizeMillis c _) as [err|seg] eqn:Hseg; [discriminate|].
  apply (windowSegmentSizeMillis_cases c seg Hw) in Hseg.
  destruct Hseg as (Hpos & Hauto & Hgiven).
  revert Hrange Hfloor Hwindow Hauto.
  generalize (Milliseconds (UserConfig.WindowSize c)). intros w Hrange Hfloor Hwindow Hauto.
  destruct (Z.ltb_spec w seg) as [|Hfits]; [discriminate|].
  destruct (Z.eqb_spec seg 0) as [|_]; [lia|].
  pose proof (Z.quot_rem' w seg) as Hquot.
  pose proof (Z.rem_bound_pos w seg ltac:(lia) Hpos) as Hrem.
  destruct (Z.ltb_spec 0 (Z.rem w seg)) as [|Hexact]; [discriminate|].
  assert (Hmul : w = seg * Z.quot w seg) by lia. clear Hquot Hrem Hexact.
  revert Hmul. generalize (Z.quot w seg). intros num Hmul.
  assert (Hnum : 1 <= num <= w) by nia.
  assert (Hwrap : forall x, 1 <= x <= w -> wrap64 x = x).
  { intros x Hx. apply wrap64_id. unfold u64, two64, two63, millisecond in *. lia. }
  destruct (PrimFloat.ltb (UserConfig.OverstepPenaltyFactor c) PrimFloat.zero);
    [discriminate|].
  destruct (_ || _); [discriminate|].
  destruct (PrimFloat.ltb (UserConfig.RequestOverheadPenaltyFactor c) PrimFloat.zero);
    [discriminate|].
  destruct (_ || _); [discriminate|].
  destruct (uint64_of_float64 _) as [cap|] eqn:Hcap; [|discriminate].
  apply uint64_of_float64_u64 in Hcap.
  rewrite !Hwrap by lia.
  destruct (PrimFloat.ltb PrimFloat.zero (UserConfig.OverstepPenaltyFactor c)).
  - destruct (uint64_of_float64 _) as [penalty|] eqn:Hpenalty; [|discriminate].
    apply uint64_of_float64_u64 in Hpenalty.
    destruct (penaltySegmentSpan _ num) as [span|] eqn:Hspan; [|discriminate].
    apply penaltySegmentSpan_bounds in Hspan.
    destruct (PrimFloat.ltb PrimFloat.zero (UserConfig.RequestOverheadPenaltyFactor c)).
    + destruct (penaltySegmentSpan _ num) as [overheadSpan|] eqn:Hover; [|discriminate].
      apply penaltySegmentSpan_bounds in Hover.
      intros [= <-]. cbn.
      destruct (Z.eqb_spec (UserConfig.WindowSegmentSize c) 0) as [Hz|Hz];
        repeat split; try lia; try (specialize (Hauto Hz); nia); auto.
    + intros [= <-]. cbn.
      destruct (Z.eqb_spec (UserConfig.WindowSegmentSize c) 0) as [Hz|Hz];
        repeat split; try lia; try (specialize (Hauto Hz); nia); auto;
        apply requestOverheadPenalty_zero.
  - destruct (PrimFloat.ltb PrimFloat.zero (UserConfig.RequestOverheadPenaltyFactor c)).
    + destruct (penaltySegmentSpan _ num) as [overheadSpan|] eqn:Hover; [|discriminate].
      apply penaltySegmentSpan_bounds in Hover.
      intros [= <-]. cbn.
      destruct (Z.eqb_spec (UserConfig.WindowSegmentSize c) 0) as [Hz|Hz];
        repeat split; try lia; try (specialize (Hauto Hz); nia); auto.
    + intros [= <-]. cbn.
      destruct (Z.eqb_spec (UserConfig.WindowSegmentSize c) 0) as [Hz|Hz];
        repeat split; try lia; try (specialize (Hauto Hz); nia); auto;
        apply requestOverheadPenalty_zero.
Qed.

Lemma validateConfiguration_no_panic (c : UserConfig.t) :
  - two63 <= UserConfig.WindowSize c < two63 ->
  validateConfiguration c <> DivisionByZero.
Proof.
  intros Hw. unfold validateConfiguration.
  destruct (_ <=? 0); [discriminate|].
  destruct (_ <=? 0); [discriminate|].
  destruct (PrimFloat.ltb _ _); [discriminate|].
  destruct (windowSegmentSizeMillis c _) as [err|seg] eqn:Hseg; [discriminate|].
  apply (windowSegmentSizeMillis_cases c seg Hw) in Hseg. destruct Hseg as [Hpos _].
  destruct (_ <? seg); [discriminate|].
  destruct (Z.eqb_spec seg 0) as [|_]; [lia|].
  destruct (0 <? _); [discriminate|].
  destruct (PrimFloat.ltb _ _); [discriminate|].
  destruct (_ || _); [discriminate|].
  destruct (PrimFloat.ltb _ _); [discriminate|].
  destruct (_ || _); [discriminate|].
  repeat (match goal with
          | |- context [match ?o with Some _ => _ | None => _ end] => destruct o
          end); discriminate.
Qed.


Lemma Submit_new_tenant (inst : loadLimiter) (now : Z) (key : string) (load : Z) :
  limiter_inv inst -> TenantData inst !! key = None ->
  WindowSize (Config inst) <= now < two63 -> 0 <= load < two63 ->
  exists res td',
    Submit inst now key load = Some (res, setTenant inst key td') /\
    Version td' = 3 /\
    if load <=? MaxLoad (Config inst) then
      res = {| Accepted := true; RetryInAvailable := false; RetryIn := 0 |} /\
      WasOver td' = false /\ WindowTotal td' = load /\
      WindowQueue td'
      = [ {| StartTime := locateSegmentStartTime (Config inst) now; Value := load |} ]
    else
      res = {| Accepted := false; RetryInAvailable := false; RetryIn := 0 |} /\
      WasOver td' = true /\
      WindowTotal td'
      = Z.min (if ApplyOverstepPenalty (Config inst)
               then AbsoluteOverstepPenalty (Config inst) else 0)
              (AbsoluteMaxPenaltyCap (Config inst)).
Proof.
  intros Hinv Hnone Hnow Hload. pose proof Hinv as [Hc _].
  pose proof (vc_cap _ Hc) as Hcap. pose proof (vc_max _ Hc) as Hmax.
  pose proof (buildLoadRequest_valid (Config inst) now key load Hc Hnow Hload) as Hreq.
  assert (Hget : getTenant inst key = newTenantData).
  { unfold getTenant. now rewrite Hnone. }
  assert (Hwrap : wrap64 now = now).
  { apply wrap64_id. unfold u64, two64, two63 in *. destruct Hc. nia. }
  destruct (Submit_paths inst now key load Hinv Hnow Hload)
    as (rot & td' & res & Hrotate & Hrot & Hcapped & _ & _ & Hsubmit & _ & _ & Hpath).
  pose proof (submit_result inst _ now key load res Hinv Hnow Hload Hsubmit)
    as (_ & Hexcess & _).
  rewrite Hget, rotateWindow_empty in Hrotate by reflexivity.
  injection Hrotate as <-.
  set (req := buildLoadRequest (Config inst) now key load) in *.
  cbn [markDirty setQueue WindowTotal newTenantData] in Hpath.
  rewrite Z.add_0_l in Hpath.
  exists res, td'. split; [exact Hsubmit|].
  destruct (Z.leb_spec load (MaxLoad (Config inst))) as [Hfit|Hbig].
  - destruct Hpath as [Hacc ->]. unfold acceptLoad in Hacc.
    cbn [markDirty setQueue WindowQueue WindowTotal WasOver Version newTenantData
         StartTime Value RequestedLoad req buildLoadRequest RequestSegmentStartTime]
      in Hacc.
    unfold applyCapping in Hacc. rewrite (vc_capping _ Hc) in Hacc.
    cbn [negb WindowTotal] in Hacc.
    rewrite (add64_exact 0 load) in Hacc by (unfold two64, two63 in *; lia).
    rewrite Z.add_0_l in Hacc.
    destruct (Z.ltb_spec (AbsoluteMaxPenaltyCap (Config inst)) load); [lia|].
    injection Hacc as <-. cbn. rewrite Hwrap. auto.
  - destruct (rejectLoad_cases _ req _ Hc Hreq Hrot Hcapped)
      as (td2 & res2 & Hrej & _ & Htot & _ & Hover & Hver & _).
    rewrite Hpath in Hrej. injection Hrej as <- <-.
    cbn [markDirty setQueue WasOver Version WindowTotal newTenantData negb orb] in Hver, Htot.
    destruct (Hexcess Hbig) as (Ha & Hb & Hd).
    split; [exact Hver|]. split; [|split; [exact Hover|]].
    + destruct res; cbn in *; congruence.
    + rewrite Htot, Z.add_0_l. reflexivity.
Qed.

(** ** The factory *)

(** What [validateConfiguration] guarantees about a configuration it
    accepts, for a [uint64] maximum load and an [int64] window duration: the
    maximum load is positive and copied; the window is the duration in whole
    milliseconds, at least one segment long and an exact multiple of the
    positive segment size, none of the conversions wrapping; a segment size
    left to the factory gives 20 segments, a given one is taken in whole
    milliseconds; capping is always enabled; a penalty that applies spans at
    least one segment, and one that does not apply adds nothing. *)
Theorem validateConfiguration_sound (c : UserConfig.t) (cfg : config) :
  0 <= UserConfig.MaxLoad c < two64 ->
  - two63 <= UserConfig.WindowSize c < two63 ->
  validateConfiguration c = Built cfg ->
  (0 < MaxLoad cfg /\ MaxLoad cfg = UserConfig.MaxLoad c) /\
  (0 < WindowSegmentSize cfg /\ 1 <= NumSegments cfg /\
   WindowSize cfg = NumSegments cfg * WindowSegmentSize cfg) /\
  (WindowSize cfg = Milliseconds (UserConfig.WindowSize c) /\
   WindowSize cfg * millisecond < two63) /\
  (if UserConfig.WindowSegmentSize c =? 0 then NumSegments cfg = 20
   else WindowSegmentSize cfg = Milliseconds (UserConfig.WindowSegmentSize c)) /\
  SkipRetryInComputing cfg = UserConfig.SkipRetryInComputing c /\
  (ApplyPenaltyCapping cfg = true /\ 0 <= AbsoluteMaxPenaltyCap cfg < two64) /\
  (if ApplyOverstepPenalty cfg
   then 0 <= AbsoluteOverstepPenalty cfg < two64 /\
        1 <= OverstepPenaltySegmentSpan cfg < two64
   else AbsoluteOverstepPenalty cfg = 0 /\ OverstepPenaltySegmentSpan cfg = 0) /\
  (if ApplyRequestOverheadPenalty cfg
   then 1 <= RequestOverheadPenaltySegmentSpan cfg < two64
   else RequestOverheadPenaltySegmentSpan cfg = 0 /\
        forall load, RequestOverheadPenalty cfg load = 0).
Proof. exact (validateConfiguration_facts c cfg). Qed.

Lemma validateConfiguration_sound_witness :
  (0 < MaxLoad testValidatedConfig /\ MaxLoad testValidatedConfig = UserConfig.MaxLoad testUserConfig) /\
  (0 < WindowSegmentSize testValidatedConfig /\ 1 <= NumSegments testValidatedConfig /\
   WindowSize testValidatedConfig = NumSegments testValidatedConfig * WindowSegmentSize testValidatedConfig) /\
  (WindowSize testValidatedConfig = Milliseconds (UserConfig.WindowSize testUserConfig) /\
   WindowSize testValidatedConfig * millisecond < two63) /\
  (if UserConfig.WindowSegmentSize testUserConfig =? 0 then NumSegments testValidatedConfig = 20
   else WindowSegmentSize testValidatedConfig = Milliseconds (UserConfig.WindowSegmentSize testUserConfig)) /\
  SkipRetryInComputing testValidatedConfig = UserConfig.SkipRetryInComputing testUserConfig /\
  (ApplyPenaltyCapping testValidatedConfig = true /\ 0 <= AbsoluteMaxPenaltyCap testValidatedConfig < two64) /\
  (if ApplyOverstepPenalty testValidatedConfig
   then 0 <= AbsoluteOverstepPenalty testValidatedConfig < two64 /\
        1 <= OverstepPenaltySegmentSpan testValidatedConfig < two64
   else AbsoluteOverstepPenalty testValidatedConfig = 0 /\ OverstepPenaltySegmentSpan testValidatedConfig = 0) /\
  (if ApplyRequestOverheadPenalty testValidatedConfig
   then 1 <= RequestOverheadPenaltySegmentSpan testValidatedConfig < two64
   else RequestOverheadPenaltySegmentSpan testValidatedConfig = 0 /\
        forall load, RequestOverheadPenalty testValidatedConfig load = 0).
Proof.
  apply (validateConfiguration_sound testUserConfig testValidatedConfig).
  - cbn. unfold two64. lia.
  - cbn. unfold two63. lia.
  - reflexivity.
Defined.

(** [validateConfiguration] never divides by zero: the segment size that
    [pickSegmentSize] chooses for an [int64] window duration is at least one
    millisecond, as a given segment size is checked to be. *)
Theorem validateConfiguration_never_divides_by_zero (c : UserConfig.t) :
  - two63 <= UserConfig.WindowSize c < two63 ->
  validateConfiguration c <> DivisionByZero.
Proof. exact (validateConfiguration_no_panic c). Qed.

Lemma validateConfiguration_never_divides_by_zero_witness :
  validateConfiguration testUserConfigAuto <> DivisionByZero.
Proof.
  apply (validateConfiguration_never_divides_by_zero testUserConfigAuto).
  cbn. unfold two63. lia.
Defined.

(** [pickSegmentSize], on the whole milliseconds of an [int64] duration:
    it fails for a window that is not positive and for one that is not a
    multiple of 20 ms, and for no other; its third error, for a window too
    small, is never returned.  The segment size it picks is a positive whole
    number of milliseconds, a twentieth of the window, with no overflow. *)
Theorem pickSegmentSize_spec (d : Z) :
  - two63 <= d < two63 ->
  match pickSegmentSize (Milliseconds d) with
  | inl err =>
      (Milliseconds d <= 0 /\ err = ErrNegativeDuration)
      \/ (0 < Milliseconds d /\ Z.rem (Milliseconds d) 20 <> 0 /\ err = ErrWindowNotDivisible)
  | inr autoSegmentSize =>
      0 < Milliseconds d /\ Z.rem (Milliseconds d) 20 = 0 /\
      0 < autoSegmentSize < two63 /\
      autoSegmentSize = Milliseconds autoSegmentSize * millisecond /\
      Milliseconds d = 20 * Milliseconds autoSegmentSize
  end.
Proof. exact (pickSegmentSize_cases d). Qed.

Lemma pickSegmentSize_spec_witness :
  match pickSegmentSize (Milliseconds 60000000) with
  | inl err =>
      (Milliseconds 60000000 <= 0 /\ err = ErrNegativeDuration)
      \/ (0 < Milliseconds 60000000 /\ Z.rem (Milliseconds 60000000) 20 <> 0 /\ err = ErrWindowNotDivisible)
  | inr autoSegmentSize =>
      0 < Milliseconds 60000000 /\ Z.rem (Milliseconds 60000000) 20 = 0 /\
      0 < autoSegmentSize < two63 /\
      autoSegmentSize = Milliseconds autoSegmentSize * millisecond /\
      Milliseconds 60000000 = 20 * Milliseconds autoSegmentSize
  end.
Proof.
  apply (pickSegmentSize_spec 60000000). unfold two63. lia.
Defined.



(** The first [Submit] for a tenant the limiter has no data of creates the
    tenant and bumps its version twice, from 1 to 3.  A load within the
    maximum is accepted and becomes the only segment of the window.  A load
    above the maximum is rejected without a retry hint, and the tenant is
    left in overload, charged with the overstep penalty (up to the cap) when
    one is configured. *)
Theorem Submit_unknown_tenant (inst : loadLimiter) (now : Z) (key : string) (load : Z) :
  limiter_inv inst -> TenantData inst !! key = None ->
  WindowSize (Config inst) <= now < two63 -> 0 <= load < two63 ->
  exists res td',
    Submit inst now key load = Some (res, setTenant inst key td') /\
    Version td' = 3 /\
    if load <=? MaxLoad (Config inst) then
      res = {| Accepted := true; RetryInAvailable := false; RetryIn := 0 |} /\
      WasOver td' = false /\ WindowTotal td' = load /\
      WindowQueue td'
      = [ {| StartTime := locateSegmentStartTime (Config inst) now; Value := load |} ]
    else
      res = {| Accepted := false; RetryInAvailable := false; RetryIn := 0 |} /\
      WasOver td' = true /\
      WindowTotal td'
      = Z.min (if ApplyOverstepPenalty (Config inst)
               then AbsoluteOverstepPenalty (Config inst) else 0)
              (AbsoluteMaxPenaltyCap (Config inst)).
Proof. exact (Submit_new_tenant inst now key load). Qed.

Lemma Submit_unknown_tenant_witness :
  exists res td',
    Submit testBusyPenaltyLimiter 1002500 "batch" 120 = Some (res, setTenant testBusyPenaltyLimiter "batch" td') /\
    Version td' = 3 /\
    if 120 <=? MaxLoad (Config testBusyPenaltyLimiter) then
      res = {| Accepted := true; RetryInAvailable := false; RetryIn := 0 |} /\
      WasOver td' = false /\ WindowTotal td' = 120 /\
      WindowQueue td'
      = [ {| StartTime := locateSegmentStartTime (Config testBusyPenaltyLimiter) 1002500; Value := 120 |} ]
    else
      res = {| Accepted := false; RetryInAvailable := false; RetryIn := 0 |} /\
      WasOver td' = true /\
      WindowTotal td'
      = Z.min (if ApplyOverstepPenalty (Config testBusyPenaltyLimiter)
               then AbsoluteOverstepPenalty (Config testBusyPenaltyLimiter) else 0)
              (AbsoluteMaxPenaltyCap (Config testBusyPenaltyLimiter)).
Proof.
  apply (Submit_unknown_tenant testBusyPenaltyLimiter 1002500 "batch" 120).
  - exact testBusyPenaltyLimiter_inv.
  - reflexivity.
  - cbn. unfold two63. lia.
  - unfold two63. lia.
Defined.

(** ** SubmitUntil and the time it waits *)

Section honest_clock.
Context {E : Type} (clk : clock E) (now : E -> Z).
Hypothesis TimeFunc_now : forall env, (TimeFunc clk env).1 = now env.
Hypothesis TimeFunc_passes : forall env, now env <= now (TimeFunc clk env).2.
Hypothesis SleepFunc_passes :
  forall d env, 0 < d -> now env + d <= now (SleepFunc clk d env).

Lemma submitUntilLoop_waits (fuel : nat) (key : string) (load start timeout : Z) :
  timeout < two63 ->
  forall (inst : loadLimiter) (env : E) (out out' : SubmitUntilResult)
         (inst' : loadLimiter) (env' : E),
  0 <= WaitedFor out <= timeout -> start + WaitedFor out <= now env ->
  submitUntilLoop clk fuel inst env key load (start + timeout) out = Some (out', inst', env') ->
  WaitedFor out <= WaitedFor out' <= timeout /\
  start + WaitedFor out' <= now env' /\
  (Error out = None -> Error out' = None ->
   exists inst0 t res,
     Submit inst0 t key load = Some (res, inst') /\ Accepted res = true).
Proof.
  intros Htimeout. induction fuel as [|fuel IH]; intros inst env out out' inst' env' Hw Hnow;
    [discriminate|].
  cbn [submitUntilLoop]. unfold SubmitNow.
  pose proof (TimeFunc_now env) as Ht. pose proof (TimeFunc_passes env) as Hp.
  destruct (TimeFunc clk env) as [t env1]. cbn [fst snd] in Ht, Hp.
  destruct (Submit inst (UnixMilli t) key load) as [[res inst1]|] eqn:Hsubmit;
    cbn [mbind option_bind]; [|discriminate].
  destruct (Accepted res) eqn:Hacc.
  { intros [= <- <- <-]. cbn [WaitedFor Error]. split; [lia|]. split; [lia|].
    intros _ _. exists inst, (UnixMilli t), res. auto. }
  destruct (SkipRetryInComputing (Config inst1)).
  { intros [= <- <- <-]. cbn [WaitedFor Error]. split; [lia|]. split; [lia|]. discriminate. }
  destruct (negb (RetryInAvailable res) || (RetryIn res <=? 0)) eqn:Hretry.
  { intros [= <- <- <-]. cbn [WaitedFor Error]. split; [lia|]. split; [lia|]. discriminate. }
  apply orb_false_elim in Hretry as [_ Hpos]. apply Z.leb_gt in Hpos.
  pose proof (TimeFunc_now env1) as Ht2. pose proof (TimeFunc_passes env1) as Hp2.
  destruct (TimeFunc clk env1) as [t2 env2]. cbn [fst snd] in Ht2, Hp2.
  destruct (Z.ltb_spec (start + timeout) (t2 + RetryIn res)) as [Hlate|Hintime].
  { intros [= <- <- <-]. cbn [WaitedFor Error]. split; [lia|]. split; [lia|]. discriminate. }
  pose proof (SleepFunc_passes (RetryIn res) env2 Hpos) as Hsleep.
  intros Hloop. apply IH in Hloop; cbn [WaitedFor AttemptsNumber Error] in *.
  - unfold addS64 in Hloop. rewrite wrapS64_small in Hloop by lia.
    destruct Hloop as (Hle & Hclock & Hlast). split; [lia|]. split; [lia|]. exact Hlast.
  - unfold addS64. rewrite wrapS64_small by lia. lia.
  - unfold addS64. rewrite wrapS64_small by lia. lia.
Qed.

Lemma submitUntil_waits (fuel : nat) (inst inst' : loadLimiter) (env env' : E)
    (key : string) (load timeout : Z) (out : SubmitUntilResult) :
  timeout < two63 ->
  submitUntil clk fuel inst env key load timeout = Some (out, inst', env') ->
  0 <= WaitedFor out /\ (0 <= timeout -> WaitedFor out <= timeout) /\
  now env + WaitedFor out <= now env' /\
  (Error out = None ->
   exists inst0 t res,
     Submit inst0 t key load = Some (res, inst') /\ Accepted res = true).
Proof.
  intros Htimeout. unfold submitUntil.
  pose proof (TimeFunc_now env) as Ht. pose proof (TimeFunc_passes env) as Hp.
  destruct (TimeFunc clk env) as [t env1]. cbn [fst snd] in Ht, Hp.
  destruct (Z.ltb_spec timeout 0) as [Hneg|Hpos].
  { intros [= <- <- <-]. cbn. split; [lia|]. split; [lia|]. split; [lia|]. discriminate. }
  intros Hloop.
  apply (submitUntilLoop_waits fuel key load t timeout Htimeout) in Hloop;
    cbn [WaitedFor Error] in *; [|lia|lia].
  destruct Hloop as (Hle & Hclock & Hlast). split; [lia|]. split; [lia|]. split; [lia|].
  intros Hnone. now apply Hlast.
Qed.

(** [SubmitUntil] never sleeps for longer than its timeout, whatever the
    state of the limiter: with a clock that does not run backwards and whose
    sleeps last at least their duration, the time waited is between zero and
    the timeout, the clock has advanced by at least as much, and a result
    without an error comes from an accepted [Submit], whose limiter state is
    the one returned. *)
Theorem submitUntil_waits_within_timeout (fuel : nat) (inst inst' : loadLimiter)
    (env env' : E) (key : string) (load timeout : Z) (out : SubmitUntilResult) :
  timeout < two63 ->
  submitUntil clk fuel inst env key load timeout = Some (out, inst', env') ->
  0 <= WaitedFor out /\ (0 <= timeout -> WaitedFor out <= timeout) /\
  now env + WaitedFor out <= now env' /\
  (Error out = None ->
   exists inst0 t res,
     Submit inst0 t key load = Some (res, inst') /\ Accepted res = true).
Proof. exact (submitUntil_waits fuel inst inst' env env' key load timeout out). Qed.

End honest_clock.

Lemma submitUntil_waits_within_timeout_witness :
  exists out inst' env',
    submitUntil systemClock 2 testBusyLimiter 1002500000000 "test" 10 10000000000
    = Some (out, inst', env') /\
    0 <= WaitedFor out /\ (0 <= 10000000000 -> WaitedFor out <= 10000000000) /\
    1002500000000 + WaitedFor out <= env' /\
    (Error out = None ->
     exists inst0 t res,
       Submit inst0 t "test" 10 = Some (res, inst') /\ Accepted res = true).
Proof.
  destruct (submitUntil systemClock 2 testBusyLimiter 1002500000000 "test" 10 10000000000)
    as [[[out inst'] env']|] eqn:Hrun.
  - exists out, inst', env'. split; [reflexivity|].
    refine (submitUntil_waits_within_timeout systemClock (fun t => t) _ _ _ 2
              testBusyLimiter inst' 1002500000000 env' "test" 10 10000000000 out _ _).
    + intros env. reflexivity.
    + intros env. cbn. lia.
    + intros d env Hd. cbn. lia.
    + unfold two63. lia.
    + exact Hrun.
  - vm_compute in Hrun. discriminate Hrun.
Defined.

(** ** Limiters that share a remote store *)

Lemma Submit_same_tenant (inst1 inst2 : loadLimiter) (now : Z) (key : string) (load : Z)
    (res : SubmitResult) (inst1' : loadLimiter) :
  Config inst2 = Config inst1 -> getTenant inst2 key = getTenant inst1 key ->
  Submit inst1 now key load = Some (res, inst1') ->
  Submit inst2 now key load = Some (res, setTenant inst2 key (getTenant inst1' key)).
Proof.
  intros Hcfg Htd. unfold Submit. rewrite Hcfg, Htd.
  destruct (submitTask _ _ _) as [[td r]|]; cbn [mbind option_bind]; [|discriminate].
  intros [= <- <-]. now rewrite getTenant_setTenant.
Qed.

Lemma Probe_same_tenant (inst1 inst2 : loadLimiter) (now : Z) (key : string) (load : Z)
    (answer : bool) (inst1' : loadLimiter) :
  Config inst2 = Config inst1 -> getTenant inst2 key = getTenant inst1 key ->
  Probe inst1 now key load = Some (answer, inst1') ->
  Probe inst2 now key load = Some (answer, setTenant inst2 key (getTenant inst1' key)).
Proof.
  intros Hcfg Htd. unfold Probe. rewrite Hcfg, Htd.
  destruct (probe _ _ _) as [[r td]|]; cbn [mbind option_bind]; [|discriminate].
  intros [= <- <-]. now rewrite getTenant_setTenant.
Qed.

Lemma shared_store (A B : loadLimiter) (store : gmap string string) (now now' : Z)
    (key : string) (load load' : Z) :
  limiter_inv A -> limiter_inv B -> Config B = Config A ->
  key <> "" -> TenantData A !! key = None -> TenantData B !! key = None ->
  store !! key = None ->
  WindowSize (Config A) <= now < two63 -> 0 <= load <= MaxLoad (Config A) ->
  WindowSize (Config A) <= now' < two63 -> 0 <= load' < two63 ->
  exists A' store',
    SyncSubmit A store now key load
    = Some (Some {| Accepted := true; RetryInAvailable := false; RetryIn := 0 |}, A', store') /\
    store' = <[key := serializeStatus (getTenant A' key)]> store /\
    (exists res A'' B' store'',
       Submit A' now' key load' = Some (res, A'') /\
       SyncSubmit B store' now' key load' = Some (Some res, B', store'') /\
       getTenant B' key = getTenant A'' key) /\
    (exists answer A'' B',
       Probe A' now' key load' = Some (answer, A'') /\
       SyncProbe B store' now' key load' = Some (Some answer, B', store') /\
       getTenant B' key = getTenant A'' key).
Proof.
  intros HA HB Hcfg Hkey HnoneA HnoneB Hstore Hnow Hload Hnow' Hload'.
  pose proof HA as [Hc _]. pose proof (vc_cap _ Hc) as Hcap.
  assert (Hload63 : 0 <= load < two63) by lia.
  destruct (Submit_new_tenant A now key load HA HnoneA Hnow Hload63)
    as (res & td & Hsubmit & Hver & Hcase).
  destruct (Z.leb_spec load (MaxLoad (Config A))) as [_|]; [|lia].
  destruct Hcase as (-> & Hover & Htotal & Hqueue).
  destruct (Submit_inv A now key load HA Hnow Hload63) as (res0 & A0 & Hsubmit0 & HA').
  rewrite Hsubmit in Hsubmit0. injection Hsubmit0 as <- <-.
  set (A' := setTenant A key td) in *.
  assert (HgetA' : getTenant A' key = td) by apply getTenant_setTenant.
  assert (Hfetch : storeFetch store key = "").
  { unfold storeFetch. now rewrite Hstore. }
  assert (Hneq : String.eqb key "" = false) by now apply String.eqb_neq.
  assert (Hfits : fits63 td).
  { pose proof (buildLoadRequest_valid (Config A) now key load Hc Hnow Hload63) as Hreq.
    destruct (request_facts _ _ Hc Hreq) as (Hs0 & Hst & _).
    assert (Hwrap : wrap64 now = now).
    { apply wrap64_id. unfold u64, two64, two63 in *. destruct Hc. nia. }
    cbn [buildLoadRequest RequestSegmentStartTime RequestedTimestamp] in Hs0, Hst.
    rewrite Hwrap in Hs0, Hst.
    split; [rewrite Hver; unfold two63; lia|]. split; [lia|].
    rewrite Hqueue. constructor; [|constructor]. split; cbn; lia. }
  assert (Hne : WindowQueue td <> []) by now rewrite Hqueue.
  exists A', (<[key := serializeStatus td]> store).
  split.
  { unfold SyncSubmit, withStoreTransaction. rewrite Hneq, Hfetch.
    cbn [syncRestore String.eqb]. rewrite Hsubmit. cbn [mbind option_bind].
    rewrite HgetA', Hver. unfold getTenant at 1. rewrite HnoneA. reflexivity. }
  split; [now rewrite HgetA'|].
  set (store' := <[key := serializeStatus td]> store).
  assert (Hfetch' : storeFetch store' key = serializeStatus td).
  { unfold storeFetch, store'. now rewrite lookup_insert_eq. }
  assert (HgetB : getTenant B key = newTenantData).
  { unfold getTenant. now rewrite HnoneB. }
  assert (Hrestore : syncRestore (Some (Fetched (storeFetch store' key))) key B
                     = setTenant B key td).
  { unfold syncRestore. rewrite Hfetch', serializeStatus_not_empty, HgetB.
    rewrite restore_newer_version; [reflexivity|exact Hfits| |exact Hne].
    rewrite Hver. reflexivity. }
  change (Config A) with (Config A') in Hnow'.
  split.
  - destruct (Submit_inv A' now' key load' HA' Hnow' Hload') as (res & A2 & Hsub & _).
    pose proof (Submit_same_tenant A' (setTenant B key td) now' key load' res A2
                  Hcfg ltac:(now rewrite !getTenant_setTenant) Hsub) as HsubB.
    eexists res, A2, _, _. split; [exact Hsub|].
    unfold SyncSubmit, withStoreTransaction. rewrite Hneq, Hrestore, HsubB.
    cbn [mbind option_bind]. split; [reflexivity|]. now rewrite getTenant_setTenant.
  - destruct (Probe_inv A' now' key load' HA' Hnow' Hload') as (answer & A2 & Hpr & _).
    pose proof (Probe_same_tenant A' (setTenant B key td) now' key load' answer A2
                  Hcfg ltac:(now rewrite !getTenant_setTenant) Hpr) as HprB.
    eexists answer, A2, _. split; [exact Hpr|].
    unfold SyncProbe, withStoreTransaction. rewrite Hneq, Hrestore, HprB.
    cbn [mbind option_bind negb andb]. split; [reflexivity|]. now rewrite getTenant_setTenant.
Qed.

(** Two limiters with the same configuration that share a remote store act
    as one.  When the first accepts the first load of a tenant, it writes the
    status of the tenant to the store; a second limiter that has no data of
    the tenant then restores that status before it works, so its [Submit] and
    its [Probe] answer what the first limiter would answer, and leave the
    tenant in the state the first limiter would leave it in.  [Probe], being
    read-only, writes nothing to the store. *)
Theorem shared_store_handoff (A B : loadLimiter) (store : gmap string string)
    (now now' : Z) (key : string) (load load' : Z) :
  limiter_inv A -> limiter_inv B -> Config B = Config A ->
  key <> "" -> TenantData A !! key = None -> TenantData B !! key = None ->
  store !! key = None ->
  WindowSize (Config A) <= now < two63 -> 0 <= load <= MaxLoad (Config A) ->
  WindowSize (Config A) <= now' < two63 -> 0 <= load' < two63 ->
  exists A' store',
    SyncSubmit A store now key load
    = Some (Some {| Accepted := true; RetryInAvailable := false; RetryIn := 0 |}, A', store') /\
    store' = <[key := serializeStatus (getTenant A' key)]> store /\
    (exists res A'' B' store'',
       Submit A' now' key load' = Some (res, A'') /\
       SyncSubmit B store' now' key load' = Some (Some res, B', store'') /\
       getTenant B' key = getTenant A'' key) /\
    (exists answer A'' B',
       Probe A' now' key load' = Some (answer, A'') /\
       SyncProbe B store' now' key load' = Some (Some answer, B', store') /\
       getTenant B' key = getTenant A'' key).
Proof. exact (shared_store A B store now now' key load load'). Qed.

Lemma shared_store_handoff_witness :
  exists A' store',
    SyncSubmit (mkLimiter testConfig ∅) ∅ 1000000 "test" 60
    = Some (Some {| Accepted := true; RetryInAvailable := false; RetryIn := 0 |}, A', store') /\
    store' = <["test" := serializeStatus (getTenant A' "test")]> ∅ /\
    (exists res A'' B' store'',
       Submit A' 1000500 "test" 50 = Some (res, A'') /\
       SyncSubmit (mkLimiter testConfig ∅) store' 1000500 "test" 50 = Some (Some res, B', store'') /\
       getTenant B' "test" = getTenant A'' "test") /\
    (exists answer A'' B',
       Probe A' 1000500 "test" 50 = Some (answer, A'') /\
       SyncProbe (mkLimiter testConfig ∅) store' 1000500 "test" 50 = Some (Some answer, B', store') /\
       getTenant B' "test" = getTenant A'' "test").
Proof.
  apply (shared_store_handoff (mkLimiter testConfig ∅) (mkLimiter testConfig ∅) ∅
           1000000 1000500 "test" 60 50).
  - exact (limiter_inv_new testConfig testConfig_valid).
  - exact (limiter_inv_new testConfig testConfig_valid).
  - reflexivity.
  - discriminate.
  - reflexivity.
  - reflexivity.
  - reflexivity.
  - cbn. unfold two63. lia.
  - cbn. lia.
  - cbn. unfold two63. lia.
  - unfold two63. lia.
Defined.
